(** * mod_rednibblebill: nibble billing against a redis counter

    A shallow embedding of [mod_rednibblebill.c] and the properties its
    specification states about it.

    Conventions of the embedding.
    - [switch_time_t] and [long] are signed 64-bit: every addition,
      subtraction and multiplication on them goes through [wrap64].
    - [int] is signed 32-bit.
    - [double] is IEEE binary64, restricted to its finite values: a double
      is the rational it denotes, and every arithmetic operation of the
      module ([fadd], [fsub], [fmul], [fdiv]) and every conversion from an
      integer ([to_double]) rounds its exact result to the nearest double,
      ties to even, with gradual underflow ([Binary64.round]), once per
      operation as SSE2 code does.  Negation, [ceil] and the comparisons
      are exact.  The operations of [Q] itself are those of exact
      arithmetic: the statements use them to set what the code computes
      against the exact values.  Infinities, NaN and the sign of zero are
      not represented: the variables hold finite numbers, and a result
      beyond the largest double, about 1.8e308, is rounded as if the
      exponent had no upper bound.  A conversion from [double] to an
      integer type whose value does not fit gives the smallest value of
      the type, as the x86-64 conversion instructions do.
    - Channel variables are kept already parsed: [atof] and [atol] of their
      text.
    - What the module does to the outside (redis commands, log lines,
      applications, transfers) is appended to a trace; what the outside
      answers (clock readings, redis and application results) comes from
      an [oracle] given to each operation. *)

From Stdlib Require Import ZArith QArith Qround Qabs Qpower Qreduction.
From Stdlib Require Import List String Ascii Bool Lia Lqa Morphisms.
Import ListNotations.
Local Open Scope Z_scope.

(** ** Machine integers *)

Module Machine.

Definition INT_MIN : Z := - 2 ^ 31.
Definition INT_MAX : Z := 2 ^ 31 - 1.
Definition INT64_MIN : Z := - 2 ^ 63.
Definition INT64_MAX : Z := 2 ^ 63 - 1.

Definition wrap64 (z : Z) : Z := (z + 2 ^ 63) mod 2 ^ 64 - 2 ^ 63.

Definition add64 (a b : Z) : Z := wrap64 (a + b).
Definition sub64 (a b : Z) : Z := wrap64 (a - b).
Definition mul64 (a b : Z) : Z := wrap64 (a * b).
(** C division truncates toward zero; the only divisor in the module is
    the literal 1000000. *)
Definition div64 (a b : Z) : Z := Z.quot a b.

End Machine.
Import Machine.

(** ** Doubles *)

Definition double : Type := Q.

Module Binary64.

(** [floor(log2 x)] for a positive [x]. *)
Definition ilog2 (x : Q) : Z :=
  let c := Z.log2 (Qnum x) - Z.log2 (Zpos (Qden x)) in
  if Qle_bool (2 ^ c) x then c else c - 1.

(** The nearest integer, the even one of two that are as near. *)
Definition rne (x : Q) : Z :=
  let f := Qfloor x in
  match (x - inject_Z f ?= 1 # 2)%Q with
  | Lt => f
  | Gt => f + 1
  | Eq => if Z.even f then f else f + 1
  end.

(** The exponent of the last of the 53 bits of the significand; it stops
    at -1074, where the subnormal numbers begin. *)
Definition ulp_exponent (x : Q) : Z := Z.max (ilog2 (Qabs x) - 52) (-1074).

(** The double nearest to [x]. *)
Definition round (x : Q) : double :=
  if Qeq_bool x 0 then 0%Q
  else
    let e := ulp_exponent x in
    Qred (inject_Z (rne (x / 2 ^ e)) * 2 ^ e).

(** Half the distance between 1 and the next double. *)
Definition unit_roundoff : Q := (2 ^ (-53))%Q.

(** The rationals that are doubles. *)
Definition representable (x : Q) : Prop := (round x == x)%Q.

End Binary64.

(** The arithmetic of C on doubles.  A division by zero, infinite or
    undefined in C, is 0 here; the module divides by the constants 1000000
    and 60 and, in [chargedunits], by the increment. *)
Definition fadd (x y : double) : double := Binary64.round (x + y).
Definition fsub (x y : double) : double := Binary64.round (x - y).
Definition fmul (x y : double) : double := Binary64.round (x * y).
Definition fdiv (x y : double) : double := Binary64.round (x / y).

Arguments fadd (x y)%_Q.
Arguments fsub (x y)%_Q.
Arguments fmul (x y)%_Q.
Arguments fdiv (x y)%_Q.

(** [(double) z], and [atof] of the decimal text of an integer. *)
Definition to_double (z : Z) : double := Binary64.round (inject_Z z).

Definition ceil (x : double) : double := inject_Z (Qceiling x).

Definition trunc (x : double) : Z := Z.quot (Qnum x) (Zpos (Qden x)).

(** [(int) x] *)
Definition int_of_double (x : double) : Z :=
  let t := trunc x in
  if (INT_MIN <=? t) && (t <=? INT_MAX) then t else INT_MIN.

(** [(switch_time_t) x] *)
Definition time_of_double (x : double) : Z :=
  let t := trunc x in
  if (INT64_MIN <=? t) && (t <=? INT64_MAX) then t else INT64_MIN.

(** ** Text *)

Definition digit (n : Z) : ascii := ascii_of_nat (48 + Z.to_nat n).

(** The last [k] decimal digits of [n], before [acc]. *)
Fixpoint digits (k : nat) (n : Z) (acc : string) : string :=
  match k with
  | O => acc
  | S k => digits k (n / 10) (String (digit (n mod 10)) acc)
  end.

(** The decimal digits of a natural number, one at least, before [acc]. *)
Fixpoint decimal (fuel : nat) (n : Z) (acc : string) : string :=
  let acc := String (digit (n mod 10)) acc in
  match fuel with
  | O => acc
  | S fuel => if n / 10 =? 0 then acc else decimal fuel (n / 10) acc
  end.

(** [printf("%f", x)]: the sign, the integer part and six decimals, the
    value rounded to the nearest millionth, ties to even. *)
Definition printf_f (x : double) : string :=
  let micro := Binary64.rne (Qabs x * 1000000) in
  String.append (if Qle_bool 0 x then "" else "-")
    (decimal (Z.to_nat (Z.log2 micro)) (micro / 1000000)
       (String "." (digits 6 (micro mod 1000000) ""))).

(** ** Data *)

Record rednibble_data_t : Type := {
  lastts : Z;
  total : double;
  pausets : Z;
  bill_adjustments : double;
  lowbal_action_executed : Z
}.

(** [memset(rednibble_data, 0, sizeof( *rednibble_data))] *)
Definition zeroed : rednibble_data_t :=
  {| lastts := 0; total := 0%Q; pausets := 0; bill_adjustments := 0%Q;
     lowbal_action_executed := 0 |}.

Definition with_lastts (d : rednibble_data_t) (v : Z) : rednibble_data_t :=
  {| lastts := v; total := total d; pausets := pausets d;
     bill_adjustments := bill_adjustments d;
     lowbal_action_executed := lowbal_action_executed d |}.

Definition with_pausets (d : rednibble_data_t) (v : Z) : rednibble_data_t :=
  {| lastts := lastts d; total := total d; pausets := v;
     bill_adjustments := bill_adjustments d;
     lowbal_action_executed := lowbal_action_executed d |}.

Definition with_lowbal_action_executed (d : rednibble_data_t) (v : Z)
  : rednibble_data_t :=
  {| lastts := lastts d; total := total d; pausets := pausets d;
     bill_adjustments := bill_adjustments d;
     lowbal_action_executed := v |}.

(** Modelled from the spec: the host header [switch_types.h], which is not
    part of the module, declares [switch_status_t]; the module uses its
    first two enumerators, [SWITCH_STATUS_SUCCESS] = 0 and
    [SWITCH_STATUS_FALSE] = 1, the second being the balance the spec gives
    for a store that cannot be reached (section 4.2 and section 7). *)
Inductive switch_status_t : Type :=
| SWITCH_STATUS_SUCCESS
| SWITCH_STATUS_FALSE.

Definition status_value (s : switch_status_t) : Z :=
  match s with
  | SWITCH_STATUS_SUCCESS => 0
  | SWITCH_STATUS_FALSE => 1
  end.

(** The channel states of the host. *)
Inductive switch_channel_state_t : Type :=
| CS_NEW | CS_INIT | CS_ROUTING | CS_SOFT_EXECUTE | CS_EXECUTE
| CS_EXCHANGE_MEDIA | CS_PARK | CS_CONSUME_MEDIA | CS_HIBERNATE | CS_RESET
| CS_HANGUP | CS_REPORTING | CS_DESTROY | CS_NONE.

Definition is_reporting (s : switch_channel_state_t) : bool :=
  match s with CS_REPORTING => true | _ => false end.

Definition is_hangup (s : switch_channel_state_t) : bool :=
  match s with CS_HANGUP => true | _ => false end.

Inductive switch_log_level_t : Type :=
| SWITCH_LOG_DEBUG | SWITCH_LOG_INFO | SWITCH_LOG_WARNING
| SWITCH_LOG_ERROR | SWITCH_LOG_CRIT.

(** The channel of a session: the variables the module reads and writes,
    the answer time of the caller profile ([None] when the profile or its
    times are missing), the channel state, and the private slot
    [_rednibble_data_]. *)
Record switch_channel_t : Type := {
  rednibble_rate : option double;
  rednibble_increment : option Z;     (* [None]: unset or empty *)
  rednibble_account : option string;
  var_nobal_amt : option double;      (* [None]: unset or empty *)
  var_lowbal_amt : option double;     (* [None]: unset or empty *)
  rednibble_total_billed : option string;   (* the text of [%f] *)
  answered : option Z;
  channel_state : switch_channel_state_t;
  rednibble_data : option rednibble_data_t
}.

Definition with_rednibble_data (ch : switch_channel_t)
  (d : option rednibble_data_t) : switch_channel_t :=
  {| rednibble_rate := rednibble_rate ch;
     rednibble_increment := rednibble_increment ch;
     rednibble_account := rednibble_account ch;
     var_nobal_amt := var_nobal_amt ch;
     var_lowbal_amt := var_lowbal_amt ch;
     rednibble_total_billed := rednibble_total_billed ch;
     answered := answered ch;
     channel_state := channel_state ch;
     rednibble_data := d |}.

Definition with_total_billed (ch : switch_channel_t) (v : string)
  : switch_channel_t :=
  {| rednibble_rate := rednibble_rate ch;
     rednibble_increment := rednibble_increment ch;
     rednibble_account := rednibble_account ch;
     var_nobal_amt := var_nobal_amt ch;
     var_lowbal_amt := var_lowbal_amt ch;
     rednibble_total_billed := Some v;
     answered := answered ch;
     channel_state := channel_state ch;
     rednibble_data := rednibble_data ch |}.

(** What the module does to its collaborators, in the order it does it:
    the redis commands, the log lines (level and format), the application
    run for a low balance and the transfer of the call.  Two entries carry
    more than the collaborator sees: [call_bill_event] marks the entry into
    [bill_event] with its arguments, the debit of the store client, and
    [session_transfer] keeps the private data found on the channel when
    the host is asked to reroute. *)
Inductive event : Type :=
| credis_connect (connected : bool)
| credis_decrby (rediskey : string) (dec : Z)
| credis_get (rediskey : string)
| credis_close
| call_bill_event (billamount : double) (billaccount : string)
| switch_log_printf (level : switch_log_level_t) (fmt : string)
| execute_application (app_string : string)
| session_transfer (destination : string) (seen : option rednibble_data_t).

(** The process-wide settings. [mutex] tells whether [globals.mutex] is
    set; the actions are [None] when the pointer is null. *)
Record globals_t : Type := {
  mutex : bool;
  percall_max_amt : double;
  percall_action : option string;
  lowbal_amt : double;
  lowbal_action : option string;
  nobal_amt : double;
  nobal_action : option string;
  global_heartbeat : Z
}.

(** A session as the module sees it: its channel ([None] when
    [switch_core_session_get_channel] gives null), how many times the
    calling thread holds the nested global mutex, and the trace.  The
    commands always come with a session: the null session [do_billing]
    guards against is left out. *)
Record world : Type := {
  channel : option switch_channel_t;
  lock_depth : nat;
  trace : list event
}.

(** The answers of the outside during one operation. *)
Record oracle : Type := {
  micro_time_now : Z;         (* [switch_micro_time_now()] of the operation *)
  micro_time_pause : Z;       (* the reading of the pause nested in [do_billing] *)
  bill_connect : bool;        (* [credis_connect] in [bill_event] *)
  decrby_ok : bool;           (* [credis_decrby] gave 0 *)
  balance_connect : bool;     (* [credis_connect] in [get_balance] *)
  balance_reply : option Z;   (* [credis_get]: [None] for a non-zero result *)
  lowbal_app_status : switch_status_t
}.

(** ** Plumbing *)

Definition emit (e : event) (w : world) : world :=
  {| channel := channel w; lock_depth := lock_depth w;
     trace := trace w ++ [e] |}.

Definition log (level : switch_log_level_t) (fmt : string) : world -> world :=
  emit (switch_log_printf level fmt).

Definition with_channel (w : world) (ch : switch_channel_t) : world :=
  {| channel := Some ch; lock_depth := lock_depth w; trace := trace w |}.

Definition switch_mutex_lock (g : globals_t) (w : world) : world :=
  if mutex g
  then {| channel := channel w; lock_depth := S (lock_depth w);
          trace := trace w |}
  else w.

Definition switch_mutex_unlock (g : globals_t) (w : world) : world :=
  if mutex g
  then {| channel := channel w; lock_depth := pred (lock_depth w);
          trace := trace w |}
  else w.

(** [switch_channel_get_private(channel, "_rednibble_data_")] *)
Definition get_private (w : world) : option rednibble_data_t :=
  match channel w with
  | Some ch => rednibble_data ch
  | None => None
  end.

(** A write through the pointer kept in the private slot. *)
Definition set_private (d : rednibble_data_t) (w : world) : world :=
  match channel w with
  | Some ch => with_channel w (with_rednibble_data ch (Some d))
  | None => w
  end.

(** [switch_channel_set_variable_printf(channel, "rednibble_total_billed",
    "%f", v)] *)
Definition set_total_billed (v : double) (w : world) : world :=
  match channel w with
  | Some ch => with_channel w (with_total_billed ch (printf_f v))
  | None => w
  end.

(** ** The balance store client *)

Definition redis_factory (connected : bool) (w : world)
  : switch_status_t * world :=
  let w := emit (credis_connect connected) w in
  if connected then (SWITCH_STATUS_SUCCESS, w)
  else (SWITCH_STATUS_FALSE,
        log SWITCH_LOG_ERROR
          "Couldn't connect to redis server at %s:%d timeout:%d" w).

Definition rediskey_of (billaccount : string) : string :=
  String.append "rn_" billaccount.

(** [dec = (int)ceil(billamount*1000000)] *)
Definition dec_of (billamount : double) : Z :=
  int_of_double (ceil (fmul billamount 1000000)).

(** [balance = val/1000000] *)
Definition balance_of (val : double) : double := fdiv val 1000000.

Definition bill_event (o : oracle) (billamount : double)
  (billaccount : string) (w : world) : switch_status_t * world :=
  let w := emit (call_bill_event billamount billaccount) w in
  match redis_factory (bill_connect o) w with
  | (SWITCH_STATUS_FALSE, w) => (SWITCH_STATUS_FALSE, w)
  | (SWITCH_STATUS_SUCCESS, w) =>
    let rediskey := rediskey_of billaccount in
    let dec := dec_of billamount in
    let w := log SWITCH_LOG_DEBUG "Updating account %s by %e" w in
    let w := emit (credis_decrby rediskey dec) w in
    if decrby_ok o
    then (SWITCH_STATUS_SUCCESS, emit credis_close w)
    else (SWITCH_STATUS_FALSE,
          emit credis_close
            (log SWITCH_LOG_ERROR
               "ERR: Could not decrement redis value on key %s by %e" w))
  end.

Definition get_balance (o : oracle) (billaccount : string) (w : world)
  : double * world :=
  match redis_factory (balance_connect o) w with
  | (SWITCH_STATUS_FALSE, w) =>
    (inject_Z (status_value SWITCH_STATUS_FALSE), w)
  | (SWITCH_STATUS_SUCCESS, w) =>
    let rediskey := rediskey_of billaccount in
    let w := log SWITCH_LOG_DEBUG "Looking up redis key %s" w in
    let w := emit (credis_get rediskey) w in
    match balance_reply o with
    | None =>
      (1%Q,
       emit credis_close
         (log SWITCH_LOG_ERROR
            "ERR: Could not get redis value on key %s (got result %d) - returning positive value for now (FIXME)"
            w))
    | Some str =>
      let val := to_double str in
      (balance_of val,
       emit credis_close
         (log SWITCH_LOG_DEBUG
            "Key %s returned %s converted to %e / %f " w))
    end
  end.

(** ** The host's actions *)

Definition exec_app (o : oracle) (app_string : option string) (w : world)
  : switch_status_t * world :=
  match app_string with
  | None => (SWITCH_STATUS_FALSE, w)
  | Some app => (lowbal_app_status o, emit (execute_application app) w)
  end.

(** The transfer is recorded with the private data the host finds on the
    channel when it is asked to reroute. *)
Definition transfer_call (destination : option string) (w : world) : world :=
  match destination with
  | None => w
  | Some dst => emit (session_transfer dst (get_private w)) w
  end.

(** ** The billing engine *)

Definition rednibblebill_pause (g : globals_t) (ts : Z) (w : world) : world :=
  match channel w with
  | None => w
  | Some ch =>
    let w := switch_mutex_lock g w in
    match rednibble_data ch with
    | None =>
      log SWITCH_LOG_INFO
        "Can't pause - channel is not initialized for billing!" w
    | Some d =>
      let w := if pausets d =? 0 then set_private (with_pausets d ts) w
               else w in
      let w := log SWITCH_LOG_INFO "Paused billing timestamp!" w in
      switch_mutex_unlock g w
    end
  end.

(** [atof(billrate) / 1000000 / 60] *)
Definition rate_per_usec (billrate : double) : double :=
  fdiv (fdiv billrate 1000000) 60.

(** The [chargedunits] of line 433.  With a zero increment and a second
    or more elapsed, the C quotient is infinite and its conversion gives
    [INT64_MIN], where the quotient below is 0: the product with the
    increment is 0 either way. *)
Definition chargedunits (ts last inc : Z) : Z :=
  if div64 (sub64 ts last) 1000000 <=? inc
  then mul64 inc 1000000
  else
    mul64
      (mul64
         (time_of_double
            (ceil (fdiv (to_double (sub64 ts last))
                     (fmul (to_double inc) 1000000))))
         inc)
      1000000.

(** Lines 432 to 442: the amount to bill and the data with its timestamp
    moved, by increments when [rednibble_increment] is set and by the time
    elapsed otherwise. *)
Definition charge (ts : Z) (billrate : double) (billincrement : option Z)
  (d : rednibble_data_t) : double * rednibble_data_t :=
  match billincrement with
  | Some inc =>
    let cu := chargedunits ts (lastts d) inc in
    (fsub (fmul (rate_per_usec billrate) (to_double cu))
       (bill_adjustments d),
     with_lastts d (add64 (lastts d) cu))
  | None =>
    (fsub (fmul (rate_per_usec billrate) (to_double (sub64 ts (lastts d))))
       (bill_adjustments d),
     with_lastts d ts)
  end.

(** Lines 430 to 463: the charge and its debit, on the data the local
    pointer designates. *)
Definition bill (o : oracle) (billrate : double) (billincrement : option Z)
  (billaccount : string) (d : rednibble_data_t) (w : world)
  : rednibble_data_t * world :=
  let ts := micro_time_now o in
  if 0 <=? sub64 ts (lastts d) then
    let '(billamount, d) := charge ts billrate billincrement d in
    let w := log SWITCH_LOG_DEBUG
               "Billing %f to %s (Call: %s / %f so far)" w in
    match bill_event o billamount billaccount w with
    | (SWITCH_STATUS_SUCCESS, w) =>
      let d := {| lastts := lastts d;
                  total := fadd (total d) billamount;
                  pausets := pausets d;
                  bill_adjustments := 0%Q;
                  lowbal_action_executed := lowbal_action_executed d |} in
      (d, set_total_billed (total d) w)
    | (SWITCH_STATUS_FALSE, w) =>
      (d, log SWITCH_LOG_CRIT "Failed to log to database!" w)
    end
  else
    (d,
     match billincrement with
     | None =>
       log SWITCH_LOG_WARNING
         "Just tried to bill %s negative minutes! That should be impossible."
         w
     | Some _ => w
     end).

(** Lines 472 to 496: the balance check after the charge; [d] is the data
    just saved in the private slot. *)
Definition verify_balance (g : globals_t) (o : oracle)
  (lowbal nobal : double) (billaccount : string) (d : rednibble_data_t)
  (w : world) : world :=
  let '(balance, w) := get_balance o billaccount w in
  let w :=
    if (lowbal_action_executed d =? 0) && Qle_bool balance lowbal then
      let w := log SWITCH_LOG_DEBUG
                 "Balance of %f fell below low balance amount of %f! (Account %s)"
                 w in
      match exec_app o (lowbal_action g) w with
      | (SWITCH_STATUS_SUCCESS, w) =>
        set_private (with_lowbal_action_executed d 1) w
      | (SWITCH_STATUS_FALSE, w) =>
        log SWITCH_LOG_ERROR "Low balance action didn't execute" w
      end
    else w in
  if Qle_bool balance nobal then
    let w := log SWITCH_LOG_CRIT
               "Balance of %f fell below allowed amount of %f! (Account %s)"
               w in
    let w := rednibblebill_pause g (micro_time_pause o) w in
    transfer_call (nobal_action g) w
  else w.

Definition do_billing (g : globals_t) (o : oracle) (w : world) : world :=
  match channel w with
  | None => w
  | Some ch =>
    let billincrement := rednibble_increment ch in
    let nobal := match var_nobal_amt ch with
                 | Some v => v
                 | None => nobal_amt g
                 end in
    let lowbal := match var_lowbal_amt ch with
                  | Some v => v
                  | None => lowbal_amt g
                  end in
    match rednibble_rate ch, rednibble_account ch with
    | Some billrate, Some billaccount =>
      let w := log SWITCH_LOG_DEBUG
                 "Attempting to bill at %s per minute to account %s" w in
      match answered ch with
      | None => w
      | Some ans =>
        if ans <? 1 then
          let w := log SWITCH_LOG_DEBUG
                     "Not billing %s - call is not in answered state" w in
          let '(balance, w) := get_balance o billaccount w in
          let w := log SWITCH_LOG_DEBUG
                     "Comparing %f to hangup balance of %f" w in
          if Qle_bool balance nobal then
            transfer_call (nobal_action g)
              (log SWITCH_LOG_DEBUG
                 "Balance of %f fell below allowed amount of %f! (Account %s)"
                 w)
          else w
        else
          let w := switch_mutex_lock g w in
          if match rednibble_data ch with
             | Some d => pausets d >? 0
             | None => false
             end
          then
            log SWITCH_LOG_DEBUG
              "Received heartbeat, but we're paused - ignoring"
              (switch_mutex_unlock g w)
          else
            let '(d, w) :=
              match rednibble_data ch with
              | Some d => (d, w)
              | None =>
                (with_lastts zeroed ans,
                 log SWITCH_LOG_INFO "Beginning new billing on %s" w)
              end in
            let w := log SWITCH_LOG_DEBUG
                       "%d seconds passed since last bill time of %s" w in
            let '(d, w) := bill o billrate billincrement billaccount d w in
            let w := set_private d w in
            let w :=
              if negb (is_reporting (channel_state ch))
                 && negb (is_hangup (channel_state ch))
              then verify_balance g o lowbal nobal billaccount d w
              else w in
            switch_mutex_unlock g w
      end
    | _, _ => w
    end
  end.

(** [None] stands for the crash of [atof] on a null rate. *)
Definition rednibblebill_resume (g : globals_t) (o : oracle) (w : world)
  : option world :=
  let ts := micro_time_now o in
  match channel w with
  | None => Some w
  | Some ch =>
    match rednibble_data ch with
    | None =>
      Some (log SWITCH_LOG_DEBUG
              "Can't resume - channel is not initialized for billing (This is expected at hangup time)!"
              w)
    | Some d =>
      if pausets d =? 0 then
        Some (log SWITCH_LOG_DEBUG
                "Can't resume - channel is not paused! (This is expected at hangup time)"
                w)
      else
        let w := switch_mutex_lock g w in
        match rednibble_rate ch with
        | None => None
        | Some billrate =>
          let d := {| lastts := lastts d;
                      total := total d;
                      pausets := 0;
                      bill_adjustments :=
                        fadd (bill_adjustments d)
                          (fmul (rate_per_usec billrate)
                             (to_double (sub64 ts (pausets d))));
                      lowbal_action_executed := lowbal_action_executed d |} in
          let w := set_private d w in
          let w := log SWITCH_LOG_INFO
                     "Resumed billing! Subtracted %f from this billing cycle."
                     w in
          Some (switch_mutex_unlock g w)
        end
    end
  end.

Definition rednibblebill_reset (g : globals_t) (o : oracle) (w : world)
  : world :=
  let ts := micro_time_now o in
  match channel w with
  | None => w
  | Some ch =>
    match rednibble_data ch with
    | None =>
      log SWITCH_LOG_INFO
        "Can't reset - channel is not initialized for billing!" w
    | Some d =>
      let w := switch_mutex_lock g w in
      let w := set_private (with_lastts d ts) w in
      let w := log SWITCH_LOG_INFO
                 "Reset last billing timestamp marker to right now!" w in
      switch_mutex_unlock g w
    end
  end.

Definition rednibblebill_check (g : globals_t) (w : world) : double * world :=
  match channel w with
  | None => ((-99999)%Q, w)
  | Some ch =>
    match rednibble_data ch with
    | None =>
      ((-99999)%Q,
       log SWITCH_LOG_INFO
         "Can't check - channel is not initialized for billing!" w)
    | Some d =>
      let w := switch_mutex_lock g w in
      let amount := total d in
      (amount, switch_mutex_unlock g w)
    end
  end.

Definition rednibblebill_adjust (o : oracle) (amount : double) (w : world)
  : world :=
  match channel w with
  | None => w
  | Some ch =>
    match rednibble_account ch with
    | None => w
    | Some billaccount =>
      match bill_event o (- amount)%Q billaccount w with
      | (SWITCH_STATUS_SUCCESS, w) =>
        log SWITCH_LOG_INFO "Recorded adjustment to %s for %f" w
      | (SWITCH_STATUS_FALSE, w) =>
        log SWITCH_LOG_ERROR "Failed to record adjustment to %s for %f" w
      end
    end
  end.

(** ** The command surface

    The commands of [rednibblebill_app_function] once the text is split;
    [heartbeat], which only asks the host for periodic events, is left
    out. *)
Inductive command : Type :=
| adjust (amount : double)
| flush
| pause
| resume
| check
| reset.

Definition rednibblebill_app_function (g : globals_t) (c : command)
  (o : oracle) (w : world) : option world :=
  match c with
  | adjust amount => Some (rednibblebill_adjust o amount w)
  | flush => Some (do_billing g o w)
  | pause => Some (rednibblebill_pause g (micro_time_now o) w)
  | resume => rednibblebill_resume g o w
  | check =>
    let '(_, w) := rednibblebill_check g w in
    Some (log SWITCH_LOG_INFO "Current billing is at %f" w)
  | reset => Some (rednibblebill_reset g o w)
  end.

(** A session's life as the commands it receives, each with the answers of
    the outside. *)
Fixpoint run (g : globals_t) (cs : list (command * oracle)) (w : world)
  : option world :=
  match cs with
  | [] => Some w
  | (c, o) :: cs =>
    match rednibblebill_app_function g c o w with
    | Some w => run g cs w
    | None => None
    end
  end.

(** ** Fixtures used by the examples *)

Definition globals0 : globals_t :=
  {| mutex := true;
     percall_max_amt := 0%Q; percall_action := Some "hangup"%string;
     lowbal_amt := 5%Q; lowbal_action := Some "play ding"%string;
     nobal_amt := 0%Q; nobal_action := Some "hangup"%string;
     global_heartbeat := 0 |}.

(** A reachable store that accepts every command and holds [balance]
    micro-units; the clock reads [now]. *)
Definition store_up (now : Z) (balance : Z) : oracle :=
  {| micro_time_now := now; micro_time_pause := now;
     bill_connect := true; decrby_ok := true;
     balance_connect := true; balance_reply := Some balance;
     lowbal_app_status := SWITCH_STATUS_SUCCESS |}.

(** A store that cannot be reached. *)
Definition store_down (now : Z) : oracle :=
  {| micro_time_now := now; micro_time_pause := now;
     bill_connect := false; decrby_ok := false;
     balance_connect := false; balance_reply := None;
     lowbal_app_status := SWITCH_STATUS_SUCCESS |}.

(** An answered call (at second 1) billed at [rate] per minute to account
    [acct], in state [CS_EXECUTE]. *)
Definition call (rate : option double) (inc : option Z)
  (account : option string) (d : option rednibble_data_t)
  : switch_channel_t :=
  {| rednibble_rate := rate;
     rednibble_increment := inc;
     rednibble_account := account;
     var_nobal_amt := None; var_lowbal_amt := None;
     rednibble_total_billed := None;
     answered := Some 1000000;
     channel_state := CS_EXECUTE;
     rednibble_data := d |}.

Definition session_of (ch : switch_channel_t) : world :=
  {| channel := Some ch; lock_depth := 0%nat; trace := [] |}.

(** ** The claims' own words *)

(** C10, as the claim states it: the delta is the ceiling of the scaled
    amount and decoding it does not fall below the amount. *)
Definition never_under_debited (amount : double) : Prop :=
  dec_of amount = Qceiling (amount * 1000000)%Q
  /\ (amount <= balance_of (inject_Z (dec_of amount)))%Q.

(** C6, in the words of the spec: the balance [readBalance] reports for
    each outcome of the connection and of the read; the stored integer and
    its quotient by 1000000 are doubles. *)
Definition fail_open_balance (connected : bool) (reply : option Z) : double :=
  if connected then
    match reply with
    | Some stored => fdiv (to_double stored) 1000000
    | None => 1%Q
    end
  else 1%Q.


(** ** Reading the trace *)

(** The events that only accompany a store access or report on it: the
    connections, reads and closes, and the log lines below the warning
    level the module keeps for a clock running backward. *)
Definition plumbing (e : event) : bool :=
  match e with
  | credis_connect _ | credis_get _ | credis_close => true
  | switch_log_printf SWITCH_LOG_WARNING _ => false
  | switch_log_printf _ _ => true
  | _ => false
  end.

Definition ignores_plumbing (p : event -> bool) : Prop :=
  forall e, plumbing e = true -> p e = false.

Definition observed (p : event -> bool) (w : world) : list event :=
  filter p (trace w).

(** The calls of [bill_event], the debit of the spec. *)
Definition is_bill_event (e : event) : bool :=
  match e with call_bill_event _ _ => true | _ => false end.

(** Anything that debits: a call of [bill_event] or a decrement sent to
    the store. *)
Definition is_debit (e : event) : bool :=
  match e with
  | call_bill_event _ _ | credis_decrby _ _ => true
  | _ => false
  end.

Definition is_transfer (e : event) : bool :=
  match e with session_transfer _ _ => true | _ => false end.

Definition is_warning (e : event) : bool :=
  match e with
  | switch_log_printf SWITCH_LOG_WARNING _ => true
  | _ => false
  end.

(** ** The data an operation leaves *)

(** The data [bill] hands back. *)
Definition billed (o : oracle) (billrate : double) (billincrement : option Z)
  (d : rednibble_data_t) : rednibble_data_t :=
  if 0 <=? sub64 (micro_time_now o) (lastts d) then
    let '(billamount, d1) :=
      charge (micro_time_now o) billrate billincrement d in
    if bill_connect o && decrby_ok o then
      {| lastts := lastts d1;
         total := fadd (total d1) billamount;
         pausets := pausets d1;
         bill_adjustments := 0%Q;
         lowbal_action_executed := lowbal_action_executed d1 |}
    else d1
  else d.

(** Whether the low balance action runs and succeeds. *)
Definition lowbal_fires (g : globals_t) (o : oracle) (lowbal : double)
  (d : rednibble_data_t) : bool :=
  (lowbal_action_executed d =? 0)
  && Qle_bool (fail_open_balance (balance_connect o) (balance_reply o)) lowbal
  && match lowbal_action g, lowbal_app_status o with
     | Some _, SWITCH_STATUS_SUCCESS => true
     | _, _ => false
     end.

Definition out_of_credit (o : oracle) (nobal : double) : bool :=
  Qle_bool (fail_open_balance (balance_connect o) (balance_reply o)) nobal.

(** The data [verify_balance] leaves in the private slot. *)
Definition verified (g : globals_t) (o : oracle) (lowbal nobal : double)
  (d : rednibble_data_t) : rednibble_data_t :=
  let d1 := if lowbal_fires g o lowbal d
            then with_lowbal_action_executed d 1 else d in
  if out_of_credit o nobal && (pausets d1 =? 0)
  then with_pausets d1 (micro_time_pause o)
  else d1.

(** ** The events an operation adds, the plumbing left out *)

Definition bill_events (o : oracle) (billrate : double)
  (billincrement : option Z) (billaccount : string) (d : rednibble_data_t)
  : list event :=
  if 0 <=? sub64 (micro_time_now o) (lastts d) then
    let billamount :=
      fst (charge (micro_time_now o) billrate billincrement d) in
    call_bill_event billamount billaccount
    :: (if bill_connect o
        then [credis_decrby (rediskey_of billaccount) (dec_of billamount)]
        else [])
  else
    match billincrement with
    | None =>
      [switch_log_printf SWITCH_LOG_WARNING
         "Just tried to bill %s negative minutes! That should be impossible."]
    | Some _ => []
    end.

Definition verify_events (g : globals_t) (o : oracle) (lowbal nobal : double)
  (d : rednibble_data_t) : list event :=
  (if (lowbal_action_executed d =? 0)
      && Qle_bool (fail_open_balance (balance_connect o) (balance_reply o))
           lowbal
   then match lowbal_action g with
        | Some app => [execute_application app]
        | None => []
        end
   else [])
  ++ (if out_of_credit o nobal
      then match nobal_action g with
           | Some dst =>
             [session_transfer dst (Some (verified g o lowbal nobal d))]
           | None => []
           end
      else []).

(** The data [do_billing] works on: the private slot, or fresh data
    starting at the answer time. *)
Definition opening (ch : switch_channel_t) : rednibble_data_t :=
  match rednibble_data ch with
  | Some d => d
  | None =>
    with_lastts zeroed (match answered ch with Some a => a | None => 0 end)
  end.

Definition terminal (ch : switch_channel_t) : bool :=
  is_reporting (channel_state ch) || is_hangup (channel_state ch).

Definition nobal_of (g : globals_t) (ch : switch_channel_t) : double :=
  match var_nobal_amt ch with Some v => v | None => nobal_amt g end.

Definition lowbal_of (g : globals_t) (ch : switch_channel_t) : double :=
  match var_lowbal_amt ch with Some v => v | None => lowbal_amt g end.

(** What the operations never write: the variables they read, the answer
    time and the channel state. *)
Definition settings (ch : switch_channel_t) :=
  (rednibble_rate ch, rednibble_increment ch, rednibble_account ch,
   var_nobal_amt ch, var_lowbal_amt ch, answered ch, channel_state ch).

(** Whether [do_billing] reaches the charge: rate and account set, call
    answered, billing not paused. *)
Definition bills (ch : switch_channel_t) : bool :=
  match rednibble_rate ch, rednibble_account ch, answered ch with
  | Some _, Some _, Some ans =>
    negb (ans <? 1) && negb (pausets (opening ch) >? 0)
  | _, _, _ => false
  end.

(** The data [do_billing] leaves when it reaches the charge. *)
Definition settled (g : globals_t) (o : oracle) (ch : switch_channel_t)
  : rednibble_data_t :=
  let d := billed o
             (match rednibble_rate ch with Some r => r | None => 0%Q end)
             (rednibble_increment ch) (opening ch) in
  if terminal ch then d
  else verified g o (lowbal_of g ch) (nobal_of g ch) d.

(** ** The arithmetic of the claims *)

(** [ceil(elapsed / block)] on integers. *)
Definition ceil_blocks (elapsed block : Z) : Z := - ((- elapsed) / block).

(** C1, as the claim states it, in microseconds: one increment while the
    elapsed time does not exceed it, otherwise the smallest multiple of the
    increment that covers the elapsed time. *)
Definition charged_as_claimed (elapsed inc : Z) : Z :=
  if elapsed <=? inc * 1000000 then inc * 1000000
  else ceil_blocks elapsed (inc * 1000000) * (inc * 1000000).

(** What the module charges: the comparison is on the whole seconds of
    the elapsed time. *)
Definition charged_whole_seconds (elapsed inc : Z) : Z :=
  if elapsed / 1000000 <=? inc then inc * 1000000
  else ceil_blocks elapsed (inc * 1000000) * (inc * 1000000).

(** Clock readings are microseconds since 1970 and increments are seconds:
    the bounds keep every 64-bit operation of the module from wrapping. *)
Definition plausible_time (t : Z) : Prop := 0 <= t <= 2 ^ 61.

Definition plausible_increment (inc : Z) : Prop := 0 < inc <= 2 ^ 32.

(** ** The data a command leaves *)

(** The data of [rednibblebill_resume] on a paused session. *)
Definition resumed (o : oracle) (billrate : double) (d : rednibble_data_t)
  : rednibble_data_t :=
  {| lastts := lastts d;
     total := total d;
     pausets := 0;
     bill_adjustments :=
       fadd (bill_adjustments d)
         (fmul (rate_per_usec billrate)
            (to_double (sub64 (micro_time_now o) (pausets d))));
     lowbal_action_executed := lowbal_action_executed d |}.

(** The private slot after a command that returns. *)
Definition after (g : globals_t) (c : command) (o : oracle)
  (ch : switch_channel_t) : option rednibble_data_t :=
  match c with
  | flush => if bills ch then Some (settled g o ch) else rednibble_data ch
  | pause =>
    option_map
      (fun d => if pausets d =? 0 then with_pausets d (micro_time_now o)
                else d)
      (rednibble_data ch)
  | resume =>
    option_map
      (fun d =>
         if pausets d =? 0 then d
         else resumed o
                (match rednibble_rate ch with Some r => r | None => 0%Q end)
                d)
      (rednibble_data ch)
  | reset =>
    option_map (fun d => with_lastts d (micro_time_now o))
      (rednibble_data ch)
  | check | adjust _ => rednibble_data ch
  end.

Definition is_reset (c : command) : bool :=
  match c with reset => true | _ => false end.

Definition is_resume (c : command) : bool :=
  match c with resume => true | _ => false end.

(** Timestamps and increments that keep the 64-bit arithmetic exact. *)
Definition plausible_channel (ch : switch_channel_t) : Prop :=
  match rednibble_increment ch with
  | Some inc => plausible_increment inc
  | None => True
  end
  /\ match answered ch with
     | Some a => a <= 2 ^ 62
     | None => True
     end
  /\ match rednibble_data ch with
     | Some d => 0 <= lastts d <= 2 ^ 62
     | None => True
     end.

Definition plausible_world (w : world) : Prop :=
  match channel w with
  | Some ch => plausible_channel ch
  | None => True
  end.

Definition plausible_run (cs : list (command * oracle)) : Prop :=
  Forall (fun co => plausible_time (micro_time_now (snd co))) cs.

Definition no_reset (cs : list (command * oracle)) : bool :=
  forallb (fun co => negb (is_reset (fst co))) cs.

Definition no_resume (cs : list (command * oracle)) : bool :=
  forallb (fun co => negb (is_resume (fst co))) cs.

(** The status [bill_event] returns. *)
Definition debit_succeeds (o : oracle) : bool :=
  bill_connect o && decrby_ok o.

(** The money already charged to the session: nothing before the first
    billing. *)
Definition total_billed (w : world) : double :=
  match get_private w with
  | Some d => total d
  | None => 0%Q
  end.

Definition nonnegative_rate (w : world) : Prop :=
  match channel w with
  | Some ch =>
    match rednibble_rate ch with
    | Some rate => (0 <= rate)%Q
    | None => True
    end
  | None => True
  end.

(** The total kept in the billing data is a double, as every value the
    code stores there is. *)
Definition total_is_double (w : world) : Prop :=
  match get_private w with
  | Some d => Binary64.representable (total d)
  | None => True
  end.

(** The charge for the time alone, before the pending adjustment is
    taken off: the first operand of the subtraction in [charge]. *)
Definition time_charge (ts : Z) (billrate : double)
  (billincrement : option Z) (d : rednibble_data_t) : double :=
  match billincrement with
  | Some inc =>
    fmul (rate_per_usec billrate) (to_double (chargedunits ts (lastts d) inc))
  | None => fmul (rate_per_usec billrate) (to_double (sub64 ts (lastts d)))
  end.

(** No pause credit waits to be subtracted from the next charge. *)
Definition no_credit (w : world) : Prop :=
  match get_private w with
  | Some d => (bill_adjustments d == 0)%Q
  | None => True
  end.

Definition is_pause (c : command) : bool :=
  match c with pause => true | _ => false end.


(** A session with a channel and no billing data yet. *)
Definition uninitialized (w : world) : bool :=
  match channel w with
  | Some ch =>
    match rednibble_data ch with
    | Some _ => false
    | None => true
    end
  | None => false
  end.

(** ** More readings of the trace *)

Definition is_exec (e : event) : bool :=
  match e with execute_application _ => true | _ => false end.

(** A command that only logs and moves the mutex: pause, resume, check and
    reset. *)
Definition is_quiet (c : command) : bool :=
  match c with
  | pause | resume | check | reset => true
  | adjust _ | flush => false
  end.

Definition lowbal_done (w : world) : Prop :=
  match get_private w with
  | Some d => lowbal_action_executed d <> 0
  | None => False
  end.

(** Whether [do_billing] takes the path of a call that is not answered
    yet: rate and account set, answer time below 1. *)
Definition unanswered (ch : switch_channel_t) : bool :=
  match rednibble_rate ch, rednibble_account ch, answered ch with
  | Some _, Some _, Some ans => ans <? 1
  | _, _, _ => false
  end.

(** The reroute of a call out of credit, as [transfer_call] records it
    when the channel holds [seen]. *)
Definition reroute (g : globals_t) (o : oracle) (nobal : double)
  (seen : option rednibble_data_t) : list event :=
  if out_of_credit o nobal then
    match nobal_action g with
    | Some dst => [session_transfer dst seen]
    | None => []
    end
  else [].

(** The channel [bill] leaves: the total is published when the debit went
    through. *)
Definition published (o : oracle) (ch : switch_channel_t)
  : switch_channel_t :=
  if (0 <=? sub64 (micro_time_now o) (lastts (opening ch)))
     && debit_succeeds o
  then
    with_total_billed ch
      (printf_f
         (total
            (billed o
               (match rednibble_rate ch with Some r => r | None => 0%Q end)
               (rednibble_increment ch) (opening ch))))
  else ch.

(** The variable [rednibble_total_billed], when it is set, holds the text
    [%f] gives for the total of the billing data. *)
Definition total_in_sync (w : world) : Prop :=
  match channel w with
  | Some ch =>
    match rednibble_total_billed ch with
    | Some v => exists d, rednibble_data ch = Some d /\ v = printf_f (total d)
    | None => True
    end
  | None => True
  end.

Definition is_flush (c : command) : bool :=
  match c with flush => true | _ => false end.

(** Connections to the store: one more for each successful
    [credis_connect], one less for each [credis_close]. *)
Definition connection_delta (e : event) : Z :=
  match e with
  | credis_connect true => 1
  | credis_close => -1
  | _ => 0
  end.

Definition open_connections (w : world) : Z :=
  fold_right (fun e n => connection_delta e + n) 0 (trace w).

(** ** Text: the comparisons of the configuration and of the commands *)

Definition tolower (c : ascii) : ascii :=
  let n := nat_of_ascii c in
  if (65 <=? n)%nat && (n <=? 90)%nat then ascii_of_nat (n + 32) else c.

Fixpoint lower (s : string) : string :=
  match s with
  | EmptyString => EmptyString
  | String c s => String (tolower c) (lower s)
  end.

(** [!strcasecmp(a, b)] *)
Definition strcaseeq (a b : string) : bool := String.eqb (lower a) (lower b).

(** [zstr(s)]: a null pointer or an empty string. *)
Definition zstr (s : option string) : bool :=
  match s with
  | None | Some EmptyString => true
  | Some (String _ _) => false
  end.

(** ** The configuration *)

(** The part of [globals] the settings of the store take. *)
Record redis_settings : Type := {
  redis_host : option string;
  redis_port : Z;
  redis_timeout : Z
}.

(** A [param] element of the settings, with its [name] and [value]
    attributes ([switch_xml_attr_soft] gives the empty string for a
    missing attribute). *)
Record param : Type := {
  param_name : string;
  param_value : string
}.

Definition with_percall_action (g : globals_t) (v : option string)
  : globals_t :=
  {| mutex := mutex g; percall_max_amt := percall_max_amt g;
     percall_action := v;
     lowbal_amt := lowbal_amt g; lowbal_action := lowbal_action g;
     nobal_amt := nobal_amt g; nobal_action := nobal_action g;
     global_heartbeat := global_heartbeat g |}.

Definition with_percall_max_amt (g : globals_t) (v : double) : globals_t :=
  {| mutex := mutex g; percall_max_amt := v;
     percall_action := percall_action g;
     lowbal_amt := lowbal_amt g; lowbal_action := lowbal_action g;
     nobal_amt := nobal_amt g; nobal_action := nobal_action g;
     global_heartbeat := global_heartbeat g |}.

Definition with_lowbal_action (g : globals_t) (v : option string)
  : globals_t :=
  {| mutex := mutex g; percall_max_amt := percall_max_amt g;
     percall_action := percall_action g;
     lowbal_amt := lowbal_amt g; lowbal_action := v;
     nobal_amt := nobal_amt g; nobal_action := nobal_action g;
     global_heartbeat := global_heartbeat g |}.

Definition with_lowbal_amt (g : globals_t) (v : double) : globals_t :=
  {| mutex := mutex g; percall_max_amt := percall_max_amt g;
     percall_action := percall_action g;
     lowbal_amt := v; lowbal_action := lowbal_action g;
     nobal_amt := nobal_amt g; nobal_action := nobal_action g;
     global_heartbeat := global_heartbeat g |}.

Definition with_nobal_action (g : globals_t) (v : option string)
  : globals_t :=
  {| mutex := mutex g; percall_max_amt := percall_max_amt g;
     percall_action := percall_action g;
     lowbal_amt := lowbal_amt g; lowbal_action := lowbal_action g;
     nobal_amt := nobal_amt g; nobal_action := v;
     global_heartbeat := global_heartbeat g |}.

Definition with_nobal_amt (g : globals_t) (v : double) : globals_t :=
  {| mutex := mutex g; percall_max_amt := percall_max_amt g;
     percall_action := percall_action g;
     lowbal_amt := lowbal_amt g; lowbal_action := lowbal_action g;
     nobal_amt := v; nobal_action := nobal_action g;
     global_heartbeat := global_heartbeat g |}.

Definition with_global_heartbeat (g : globals_t) (v : Z) : globals_t :=
  {| mutex := mutex g; percall_max_amt := percall_max_amt g;
     percall_action := percall_action g;
     lowbal_amt := lowbal_amt g; lowbal_action := lowbal_action g;
     nobal_amt := nobal_amt g; nobal_action := nobal_action g;
     global_heartbeat := v |}.

Definition with_mutex (g : globals_t) (v : bool) : globals_t :=
  {| mutex := v; percall_max_amt := percall_max_amt g;
     percall_action := percall_action g;
     lowbal_amt := lowbal_amt g; lowbal_action := lowbal_action g;
     nobal_amt := nobal_amt g; nobal_action := nobal_action g;
     global_heartbeat := global_heartbeat g |}.

(** The configuration file as [switch_xml_open_cfg] and [switch_xml_child]
    give it: not opened, opened without a [settings] element, or opened
    with the [param] children of [settings]. *)
Inductive config_file : Type :=
| cfg_unopened
| cfg_no_settings
| cfg_settings (params : list param).

Section Parsing.

(** The conversions of the C library, taken as they are. *)
Variable atoi : string -> Z.
Variable atof : string -> double.

(** One turn of the loop of [load_config]. *)
Definition load_param (gs : globals_t * redis_settings) (p : param)
  : globals_t * redis_settings :=
  let '(g, r) := gs in
  let var := param_name p in
  let val := param_value p in
  if strcaseeq var "redis_host" then
    (g, {| redis_host := Some val; redis_port := redis_port r;
           redis_timeout := redis_timeout r |})
  else if strcaseeq var "redis_port" then
    (g, {| redis_host := redis_host r; redis_port := atoi val;
           redis_timeout := redis_timeout r |})
  else if strcaseeq var "redis_timeout" then
    (g, {| redis_host := redis_host r; redis_port := redis_port r;
           redis_timeout := atoi val |})
  else if strcaseeq var "percall_action" then
    (with_percall_action g (Some val), r)
  else if strcaseeq var "percall_max_amt" then
    (with_percall_max_amt g (atof val), r)
  else if strcaseeq var "lowbal_action" then
    (with_lowbal_action g (Some val), r)
  else if strcaseeq var "lowbal_amt" then
    (with_lowbal_amt g (atof val), r)
  else if strcaseeq var "nobal_action" then
    (with_nobal_action g (Some val), r)
  else if strcaseeq var "nobal_amt" then
    (with_nobal_amt g (atof val), r)
  else if strcaseeq var "global_heartbeat" then
    (with_global_heartbeat g (atoi val), r)
  else gs.

(** The three defaults that close [load_config]. *)
Definition default_actions (g : globals_t) : globals_t :=
  let g := if zstr (percall_action g)
           then with_percall_action g (Some "hangup"%string) else g in
  let g := if zstr (lowbal_action g)
           then with_lowbal_action g (Some "play ding"%string) else g in
  if zstr (nobal_action g)
  then with_nobal_action g (Some "hangup"%string) else g.

(** [load_config]: the status, the lines logged and the globals. *)
Definition load_config (cfg : config_file)
  (gs : globals_t * redis_settings)
  : switch_status_t * list event * (globals_t * redis_settings) :=
  let logged :=
    match cfg with
    | cfg_unopened =>
      [switch_log_printf SWITCH_LOG_ERROR "open of %s failed"]
    | _ => []
    end in
  let gs :=
    match cfg with
    | cfg_settings params => fold_left load_param params gs
    | _ => gs
    end in
  (SWITCH_STATUS_SUCCESS, logged, (default_actions (fst gs), snd gs)).

End Parsing.

(** ** Loading and unloading the module *)

(** The statuses of the load and shutdown functions: those of
    [switch_status_t] the rest of the module uses, and two more
    enumerators of the same host type. *)
Inductive module_status : Type :=
| returned (s : switch_status_t)
| SWITCH_STATUS_GENERR
| SWITCH_STATUS_UNLOAD.

(** The module as the host holds it: the globals, what is registered with
    the host, and the trace of the store and of the log. *)
Record module_t : Type := {
  globals : globals_t;
  redis : redis_settings;
  api_added : bool;              (* [SWITCH_ADD_API] *)
  app_added : bool;              (* [SWITCH_ADD_APP] *)
  state_handler_added : bool;    (* [switch_core_add_state_handler] *)
  heartbeat_bound : bool;        (* [globals.node] bound to heartbeats *)
  journal : world                (* only its trace is used *)
}.

(** [memset(&globals, 0, sizeof(globals))] *)
Definition zeroed_globals : globals_t * redis_settings :=
  ({| mutex := false; percall_max_amt := 0%Q; percall_action := None;
      lowbal_amt := 0%Q; lowbal_action := None;
      nobal_amt := 0%Q; nobal_action := None; global_heartbeat := 0 |},
   {| redis_host := None; redis_port := 0; redis_timeout := 0 |}).

Definition nothing_logged : world :=
  {| channel := None; lock_depth := 0%nat; trace := [] |}.

Section Loading.

Variable atoi : string -> Z.
Variable atof : string -> double.

(** [mod_rednibblebill_load]; [bound] is the result of
    [switch_event_bind_removable], [connected] that of the connection to
    the store. *)
Definition mod_rednibblebill_load (cfg : config_file)
  (bound connected : bool) : module_status * module_t :=
  let '(g, r) := zeroed_globals in
  let g := with_mutex g true in
  let '(_, logged, (g, r)) := load_config atoi atof cfg (g, r) in
  let j := fold_left (fun w e => emit e w) logged nothing_logged in
  if negb bound then
    (SWITCH_STATUS_GENERR,
     {| globals := g; redis := r;
        api_added := true; app_added := true; state_handler_added := true;
        heartbeat_bound := false;
        journal :=
          log SWITCH_LOG_ERROR
            "Couldn't bind event to monitor for session heartbeats!" j |})
  else
    let '(status, j) := redis_factory connected j in
    (returned status,
     {| globals := g; redis := r;
        api_added := true; app_added := true; state_handler_added := true;
        heartbeat_bound := true;
        journal := j |}).

End Loading.

(** [mod_rednibblebill_shutdown] *)
Definition mod_rednibblebill_shutdown (m : module_t)
  : module_status * module_t :=
  (SWITCH_STATUS_UNLOAD,
   {| globals :=
        with_nobal_action
          (with_lowbal_action (with_percall_action (globals m) None) None)
          None;
      redis := {| redis_host := None; redis_port := redis_port (redis m);
                  redis_timeout := redis_timeout (redis m) |};
      api_added := api_added m; app_added := app_added m;
      state_handler_added := false;
      heartbeat_bound := false;
      journal := journal m |}).

(** ** Sessions as the hooks and the command surface see them *)

(** A session: the billing side modelled so far, the interval of the
    heartbeat the module last asked the host for, and the variable
    [rednibble_current_balance]. *)
Record session_t : Type := {
  billing : world;
  heartbeat_seconds : option Z;
  rednibble_current_balance : option string   (* the text of [%f] *)
}.

Definition with_billing (s : session_t) (w : world) : session_t :=
  {| billing := w; heartbeat_seconds := heartbeat_seconds s;
     rednibble_current_balance := rednibble_current_balance s |}.

(** [switch_core_session_enable_heartbeat(session, seconds)], whose
    parameter is a [uint32_t]. *)
Definition enable_heartbeat (seconds : Z) (s : session_t) : session_t :=
  {| billing := billing s;
     heartbeat_seconds := Some (seconds mod 2 ^ 32);
     rednibble_current_balance := rednibble_current_balance s |}.

(** What a command line asks for. *)
Inductive directive : Type :=
| engine (c : command)
| heartbeat (seconds : Z).

Definition perform (g : globals_t) (o : oracle) (d : directive)
  (s : session_t) : option session_t :=
  match d with
  | engine c =>
    option_map (with_billing s)
      (rednibblebill_app_function g c o (billing s))
  | heartbeat seconds => Some (enable_heartbeat seconds s)
  end.

Definition API_SYNTAX : string :=
  "<uuid> [pause | resume | reset | adjust <amount> | heartbeat <seconds> | check]".

Section Surface.

Variable atoi : string -> Z.
Variable atof : string -> double.

(** The chain of comparisons of the dialplan application, on the words
    [switch_separate_string] cut out of its data (three at most). *)
Definition app_directive (argv : list string) : option directive :=
  let argc := Z.of_nat (List.length argv) in
  match argv with
  | [] => None
  | word :: _ =>
    if strcaseeq word "adjust" && (argc =? 2) then
      Some (engine (adjust (atof (nth 1 argv EmptyString))))
    else if strcaseeq word "flush" then Some (engine flush)
    else if strcaseeq word "pause" then Some (engine pause)
    else if strcaseeq word "resume" then Some (engine resume)
    else if strcaseeq word "check" then Some (engine check)
    else if strcaseeq word "reset" then Some (engine reset)
    else if strcaseeq word "heartbeat" && (argc =? 2) then
      Some (heartbeat (atoi (nth 1 argv EmptyString)))
    else None
  end.

(** The application [rednibblebill]: empty data, no word, an unknown word
    or a wrong count leave the session as it is. *)
Definition rednibblebill_app (g : globals_t) (o : oracle)
  (argv : list string) (s : session_t) : option session_t :=
  match app_directive argv with
  | Some d => perform g o d s
  | None => Some s
  end.

(** The chain of comparisons of the API command, on the words after the
    uuid. *)
Definition api_directive (argv : list string) : option directive :=
  let argc := Z.of_nat (List.length argv) in
  let word := nth 1 argv EmptyString in
  if strcaseeq word "adjust" && (argc =? 3) then
    Some (engine (adjust (atof (nth 2 argv EmptyString))))
  else if strcaseeq word "flush" then Some (engine flush)
  else if strcaseeq word "pause" then Some (engine pause)
  else if strcaseeq word "resume" then Some (engine resume)
  else if strcaseeq word "check" then Some (engine check)
  else if strcaseeq word "reset" then Some (engine reset)
  else if strcaseeq word "heartbeat" && (argc =? 3) then
    Some (heartbeat (atoi (nth 2 argv EmptyString)))
  else None.

(** The API command [rednibblebill]: what it writes to its stream and the
    session it acted on, if any.  [cmd] is [None] for an empty command
    line; [locate] is [switch_core_session_locate].  The outer [None]
    stands for the crash of a resume without a rate. *)
Definition rednibblebill_api_function (g : globals_t) (o : oracle)
  (locate : string -> option session_t) (cmd : option (list string))
  : option (list string * option session_t) :=
  match cmd with
  | None => Some ([], None)
  | Some argv =>
    let argc := Z.of_nat (List.length argv) in
    if ((argc =? 2) || (argc =? 3))
       && negb (zstr (Some (nth 0 argv EmptyString)))
    then
      let uuid := nth 0 argv EmptyString in
      match locate uuid with
      | Some psession =>
        match api_directive argv with
        | Some d =>
          option_map (fun s => ([], Some s)) (perform g o d psession)
        | None => Some ([], Some psession)
        end
      | None => Some (["-ERR No Such Channel!"%string], None)
      end
    else Some ([String.append "-USAGE: " API_SYNTAX], None)
  end.

End Surface.

(** ** The hooks *)

(** [process_hangup]: the billing, then the balance published in
    [rednibble_current_balance] when an account is set; [o] answers the
    billing and [o'] the read of the balance that follows.  [None]: the
    channel is null, which [switch_channel_get_variable] does not
    accept. *)
Definition process_hangup (g : globals_t) (o o' : oracle) (s : session_t)
  : option session_t :=
  let w := do_billing g o (billing s) in
  match channel w with
  | None => None
  | Some ch =>
    match rednibble_account ch with
    | Some billaccount =>
      let '(balance, w) := get_balance o' billaccount w in
      Some {| billing := w;
              heartbeat_seconds := heartbeat_seconds s;
              rednibble_current_balance := Some (printf_f balance) |}
    | None => Some (with_billing s w)
    end
  end.

Definition sched_billing (g : globals_t) (s : session_t) : session_t :=
  match channel (billing s) with
  | None => s
  | Some ch =>
    match rednibble_rate ch, rednibble_account ch with
    | Some _, Some _ =>
      if global_heartbeat g >? 0
      then enable_heartbeat (global_heartbeat g) s
      else s
    | _, _ => s
    end
  end.

Definition process_and_sched (g : globals_t) (o o' : oracle)
  (s : session_t) : option session_t :=
  option_map (sched_billing g) (process_hangup g o o' s).

(** The slots of [switch_state_handler_table_t]. *)
Inductive state_handler_slot : Type :=
| on_init | on_routing | on_execute | on_hangup | on_exchange_media
| on_soft_execute | on_consume_media | on_hibernate | on_reset | on_park
| on_reporting | on_destroy.

(** [rednibble_state_handler]: what the host runs in each slot; an empty
    slot leaves the session alone. *)
Definition rednibble_state_handler (slot : state_handler_slot)
  (g : globals_t) (o o' : oracle) (s : session_t) : option session_t :=
  match slot with
  | on_routing | on_hangup => process_hangup g o o' s
  | on_execute => Some (sched_billing g s)
  | on_exchange_media | on_consume_media => process_and_sched g o o' s
  | on_init | on_soft_execute | on_hibernate | on_reset | on_park
  | on_reporting | on_destroy => Some s
  end.

(** A heartbeat event: its [Unique-ID] header, whether it carries the
    header [rednibble_debug], and all its headers. *)
Record switch_event_t : Type := {
  event_unique_id : option string;
  event_debug : bool;
  event_headers : list (string * string)
}.

(** [debug_event_handler]: one line per header. *)
Definition debug_event_handler (received : option switch_event_t)
  : list event :=
  match received with
  | None => []
  | Some ev =>
    map (fun _ => switch_log_printf SWITCH_LOG_INFO "Header info: %s => %s")
      (event_headers ev)
  end.

(** [event_handler]: the lines it logs and the session it billed, if
    any. *)
Definition event_handler (g : globals_t) (o : oracle)
  (locate : string -> option session_t) (received : option switch_event_t)
  : list event * option session_t :=
  match received with
  | None => ([], None)
  | Some ev =>
    match event_unique_id ev with
    | None => ([], None)
    | Some uuid =>
      let logged :=
        switch_log_printf SWITCH_LOG_DEBUG "Received request via %s!"
        :: (if event_debug ev then debug_event_handler received else []) in
      match locate uuid with
      | None => (logged, None)
      | Some session =>
        (logged, Some (with_billing session
                         (do_billing g o (billing session))))
      end
    end
  end.

(** A run of billings, one for each answer of the outside. *)
Definition billings (os : list oracle) : list (command * oracle) :=
  map (fun o => (flush, o)) os.

(** * Binary64 rounding *)

Import Binary64.

Section Rounding.

Local Open Scope Q_scope.

Lemma pow2_pos (k : Z) : 0 < 2 ^ k.
Proof. now apply Qpower_0_lt. Qed.

Lemma pow2_add (a b : Z) : 2 ^ (a + b) == 2 ^ a * 2 ^ b.
Proof. now apply Qpower_plus. Qed.

Lemma pow2_sub (a b : Z) : 2 ^ (a - b) == 2 ^ a / 2 ^ b.
Proof. now apply Qpower_minus. Qed.

Lemma pow2_le (a b : Z) : (a <= b)%Z -> 2 ^ a <= 2 ^ b.
Proof. intros H. now apply Qpower_le_compat_l. Qed.

Lemma pow2_lt (a b : Z) : (a < b)%Z -> 2 ^ a < 2 ^ b.
Proof. intros H. now apply Qpower_lt_compat_l. Qed.

Lemma pow2_lt_inv (a b : Z) : 2 ^ a < 2 ^ b -> (a < b)%Z.
Proof. intros H. now apply Qpower_lt_compat_l_inv with 2. Qed.

Lemma pow2_Z (k : Z) : (0 <= k)%Z -> inject_Z (2 ^ k) == 2 ^ k.
Proof. intros H. now rewrite Zpower_Qpower. Qed.

Lemma pow2_succ (a : Z) : 2 ^ (a + 1) == 2 * 2 ^ a.
Proof. rewrite pow2_add. change (2 ^ 1) with 2. ring. Qed.

(** [ilog2] *)

Lemma Z_log2_Q (n : Z) :
  (0 < n)%Z -> 2 ^ Z.log2 n <= inject_Z n < 2 * 2 ^ Z.log2 n.
Proof.
  intros H. destruct (Z.log2_spec n H) as [L U].
  pose proof (Z.log2_nonneg n) as P.
  rewrite <- pow2_succ, <- !pow2_Z by lia.
  rewrite <- Zle_Qle, <- Zlt_Qlt. split; [exact L|].
  now rewrite <- Z.add_1_r in U.
Qed.

Lemma ilog2_spec (x : Q) : 0 < x -> 2 ^ ilog2 x <= x < 2 ^ (ilog2 x + 1).
Proof.
  intros Hx. destruct x as [n d].
  assert (Hn : (0 < n)%Z) by (unfold Qlt in Hx; simpl in Hx; lia).
  pose proof (Z_log2_Q n Hn) as [Ln Un].
  pose proof (Z_log2_Q (Zpos d) eq_refl) as [Ld Ud].
  assert (E : n # d == inject_Z n / inject_Z (Zpos d)) by apply Qmake_Qdiv.
  assert (Dp : 0 < inject_Z (Zpos d)) by reflexivity.
  unfold ilog2. cbn [Qnum Qden].
  set (ln := Z.log2 n) in *. set (ld := Z.log2 (Zpos d)) in *.
  pose proof (pow2_pos ln) as Pn. pose proof (pow2_pos ld) as Pd.
  assert (Up : n # d < 2 ^ (ln - ld + 1)).
  { rewrite pow2_succ, pow2_sub, E.
    apply Qlt_shift_div_r; [exact Dp|].
    setoid_replace (2 * (2 ^ ln / 2 ^ ld) * inject_Z (Zpos d))
      with (2 * 2 ^ ln * (inject_Z (Zpos d) / 2 ^ ld))
      by (field; lra).
    assert (1 <= inject_Z (Zpos d) / 2 ^ ld)
      by (apply Qle_shift_div_l; lra).
    nra. }
  assert (Lo : 2 ^ (ln - ld - 1) < n # d).
  { replace (ln - ld - 1)%Z with (ln - (ld + 1))%Z by ring.
    rewrite pow2_sub, pow2_succ, E.
    apply Qlt_shift_div_l; [exact Dp|].
    setoid_replace (2 ^ ln / (2 * 2 ^ ld) * inject_Z (Zpos d))
      with (2 ^ ln * (inject_Z (Zpos d) / (2 * 2 ^ ld)))
      by (field; lra).
    assert (inject_Z (Zpos d) / (2 * 2 ^ ld) < 1)
      by (apply Qlt_shift_div_r; lra).
    nra. }
  destruct (Qle_bool (2 ^ (ln - ld)) (n # d)) eqn:B.
  - apply Qle_bool_iff in B. split; assumption.
  - assert (n # d < 2 ^ (ln - ld)).
    { apply Qnot_le_lt. intros H. apply Qle_bool_iff in H. congruence. }
    replace (ln - ld - 1 + 1)%Z with (ln - ld)%Z by ring.
    split; [now apply Qlt_le_weak|assumption].
Qed.

Lemma ilog2_unique (x : Q) (a : Z) :
  2 ^ a <= x < 2 ^ (a + 1) -> ilog2 x = a.
Proof.
  intros [L U].
  assert (Hx : 0 < x) by (pose proof (pow2_pos a); lra).
  destruct (ilog2_spec x Hx) as [L' U'].
  assert ((a < ilog2 x + 1)%Z) by (apply pow2_lt_inv; lra).
  assert ((ilog2 x < a + 1)%Z) by (apply pow2_lt_inv; lra).
  lia.
Qed.

Lemma ilog2_le (x y : Q) : 0 < x -> x <= y -> (ilog2 x <= ilog2 y)%Z.
Proof.
  intros Hx Hxy.
  destruct (ilog2_spec x Hx) as [L _].
  destruct (ilog2_spec y ltac:(lra)) as [_ U].
  assert ((ilog2 x < ilog2 y + 1)%Z) by (apply pow2_lt_inv; lra).
  lia.
Qed.

Lemma ilog2_eq (x y : Q) : 0 < x -> x == y -> ilog2 x = ilog2 y.
Proof.
  intros Hx E. apply ilog2_unique. rewrite E. apply ilog2_spec.
  now rewrite <- E.
Qed.

(** [rne] *)

Lemma rne_cases (x : Q) :
  let f := Qfloor x in
  inject_Z f <= x < inject_Z f + 1
  /\ ((x - inject_Z f < 1 # 2 /\ rne x = f)
      \/ (1 # 2 < x - inject_Z f /\ rne x = (f + 1)%Z)
      \/ (x - inject_Z f == 1 # 2
          /\ rne x = if Z.even f then f else (f + 1)%Z)).
Proof.
  intros f. pose proof (Qfloor_le x) as L. pose proof (Qlt_floor x) as U.
  fold f in L, U. rewrite inject_Z_plus in U. change (inject_Z 1) with 1 in U.
  split; [split; assumption|].
  unfold rne. fold f.
  destruct (Qcompare_spec (x - inject_Z f) (1 # 2)) as [E|E|E]; auto.
Qed.

Lemma rne_near (x : Q) :
  inject_Z (rne x) - (1 # 2) <= x <= inject_Z (rne x) + (1 # 2).
Proof.
  destruct (rne_cases x) as ([L U] & [[H ->]|[[H ->]|[H R]]]).
  - lra.
  - rewrite inject_Z_plus. change (inject_Z 1) with 1. lra.
  - rewrite R. destruct (Z.even (Qfloor x)).
    + lra.
    + rewrite inject_Z_plus. change (inject_Z 1) with 1. lra.
Qed.

Lemma rne_Z (n : Z) : rne (inject_Z n) = n.
Proof.
  unfold rne. rewrite Qfloor_Z.
  replace (inject_Z n - inject_Z n ?= 1 # 2) with Lt; [reflexivity|].
  symmetry. apply (proj1 (Qlt_alt _ _)). lra.
Qed.

#[export] Instance rne_comp : Proper (Qeq ==> eq) rne.
Proof.
  intros x y E. unfold rne. rewrite (Qfloor_comp x y E).
  now rewrite E.
Qed.

Lemma Zlt_Q (a b : Z) : inject_Z a < inject_Z b + 1 -> (a <= b)%Z.
Proof.
  intros H. change 1 with (inject_Z 1) in H.
  rewrite <- inject_Z_plus, <- Zlt_Qlt in H. lia.
Qed.

Lemma rne_le (x y : Q) : x <= y -> (rne x <= rne y)%Z.
Proof.
  intros Hxy.
  pose proof (Qfloor_resp_le x y Hxy) as Hf.
  destruct (rne_cases x) as ([Lx Ux] & Cx).
  destruct (rne_cases y) as ([Ly Uy] & Cy).
  destruct (Z.eq_dec (Qfloor x) (Qfloor y)) as [E|N].
  - rewrite <- E in *.
    destruct Cx as [[Hx ->]|[[Hx ->]|[Hx ->]]];
      destruct Cy as [[Hy ->]|[[Hy ->]|[Hy ->]]];
      try lia; try lra; destruct (Z.even (Qfloor x)); try lia; lra.
  - assert (Hlt : (Qfloor x + 1 <= Qfloor y)%Z) by lia.
    assert (Hx : (rne x <= Qfloor x + 1)%Z)
      by (destruct Cx as [[_ ->]|[[_ ->]|[_ ->]]];
          try destruct (Z.even (Qfloor x)); lia).
    assert (Hy : (Qfloor y <= rne y)%Z)
      by (destruct Cy as [[_ ->]|[[_ ->]|[_ ->]]];
          try destruct (Z.even (Qfloor y)); lia).
    lia.
Qed.

Lemma Qfloor_unique (x : Q) (n : Z) :
  inject_Z n <= x < inject_Z n + 1 -> Qfloor x = n.
Proof.
  intros [L U]. pose proof (Qfloor_le x) as L'. pose proof (Qlt_floor x) as U'.
  rewrite inject_Z_plus in U'. change (inject_Z 1) with 1 in U'.
  assert ((n <= Qfloor x)%Z) by (apply Zlt_Q; lra).
  assert ((Qfloor x <= n)%Z) by (apply Zlt_Q; lra).
  lia.
Qed.

Lemma rne_opp (x : Q) : rne (- x) = (- rne x)%Z.
Proof.
  destruct (rne_cases x) as ([L U] & C).
  set (f := Qfloor x) in *.
  destruct (Qeq_dec x (inject_Z f)) as [E|N].
  - rewrite E, <- inject_Z_opp, !rne_Z. reflexivity.
  - assert (H : inject_Z f < x).
    { destruct (Q_dec x (inject_Z f)) as [[?|?]|?];
        [lra | assumption | contradiction]. }
    assert (G : Qfloor (- x) = (- (f + 1))%Z).
    { apply Qfloor_unique. rewrite inject_Z_opp, inject_Z_plus.
      change (inject_Z 1) with 1. lra. }
    destruct (rne_cases (- x)) as (_ & C'). rewrite G in C'.
    rewrite inject_Z_opp, inject_Z_plus in C'.
    change (inject_Z 1) with 1 in C'.
    replace (Z.even (- (f + 1))) with (negb (Z.even f)) in C'
      by (rewrite Z.even_opp, Z.even_add; now destruct (Z.even f)).
    destruct C as [[H1 ->]|[[H1 ->]|[H1 ->]]];
      destruct C' as [[H' ->]|[[H' ->]|[H' ->]]];
      try lia; try lra; destruct (Z.even f); cbn [negb]; try lia; lra.
Qed.

(** [round] *)

Lemma round_0 : round 0 = 0.
Proof. reflexivity. Qed.

Lemma round_eq (x : Q) :
  ~ x == 0 ->
  round x == inject_Z (rne (x / 2 ^ ulp_exponent x)) * 2 ^ ulp_exponent x.
Proof.
  intros N. unfold round.
  destruct (Qeq_bool x 0) eqn:B; [apply Qeq_bool_iff in B; contradiction|].
  apply Qred_correct.
Qed.

Lemma round_zero (x : Q) : x == 0 -> round x = 0.
Proof.
  intros E. unfold round. apply Qeq_bool_iff in E. now rewrite E.
Qed.

Lemma Qabs_pos_lt (x : Q) : ~ x == 0 -> 0 < Qabs x.
Proof.
  intros N. apply Qabs_case; intros H.
  - destruct (Qle_lt_or_eq _ _ H) as [?|E]; [assumption|].
    symmetry in E. contradiction.
  - destruct (Qle_lt_or_eq _ _ H) as [?|E]; [lra|contradiction].
Qed.

Lemma ulp_exponent_eq (x y : Q) :
  ~ x == 0 -> x == y -> ulp_exponent x = ulp_exponent y.
Proof.
  intros N E. unfold ulp_exponent. f_equal. f_equal.
  apply ilog2_eq; [now apply Qabs_pos_lt|now rewrite E].
Qed.

Lemma ulp_exponent_opp (x : Q) :
  ~ x == 0 -> ulp_exponent (- x) = ulp_exponent x.
Proof.
  intros N. unfold ulp_exponent. f_equal. f_equal.
  apply ilog2_eq; [|apply Qabs_opp].
  apply Qabs_pos_lt. intros H. apply N. lra.
Qed.

#[export] Instance round_comp : Proper (Qeq ==> Qeq) round.
Proof.
  intros x y E. destruct (Qeq_dec x 0) as [Z|N].
  - rewrite (round_zero x Z), (round_zero y); [reflexivity|].
    now rewrite <- E.
  - rewrite (round_eq x N), (round_eq y) by now rewrite <- E.
    rewrite (ulp_exponent_eq x y N E). now rewrite E.
Qed.

Lemma round_opp (x : Q) : round (- x) == - round x.
Proof.
  destruct (Qeq_dec x 0) as [Z|N].
  - rewrite (round_zero x Z), (round_zero (- x)) by lra. reflexivity.
  - rewrite (round_eq x N), (round_eq (- x)) by (intros H; apply N; lra).
    rewrite (ulp_exponent_opp x N).
    setoid_replace (- x / 2 ^ ulp_exponent x)
      with (- (x / 2 ^ ulp_exponent x))
      by (field; pose proof (pow2_pos (ulp_exponent x)); lra).
    rewrite rne_opp, inject_Z_opp. ring.
Qed.

Lemma ulp_exponent_pos (x : Q) :
  0 < x ->
  (-1074 <= ulp_exponent x)%Z
  /\ x < 2 ^ (ulp_exponent x + 53)
  /\ ((-1074 < ulp_exponent x)%Z \/ 2 ^ (-1022) <= x ->
      2 ^ (ulp_exponent x + 52) <= x).
Proof.
  intros Hx. unfold ulp_exponent.
  rewrite (ilog2_eq (Qabs x) x) by (rewrite ?Qabs_pos; lra).
  destruct (ilog2_spec x Hx) as [L U].
  set (l := ilog2 x) in *.
  split; [lia|]. split.
  - eapply Qlt_le_trans; [exact U|]. apply pow2_le. lia.
  - intros H.
    assert (Hl : (-1074 <= l - 52)%Z).
    { destruct H as [H|H]; [lia|].
      assert ((-1022 < l + 1)%Z) by (apply pow2_lt_inv; lra). lia. }
    replace (Z.max (l - 52) (-1074) + 52)%Z with l by lia. exact L.
Qed.

Lemma round_pos (x : Q) :
  0 < x ->
  round x == inject_Z (rne (x / 2 ^ ulp_exponent x)) * 2 ^ ulp_exponent x.
Proof. intros H. apply round_eq. lra. Qed.

Lemma rne_nonneg (x : Q) : 0 <= x -> (0 <= rne x)%Z.
Proof. intros H. rewrite <- (rne_Z 0). now apply rne_le. Qed.

Lemma round_nonneg (x : Q) : 0 <= x -> 0 <= round x.
Proof.
  intros H. destruct (Qeq_dec x 0) as [Z|N].
  - rewrite (round_zero x Z). lra.
  - rewrite (round_eq x N).
    pose proof (pow2_pos (ulp_exponent x)) as P.
    apply Qmult_le_0_compat; [|lra].
    change 0 with (inject_Z 0). rewrite <- Zle_Qle. apply rne_nonneg.
    apply Qle_shift_div_l; lra.
Qed.

Lemma round_nonpos (x : Q) : x <= 0 -> round x <= 0.
Proof.
  intros H. pose proof (round_nonneg (- x) ltac:(lra)) as P.
  rewrite round_opp in P. lra.
Qed.

(** The error of one rounding, away from the subnormal range. *)
Lemma round_error_pos (x : Q) :
  2 ^ (-1022) <= x ->
  x * (1 - unit_roundoff) <= round x <= x * (1 + unit_roundoff).
Proof.
  intros Hn.
  assert (Hx : 0 < x) by (pose proof (pow2_pos (-1022)); lra).
  destruct (ulp_exponent_pos x Hx) as (_ & _ & L).
  specialize (L (or_intror Hn)).
  rewrite (round_pos x Hx).
  set (e := ulp_exponent x) in *.
  pose proof (pow2_pos e) as P.
  pose proof (rne_near (x / 2 ^ e)) as [A B].
  set (m := inject_Z (rne (x / 2 ^ e))) in *.
  assert (Hy : x / 2 ^ e * 2 ^ e == x) by (field; lra).
  assert (Hu : 2 ^ e * (1 # 2) <= x * unit_roundoff).
  { unfold unit_roundoff.
    assert (E : 2 ^ e * (1 # 2) == 2 ^ (e + 52) * 2 ^ (-53)).
    { rewrite <- pow2_add. replace (e + 52 + -53)%Z with (e + -1)%Z by ring.
      rewrite pow2_add. reflexivity. }
    rewrite E. pose proof (pow2_pos (-53)). nra. }
  split; nra.
Qed.

Lemma round_error (x : Q) :
  2 ^ (-1022) <= Qabs x ->
  Qabs (round x - x) <= Qabs x * unit_roundoff.
Proof.
  intros Hn. revert Hn. apply Qabs_case; intros Hs Hn.
  - pose proof (round_error_pos x Hn) as [A B].
    apply Qabs_Qle_condition. split; lra.
  - pose proof (round_error_pos (- x) Hn) as [A B].
    rewrite round_opp in A, B.
    apply Qabs_Qle_condition. split; lra.
Qed.

(** The numbers [round] leaves alone. *)
Lemma round_exact_pos (m k : Z) :
  (0 < m < 2 ^ 53)%Z -> (-1074 <= k)%Z ->
  round (inject_Z m * 2 ^ k) == inject_Z m * 2 ^ k.
Proof.
  intros [M0 M1] Hk.
  pose proof (pow2_pos k) as Pk.
  assert (Mq : 1 <= inject_Z m)
    by (change 1 with (inject_Z 1); rewrite <- Zle_Qle; lia).
  assert (Mu : inject_Z m < 2 ^ 53).
  { rewrite <- pow2_Z by lia. now rewrite <- Zlt_Qlt. }
  set (x := inject_Z m * 2 ^ k).
  assert (Hx : 0 < x) by (subst x; nra).
  destruct (ulp_exponent_pos x Hx) as (E0 & _ & L).
  rewrite (round_pos x Hx).
  set (e := ulp_exponent x) in *.
  assert (He : (e <= k)%Z).
  { destruct (Z.le_gt_cases e k) as [?|G]; [assumption|exfalso].
    assert (G1 : (-1074 < e)%Z) by lia.
    specialize (L (or_introl G1)).
    assert (x < 2 ^ (k + 53)) by (rewrite pow2_add; subst x; nra).
    assert ((e + 52 < k + 53)%Z) by (apply pow2_lt_inv; lra). lia. }
  assert (Hy : x / 2 ^ e == inject_Z (m * 2 ^ (k - e))).
  { rewrite inject_Z_mult, pow2_Z, pow2_sub by lia. subst x.
    field. pose proof (pow2_pos e). lra. }
  rewrite Hy, rne_Z, inject_Z_mult, pow2_Z, pow2_sub by lia.
  subst x. field. pose proof (pow2_pos e). lra.
Qed.

Lemma round_exact (m k : Z) :
  (Z.abs m <= 2 ^ 53)%Z -> (-1074 <= k)%Z ->
  round (inject_Z m * 2 ^ k) == inject_Z m * 2 ^ k.
Proof.
  intros Hm Hk.
  assert (P : forall n, (0 < n <= 2 ^ 53)%Z ->
                round (inject_Z n * 2 ^ k) == inject_Z n * 2 ^ k).
  { intros n [N0 N1]. destruct (Z.eq_dec n (2 ^ 53)) as [->|Hn].
    - rewrite pow2_Z, <- pow2_add by lia.
      rewrite <- (Qmult_1_l (2 ^ (53 + k))).
      apply (round_exact_pos 1 (53 + k)); lia.
    - apply round_exact_pos; lia. }
  destruct (Z.lt_trichotomy m 0) as [Hn|[->|Hp]].
  - setoid_replace (inject_Z m * 2 ^ k) with (- (inject_Z (- m) * 2 ^ k))
      by (rewrite inject_Z_opp; ring).
    rewrite round_opp, P by lia. reflexivity.
  - rewrite Qmult_0_l. reflexivity.
  - apply P. lia.
Qed.

Lemma round_Z (n : Z) :
  (Z.abs n <= 2 ^ 53)%Z -> round (inject_Z n) == inject_Z n.
Proof.
  intros H. rewrite <- (Qmult_1_r (inject_Z n)).
  apply (round_exact n 0); [assumption|lia].
Qed.

Lemma rne_upper (x : Q) (n : Z) : x <= inject_Z n -> (rne x <= n)%Z.
Proof. intros H. rewrite <- (rne_Z n). now apply rne_le. Qed.

Lemma rne_lower (x : Q) (n : Z) : inject_Z n <= x -> (n <= rne x)%Z.
Proof. intros H. rewrite <- (rne_Z n). now apply rne_le. Qed.

Lemma round_round_pos (x : Q) : 0 < x -> round (round x) == round x.
Proof.
  intros Hx. destruct (ulp_exponent_pos x Hx) as (E0 & U & _).
  rewrite (round_pos x Hx).
  set (e := ulp_exponent x) in *.
  pose proof (pow2_pos e) as P.
  apply round_exact; [|assumption].
  assert (0 <= rne (x / 2 ^ e))%Z
    by (apply rne_nonneg, Qle_shift_div_l; lra).
  assert (rne (x / 2 ^ e) <= 2 ^ 53)%Z.
  { apply rne_upper. rewrite pow2_Z by lia.
    apply Qle_shift_div_r; [assumption|].
    rewrite <- pow2_add. replace (53 + e)%Z with (e + 53)%Z by ring. lra. }
  lia.
Qed.

Lemma round_round (x : Q) : round (round x) == round x.
Proof.
  destruct (Q_dec x 0) as [[H|H]|H].
  - pose proof (round_round_pos (- x) ltac:(lra)) as P.
    rewrite !round_opp in P. lra.
  - now apply round_round_pos.
  - now rewrite (round_zero x H).
Qed.

Lemma round_le_pos (x y : Q) : 0 < x -> x <= y -> round x <= round y.
Proof.
  intros Hx Hxy. assert (Hy : 0 < y) by lra.
  destruct (ulp_exponent_pos x Hx) as (Ex & Ux & _).
  destruct (ulp_exponent_pos y Hy) as (Ey & _ & Ly).
  assert (Hle : (ulp_exponent x <= ulp_exponent y)%Z).
  { unfold ulp_exponent.
    rewrite (ilog2_eq (Qabs x) x), (ilog2_eq (Qabs y) y)
      by (rewrite ?Qabs_pos; lra).
    pose proof (ilog2_le x y Hx Hxy). lia. }
  rewrite (round_pos x Hx), (round_pos y Hy).
  set (ex := ulp_exponent x) in *. set (ey := ulp_exponent y) in *.
  pose proof (pow2_pos ex) as Px. pose proof (pow2_pos ey) as Py.
  destruct (Z.eq_dec ex ey) as [E|N].
  - rewrite <- E.
    assert (rne (x / 2 ^ ex) <= rne (y / 2 ^ ex))%Z.
    { apply rne_le. apply Qle_shift_div_l; [assumption|].
      setoid_replace (x / 2 ^ ex * 2 ^ ex) with x by (field; lra).
      assumption. }
    apply Qmult_le_compat_r; [|lra]. now rewrite <- Zle_Qle.
  - assert (G1 : (-1074 < ey)%Z) by lia.
    specialize (Ly (or_introl G1)).
    assert (A : inject_Z (rne (x / 2 ^ ex)) <= 2 ^ 53).
    { rewrite <- (pow2_Z 53) by lia. rewrite <- Zle_Qle.
      apply rne_upper. rewrite pow2_Z by lia.
      apply Qle_shift_div_r; [assumption|].
      rewrite <- pow2_add. replace (53 + ex)%Z with (ex + 53)%Z by ring.
      lra. }
    assert (B : 2 ^ 52 <= inject_Z (rne (y / 2 ^ ey))).
    { rewrite <- (pow2_Z 52) by lia. rewrite <- Zle_Qle.
      apply rne_lower. rewrite pow2_Z by lia.
      apply Qle_shift_div_l; [assumption|].
      rewrite <- pow2_add. replace (52 + ey)%Z with (ey + 52)%Z by ring.
      lra. }
    assert (C : 2 ^ 53 * 2 ^ ex <= 2 ^ 52 * 2 ^ ey).
    { rewrite <- !pow2_add. apply pow2_le. lia. }
    apply Qle_trans with (2 ^ 53 * 2 ^ ex);
      [apply Qmult_le_compat_r; lra|].
    apply Qle_trans with (2 ^ 52 * 2 ^ ey);
      [assumption|apply Qmult_le_compat_r; lra].
Qed.

Lemma round_le (x y : Q) : x <= y -> round x <= round y.
Proof.
  intros H.
  destruct (Qlt_le_dec 0 x) as [Hx|Hx]; [now apply round_le_pos|].
  destruct (Qlt_le_dec y 0) as [Hy|Hy].
  - pose proof (round_le_pos (- y) (- x) ltac:(lra) ltac:(lra)) as P.
    rewrite !round_opp in P. lra.
  - pose proof (round_nonpos x Hx). pose proof (round_nonneg y Hy). lra.
Qed.

End Rounding.

(** * The arithmetic of the module *)

Lemma trunc_inject_Z (z : Z) : trunc (inject_Z z) = z.
Proof. unfold trunc. simpl. apply Z.quot_1_r. Qed.

Lemma int_of_double_ceil (x : double) :
  INT_MIN <= Qceiling x <= INT_MAX ->
  int_of_double (ceil x) = Qceiling x.
Proof.
  intros [Hlo Hhi]. unfold int_of_double, ceil. rewrite trunc_inject_Z.
  apply Z.leb_le in Hlo. apply Z.leb_le in Hhi. now rewrite Hlo, Hhi.
Qed.

Lemma wrap64_small (z : Z) : - 2 ^ 63 <= z < 2 ^ 63 -> wrap64 z = z.
Proof. intros H. unfold wrap64. rewrite Z.mod_small; lia. Qed.

Lemma to_double_exact (z : Z) :
  Z.abs z <= 2 ^ 53 -> (to_double z == inject_Z z)%Q.
Proof. apply round_Z. Qed.

Lemma inject_Z_nonneg z : 0 <= z -> (0 <= inject_Z z)%Q.
Proof. intros H. change 0%Q with (inject_Z 0). now rewrite <- Zle_Qle. Qed.

Lemma inject_Z_pos z : 0 < z -> (1 <= inject_Z z)%Q.
Proof. intros H. change 1%Q with (inject_Z 1). rewrite <- Zle_Qle. lia. Qed.

Lemma to_double_nonneg (z : Z) : 0 <= z -> (0 <= to_double z)%Q.
Proof. intros H. apply round_nonneg. now apply inject_Z_nonneg. Qed.

Lemma normal_one : (2 ^ (-1022) <= 1)%Q.
Proof. change 1%Q with (2 ^ 0)%Q. apply pow2_le. lia. Qed.

Lemma to_double_error (z : Z) :
  0 < z ->
  (inject_Z z * (1 - unit_roundoff) <= to_double z
   <= inject_Z z * (1 + unit_roundoff))%Q.
Proof.
  intros H. apply round_error_pos.
  pose proof (inject_Z_pos z H). pose proof normal_one. lra.
Qed.

Lemma unit_roundoff_value : (unit_roundoff == 1 # 9007199254740992)%Q.
Proof. reflexivity. Qed.

Lemma Qceiling_below (x : Q) : (inject_Z (Qceiling x) < x + 1)%Q.
Proof.
  pose proof (Qceiling_lt x) as H.
  replace (Qceiling x - 1) with (Qceiling x + - (1)) in H by ring.
  rewrite inject_Z_plus, inject_Z_opp in H.
  change (inject_Z 1) with 1%Q in H. lra.
Qed.

Lemma Qceiling_unique (x : Q) (n : Z) :
  (inject_Z n - 1 < x <= inject_Z n)%Q -> Qceiling x = n.
Proof.
  intros [L U]. unfold Qceiling.
  rewrite (Qfloor_unique (- x) (- n)); [lia|].
  rewrite inject_Z_opp. lra.
Qed.

Lemma Qceiling_div (a b : Z) :
  0 < b -> Qceiling (inject_Z a / inject_Z b) = ceil_blocks a b.
Proof.
  intros Hb. unfold Qceiling, ceil_blocks. f_equal.
  rewrite (Zdiv_Qdiv (- a) b). apply Qfloor_comp.
  rewrite inject_Z_opp. field.
  intros H. unfold Qeq in H. simpl in H. lia.
Qed.

Lemma ceil_blocks_covers (a b : Z) :
  0 < b -> a <= ceil_blocks a b * b < a + b.
Proof.
  intros Hb. unfold ceil_blocks.
  pose proof (Z.div_mod (- a) b ltac:(lia)) as E.
  pose proof (Z.mod_pos_bound (- a) b Hb) as M. nia.
Qed.

Lemma charged_whole_seconds_bounds (elapsed inc : Z) :
  0 <= elapsed -> 0 < inc ->
  inc * 1000000 <= charged_whole_seconds elapsed inc
                <= elapsed + inc * 1000000.
Proof.
  intros He Hi. unfold charged_whole_seconds.
  destruct (Z.leb_spec (elapsed / 1000000) inc) as [H|H]; [lia|].
  pose proof (ceil_blocks_covers elapsed (inc * 1000000) ltac:(lia)) as C.
  assert (inc * 1000000 < elapsed).
  { pose proof (Z.mul_div_le elapsed 1000000 ltac:(lia)). lia. }
  lia.
Qed.

(** The divisor of [chargedunits] is computed without error. *)
Lemma block_exact (inc : Z) :
  plausible_increment inc ->
  (fmul (to_double inc) 1000000 == inject_Z (inc * 1000000))%Q.
Proof.
  intros [H0 H1]. unfold fmul.
  rewrite to_double_exact by lia.
  change 1000000%Q with (inject_Z 1000000). rewrite <- inject_Z_mult.
  apply round_Z. lia.
Qed.

(** The quotient of [chargedunits]: the number of blocks the code counts,
    in general and when the elapsed time is below 2^53 microseconds, where
    the conversion is exact and the rounding of the quotient cannot cross
    an integer. *)
Lemma blocks_counted (elapsed b : Z) :
  0 < b <= elapsed -> elapsed <= 2 ^ 62 ->
  let k := Qceiling (fdiv (to_double elapsed) (inject_Z b)) in
  1 <= k /\ k * b <= elapsed + b + 2 ^ 11
  /\ (elapsed < 2 ^ 53 -> k = ceil_blocks elapsed b).
Proof.
  intros [Hb He] Hm.
  pose proof (to_double_error elapsed ltac:(lia)) as [D0 D1].
  pose proof (inject_Z_pos b ltac:(lia)) as Bq.
  pose proof (inject_Z_pos elapsed ltac:(lia)) as Eq1.
  assert (Ebq : (inject_Z b <= inject_Z elapsed)%Q) by now rewrite <- Zle_Qle.
  assert (Em : (inject_Z elapsed <= 4611686018427387904)%Q).
  { change 4611686018427387904%Q with (inject_Z (2 ^ 62)).
    now rewrite <- Zle_Qle. }
  set (D := inject_Z elapsed) in *. set (B := inject_Z b) in *.
  set (D' := to_double elapsed) in *.
  set (c := (D' / B)%Q).
  assert (Hq : (c * B == D')%Q) by (unfold c; field; lra).
  assert (Hc : (1 # 2 <= c)%Q).
  { unfold c. apply Qle_shift_div_l; [lra|].
    rewrite unit_roundoff_value in D0. lra. }
  assert (Hq0 : (2 ^ (-1022) <= c)%Q) by (pose proof normal_one; lra).
  pose proof (round_error_pos c Hq0) as [Q0 Q1].
  rewrite unit_roundoff_value in D0, D1, Q0, Q1.
  unfold fdiv. fold c. set (r := round c) in *. cbv zeta.
  pose proof (Qle_ceiling r) as C0. pose proof (Qceiling_below r) as C1.
  set (k := Qceiling r) in *.
  assert (Hr : (0 < r)%Q) by lra.
  assert (K1 : 1 <= k).
  { assert (H : (inject_Z 0 < inject_Z k)%Q)
      by (change (inject_Z 0) with 0%Q; lra).
    rewrite <- Zlt_Qlt in H. lia. }
  assert (RB0 : (c * B * (1 - (1 # 9007199254740992)) <= r * B)%Q) by nra.
  assert (RB1 : (r * B <= c * B * (1 + (1 # 9007199254740992)))%Q) by nra.
  rewrite Hq in RB0, RB1.
  split; [exact K1|]. split.
  - assert (H : (inject_Z (k * b) < inject_Z (elapsed + b + 2 ^ 11 + 1))%Q).
    { rewrite inject_Z_mult, !inject_Z_plus. fold D B.
      change (inject_Z (2 ^ 11)) with 2048%Q. change (inject_Z 1) with 1%Q.
      assert (inject_Z k * B < (r + 1) * B)%Q
        by (apply Qmult_lt_compat_r; lra).
      lra. }
    rewrite <- Zlt_Qlt in H. lia.
  - intros Hs.
    assert (Dx : (D' == D)%Q) by (apply to_double_exact; lia).
    pose proof (ceil_blocks_covers elapsed b Hb) as [N0 N1].
    set (n := ceil_blocks elapsed b) in *.
    assert (Hn : (inject_Z n - 1 < r <= inject_Z n)%Q).
    { assert (Nq0 : (D <= inject_Z n * B)%Q)
        by (unfold D, B; rewrite <- inject_Z_mult, <- Zle_Qle; lia).
      assert (Nq1 : (inject_Z n * B + 1 <= D + B)%Q).
      { unfold D, B. change 1%Q with (inject_Z 1).
        rewrite <- inject_Z_mult, <- !inject_Z_plus, <- Zle_Qle. lia. }
      assert (Ds : (D < 9007199254740992)%Q).
      { change 9007199254740992%Q with (inject_Z (2 ^ 53)).
        unfold D. now rewrite <- Zlt_Qlt. }
      split.
      - (* the quotient is at least [1/B] above [n - 1], and its rounding
           moves it by less *)
        assert (F : ((inject_Z n - 1) * B < r * B)%Q) by lra.
        nra.
      - assert (N53 : Z.abs n <= 2 ^ 53) by nia.
        rewrite <- (round_Z n N53). apply round_le.
        unfold c. apply Qle_shift_div_r; lra. }
    now apply Qceiling_unique.
Qed.

Lemma chargedunits_blocks (ts last inc : Z) :
  0 <= ts - last <= 2 ^ 62 -> plausible_increment inc ->
  chargedunits ts last inc
  = if (ts - last) / 1000000 <=? inc then inc * 1000000
    else Qceiling (fdiv (to_double (ts - last)) (inject_Z (inc * 1000000)))
         * (inc * 1000000).
Proof.
  intros He [Hi Hi']. unfold chargedunits, sub64, mul64, div64.
  rewrite (wrap64_small (ts - last)) by lia.
  rewrite Z.quot_div_nonneg by lia.
  destruct (Z.leb_spec ((ts - last) / 1000000) inc) as [H|H].
  - apply wrap64_small. lia.
  - assert (Hb : inc * 1000000 <= ts - last).
    { pose proof (Z.mul_div_le (ts - last) 1000000 ltac:(lia)). lia. }
    assert (Hq : (fdiv (to_double (ts - last))
                    (fmul (to_double inc) 1000000)
                  == fdiv (to_double (ts - last))
                       (inject_Z (inc * 1000000)))%Q).
    { unfold fdiv. now rewrite (block_exact inc (conj Hi Hi')). }
    destruct (blocks_counted (ts - last) (inc * 1000000)) as (K1 & K2 & _);
      [lia|lia|].
    set (k := Qceiling (fdiv (to_double (ts - last))
                          (inject_Z (inc * 1000000)))) in *.
    unfold time_of_double, ceil. rewrite trunc_inject_Z.
    rewrite (Qceiling_comp _ _ Hq). fold k.
    replace ((INT64_MIN <=? k) && (k <=? INT64_MAX)) with true
      by (symmetry; apply andb_true_intro; unfold INT64_MIN, INT64_MAX;
          split; apply Z.leb_le; nia).
    rewrite (wrap64_small (k * inc)) by nia.
    rewrite wrap64_small by nia. ring.
Qed.

(** Below 2^53 microseconds of elapsed time the charged units are those
    of exact arithmetic. *)
Lemma chargedunits_exact (ts last inc : Z) :
  0 <= ts - last < 2 ^ 53 -> plausible_increment inc ->
  chargedunits ts last inc = charged_whole_seconds (ts - last) inc.
Proof.
  intros He Hi. rewrite chargedunits_blocks by (lia || assumption).
  unfold charged_whole_seconds.
  destruct (Z.leb_spec ((ts - last) / 1000000) inc) as [H|H]; [reflexivity|].
  destruct Hi as [Hi0 Hi1].
  assert (Hb : inc * 1000000 <= ts - last).
  { pose proof (Z.mul_div_le (ts - last) 1000000 ltac:(lia)). lia. }
  destruct (blocks_counted (ts - last) (inc * 1000000)) as (_ & _ & K);
    [lia|lia|].
  now rewrite K by lia.
Qed.

(** In general they are at least one increment and exceed the elapsed time
    by less than one increment and the rounding of the quotient. *)
Lemma chargedunits_bounds (ts last inc : Z) :
  0 <= ts - last <= 2 ^ 62 -> plausible_increment inc ->
  inc * 1000000 <= chargedunits ts last inc
  <= ts - last + inc * 1000000 + 2 ^ 11.
Proof.
  intros He Hi. rewrite chargedunits_blocks by (lia || assumption).
  destruct Hi as [Hi0 Hi1].
  destruct (Z.leb_spec ((ts - last) / 1000000) inc) as [H|H]; [lia|].
  assert (Hb : inc * 1000000 <= ts - last).
  { pose proof (Z.mul_div_le (ts - last) 1000000 ltac:(lia)). lia. }
  destruct (blocks_counted (ts - last) (inc * 1000000)) as (K1 & K2 & _);
    [lia|lia|].
  nia.
Qed.

(** * The accuracy of the time charge *)

Lemma pow2_m64 : (2 ^ (-64) == 1 # 18446744073709551616)%Q.
Proof. reflexivity. Qed.

Lemma normal_m100 : (2 ^ (-1022) <= 1 # 1267650600228229401496703205376)%Q.
Proof.
  assert (E : (1 # 1267650600228229401496703205376 == 2 ^ (-100))%Q)
    by reflexivity.
  rewrite E. apply pow2_le. lia.
Qed.

Lemma Qle_of_eq (x y : Q) : (x == y)%Q -> (x <= y)%Q.
Proof. intros E. rewrite E. apply Qle_refl. Qed.

(** The product [(rate / 1000000 / 60) * units] of the code against the
    exact [rate / 60] times the seconds: four roundings, each within
    2^-53. *)
Lemma time_charge_accuracy (rate : double) (units : Z) :
  (2 ^ (-64) <= rate)%Q -> 0 < units ->
  let ideal := (rate / 60 * (inject_Z units / 1000000))%Q in
  (ideal * (1 - 2 ^ (-50))
   <= fmul (rate_per_usec rate) (to_double units)
   <= ideal * (1 + 2 ^ (-50)))%Q.
Proof.
  intros Hr Hu ideal.
  assert (E50 : (2 ^ (-50) == 1 # 1125899906842624)%Q) by reflexivity.
  rewrite E50. rewrite pow2_m64 in Hr.
  pose proof normal_m100 as N.
  pose proof (to_double_error units Hu) as [U0 U1].
  pose proof (inject_Z_pos units Hu) as Un.
  set (n := inject_Z units) in *. set (n' := to_double units) in *.
  unfold rate_per_usec, fdiv, fmul.
  assert (A : (2 ^ (-1022) <= rate / 1000000)%Q).
  { eapply Qle_trans; [exact N|]. apply Qle_shift_div_l; lra. }
  pose proof (round_error_pos _ A) as [A0 A1].
  set (a' := round (rate / 1000000)) in *.
  rewrite unit_roundoff_value in *.
  assert (Ha : (rate / 1000000 * 1000000 == rate)%Q) by (field; lra).
  set (a := (rate / 1000000)%Q) in *.
  assert (B : (2 ^ (-1022) <= a' / 60)%Q).
  { eapply Qle_trans; [exact N|]. apply Qle_shift_div_l; lra. }
  pose proof (round_error_pos _ B) as [B0 B1].
  rewrite unit_roundoff_value in *.
  set (b' := round (a' / 60)) in *.
  assert (Hb : (a' / 60 * 60 == a')%Q) by (field; lra).
  set (b := (a' / 60)%Q) in *.
  assert (P0 : (rate * (1 # 60000001) <= b')%Q) by lra.
  assert (P : (rate * (1 # 60000001) * (n * (1 # 2)) <= b' * n')%Q).
  { apply Qle_trans with (b' * (n * (1 # 2)))%Q.
    - apply Qmult_le_compat_r; lra.
    - rewrite !(Qmult_comm b'). apply Qmult_le_compat_r; lra. }
  assert (C : (2 ^ (-1022) <= b' * n')%Q).
  { eapply Qle_trans; [exact N|]. eapply Qle_trans; [|exact P]. nra. }
  pose proof (round_error_pos _ C) as [C0 C1].
  rewrite unit_roundoff_value in *.
  set (v := round (b' * n')) in *.
  (* the bounds of the product, in the monomial [rate * n] *)
  assert (Lo : (rate * n * ((1 - (1 # 9007199254740992))
                            * (1 - (1 # 9007199254740992))
                            * (1 - (1 # 9007199254740992)) * (1 # 60000000))
                <= b' * n')%Q).
  { apply Qle_trans
      with (rate * ((1 - (1 # 9007199254740992))
                    * (1 - (1 # 9007199254740992)) * (1 # 60000000))
            * (n * (1 - (1 # 9007199254740992))))%Q; [apply Qle_of_eq; field|].
    apply Qle_trans
      with (b' * (n * (1 - (1 # 9007199254740992))))%Q.
    - apply Qmult_le_compat_r; lra.
    - rewrite !(Qmult_comm b'). apply Qmult_le_compat_r; lra. }
  assert (Hi : (b' * n'
                <= rate * n * ((1 + (1 # 9007199254740992))
                               * (1 + (1 # 9007199254740992))
                               * (1 + (1 # 9007199254740992)) * (1 # 60000000)))%Q).
  { apply Qle_trans
      with (rate * ((1 + (1 # 9007199254740992))
                    * (1 + (1 # 9007199254740992)) * (1 # 60000000))
            * (n * (1 + (1 # 9007199254740992))))%Q; [|apply Qle_of_eq; field].
    apply Qle_trans
      with (b' * (n * (1 + (1 # 9007199254740992))))%Q.
    - rewrite !(Qmult_comm b'). apply Qmult_le_compat_r; lra.
    - apply Qmult_le_compat_r; lra. }
  assert (X : (0 <= rate * n)%Q) by nra.
  subst ideal. fold n.
  setoid_replace (rate / 60 * (n / 1000000))%Q
    with (rate * n * (1 # 60000000))%Q by field.
  split; lra.
Qed.

(** A double times a positive integer is rounded within 2^-53 of the
    product, whatever its size: a product in the subnormal range is a
    multiple of 2^-1074 and is not rounded at all. *)
Lemma round_error_scaled (a : Q) (c : Z) :
  representable a -> 1 <= c ->
  (Qabs (round (a * inject_Z c) - a * inject_Z c)
   <= Qabs (a * inject_Z c) * unit_roundoff)%Q.
Proof.
  intros Ha Hc.
  destruct (Qlt_le_dec (Qabs (a * inject_Z c)) (2 ^ (-1022))) as [Hs|Hn];
    [|now apply round_error].
  assert (Hx : (round (a * inject_Z c) == a * inject_Z c)%Q).
  { destruct (Qeq_dec a 0) as [Z|N].
    - rewrite Z, Qmult_0_l. reflexivity.
    - unfold representable in Ha. rewrite (round_eq a N) in Ha.
      set (e := ulp_exponent a) in *.
      set (m := rne (a / 2 ^ e)) in *.
      assert (He : -1074 <= e) by (subst e; unfold ulp_exponent; lia).
      pose proof (pow2_pos e) as Pe.
      pose proof (pow2_pos (-1074)) as Pm.
      assert (E : (a * inject_Z c
                   == inject_Z (m * c * 2 ^ (e + 1074)) * 2 ^ (-1074))%Q).
      { rewrite !inject_Z_mult, pow2_Z by lia.
        rewrite <- Ha at 1. rewrite pow2_add.
        assert (2 ^ 1074 * 2 ^ (-1074) == 1)%Q by reflexivity.
        setoid_replace
          (inject_Z m * inject_Z c * (2 ^ e * 2 ^ 1074) * 2 ^ (-1074))%Q
          with (inject_Z m * inject_Z c * 2 ^ e
                * (2 ^ 1074 * 2 ^ (-1074)))%Q by ring.
        rewrite H. ring. }
      rewrite E. apply round_exact; [|lia].
      (* the product is below 2^-1022, so its multiple of 2^-1074 is
         below 2^52 *)
      rewrite E in Hs. rewrite Qabs_Qmult in Hs.
      rewrite (Qabs_pos (2 ^ (-1074))) in Hs by lra.
      assert (Hq : (Qabs (inject_Z (m * c * 2 ^ (e + 1074))) < 2 ^ 52)%Q).
      { assert (E2 : (2 ^ (-1022) == 2 ^ 52 * 2 ^ (-1074))%Q)
          by (rewrite <- pow2_add; reflexivity).
        rewrite E2 in Hs.
        apply Qnot_le_lt. intros Hle.
        apply (Qlt_irrefl (2 ^ 52 * 2 ^ (-1074))).
        eapply Qle_lt_trans; [|exact Hs].
        apply Qmult_le_compat_r; [exact Hle|lra]. }
      rewrite <- (pow2_Z 52) in Hq by lia.
      set (k := m * c * 2 ^ (e + 1074)) in *.
      assert (Qabs (inject_Z k) == inject_Z (Z.abs k))%Q
        by (unfold Qabs, inject_Z; reflexivity).
      rewrite H in Hq. rewrite <- Zlt_Qlt in Hq. lia. }
  rewrite Hx.
  setoid_replace (a * inject_Z c - a * inject_Z c)%Q with 0%Q by ring.
  pose proof (Qabs_nonneg (a * inject_Z c)).
  pose proof unit_roundoff_value as U. rewrite U. cbn [Qabs Z.abs Qnum Qden].
  apply Qmult_le_0_compat; [assumption|discriminate].
Qed.
(** * Fixed-point money and the store client *)

Lemma bill_event_decrby (o : oracle) (billamount : double)
  (billaccount : string) (w : world) :
  bill_connect o = true ->
  In (credis_decrby (rediskey_of billaccount) (dec_of billamount))
     (trace (snd (bill_event o billamount billaccount w))).
Proof.
  intros Hc. unfold bill_event, redis_factory, log, emit. rewrite Hc.
  destruct (decrby_ok o); simpl; rewrite !in_app_iff; simpl; tauto.
Qed.

(** * Frames: what each function leaves alone *)

Lemma observed_emit p e w :
  observed p (emit e w) = observed p w ++ (if p e then [e] else []).
Proof. unfold observed, emit. simpl. rewrite filter_app. reflexivity. Qed.

Lemma observed_plumbing p e w :
  ignores_plumbing p -> plumbing e = true ->
  observed p (emit e w) = observed p w.
Proof.
  intros Hp He. rewrite observed_emit, Hp by exact He. apply app_nil_r.
Qed.

Lemma observed_log p l f w :
  ignores_plumbing p -> plumbing (switch_log_printf l f) = true ->
  observed p (log l f w) = observed p w.
Proof. intros. now apply observed_plumbing. Qed.

Lemma ignores_plumbing_bill_event : ignores_plumbing is_bill_event.
Proof. intros [] H; try discriminate H; reflexivity. Qed.

Lemma ignores_plumbing_debit : ignores_plumbing is_debit.
Proof. intros [] H; try discriminate H; reflexivity. Qed.

Lemma ignores_plumbing_transfer : ignores_plumbing is_transfer.
Proof. intros [] H; try discriminate H; reflexivity. Qed.

Lemma ignores_plumbing_warning : ignores_plumbing is_warning.
Proof. intros [| | | | |[] ?| |] H; try discriminate H; reflexivity. Qed.

Create HintDb frames.

#[local] Hint Resolve ignores_plumbing_bill_event ignores_plumbing_debit
  ignores_plumbing_transfer ignores_plumbing_warning : frames.

Ltac quiet :=
  repeat first
    [ rewrite observed_log by first [assumption | reflexivity | solve [auto with frames]]
    | rewrite observed_plumbing by first [assumption | reflexivity | solve [auto with frames]] ].

Lemma redis_factory_frame connected w :
  let r := redis_factory connected w in
  fst r = (if connected then SWITCH_STATUS_SUCCESS else SWITCH_STATUS_FALSE)
  /\ channel (snd r) = channel w
  /\ lock_depth (snd r) = lock_depth w
  /\ forall p, ignores_plumbing p -> observed p (snd r) = observed p w.
Proof.
  unfold redis_factory. destruct connected; cbn [fst snd];
    repeat split; intros; quiet; reflexivity.
Qed.

Lemma observed_same p w w' :
  trace w' = trace w -> observed p w' = observed p w.
Proof. unfold observed. now intros ->. Qed.

Lemma trace_lock g w : trace (switch_mutex_lock g w) = trace w.
Proof. unfold switch_mutex_lock. now destruct (mutex g). Qed.

Lemma trace_unlock g w : trace (switch_mutex_unlock g w) = trace w.
Proof. unfold switch_mutex_unlock. now destruct (mutex g). Qed.

Lemma trace_set_private d w : trace (set_private d w) = trace w.
Proof. unfold set_private. now destruct (channel w). Qed.

Lemma trace_set_total_billed v w : trace (set_total_billed v w) = trace w.
Proof. unfold set_total_billed. now destruct (channel w). Qed.

Lemma channel_lock g w : channel (switch_mutex_lock g w) = channel w.
Proof. unfold switch_mutex_lock. now destruct (mutex g). Qed.

Lemma channel_unlock g w : channel (switch_mutex_unlock g w) = channel w.
Proof. unfold switch_mutex_unlock. now destruct (mutex g). Qed.

Lemma depth_lock g w :
  lock_depth (switch_mutex_lock g w)
  = if mutex g then S (lock_depth w) else lock_depth w.
Proof. unfold switch_mutex_lock. now destruct (mutex g). Qed.

Lemma depth_unlock g w :
  lock_depth (switch_mutex_unlock g w)
  = if mutex g then pred (lock_depth w) else lock_depth w.
Proof. unfold switch_mutex_unlock. now destruct (mutex g). Qed.

Lemma depth_set_private d w : lock_depth (set_private d w) = lock_depth w.
Proof. unfold set_private. now destruct (channel w). Qed.

Lemma depth_set_total_billed v w :
  lock_depth (set_total_billed v w) = lock_depth w.
Proof. unfold set_total_billed. now destruct (channel w). Qed.

Ltac still :=
  repeat first
    [ rewrite observed_log by first [assumption | reflexivity | solve [auto with frames]]
    | rewrite observed_plumbing by first [assumption | reflexivity | solve [auto with frames]]
    | rewrite (observed_same _ _ _ (trace_lock _ _))
    | rewrite (observed_same _ _ _ (trace_unlock _ _))
    | rewrite (observed_same _ _ _ (trace_set_private _ _))
    | rewrite (observed_same _ _ _ (trace_set_total_billed _ _)) ].

Lemma bill_event_frame o a acct w :
  let r := bill_event o a acct w in
  fst r = (if bill_connect o && decrby_ok o
           then SWITCH_STATUS_SUCCESS else SWITCH_STATUS_FALSE)
  /\ channel (snd r) = channel w
  /\ lock_depth (snd r) = lock_depth w
  /\ forall p, ignores_plumbing p ->
       observed p (snd r)
       = observed p w
         ++ filter p
              (call_bill_event a acct
               :: (if bill_connect o
                   then [credis_decrby (rediskey_of acct) (dec_of a)]
                   else [])).
Proof.
  unfold bill_event, redis_factory.
  destruct (bill_connect o), (decrby_ok o); cbn [fst snd andb];
    repeat split; intros; quiet; rewrite ?observed_emit; quiet;
    rewrite ?observed_emit, <- ?app_assoc; cbn [filter app];
    repeat match goal with |- context [if ?b then _ else _] =>
      destruct b end; reflexivity.
Qed.

Lemma get_balance_frame o acct w :
  let r := get_balance o acct w in
  fst r = fail_open_balance (balance_connect o) (balance_reply o)
  /\ channel (snd r) = channel w
  /\ lock_depth (snd r) = lock_depth w
  /\ forall p, ignores_plumbing p -> observed p (snd r) = observed p w.
Proof.
  unfold get_balance, redis_factory, fail_open_balance.
  destruct (balance_connect o); [destruct (balance_reply o)|];
    cbn [fst snd]; repeat split; intros; quiet; reflexivity.
Qed.

Lemma exec_app_frame o app w :
  let r := exec_app o app w in
  fst r = match app with
          | Some _ => lowbal_app_status o
          | None => SWITCH_STATUS_FALSE
          end
  /\ channel (snd r) = channel w
  /\ lock_depth (snd r) = lock_depth w
  /\ forall p,
       observed p (snd r)
       = observed p w
         ++ filter p match app with
                     | Some a => [execute_application a]
                     | None => []
                     end.
Proof.
  unfold exec_app. destruct app; cbn [fst snd filter]; repeat split; intros;
    rewrite ?observed_emit, ?app_nil_r; reflexivity.
Qed.

Lemma transfer_call_frame dst w :
  let w' := transfer_call dst w in
  channel w' = channel w
  /\ lock_depth w' = lock_depth w
  /\ forall p,
       observed p w'
       = observed p w
         ++ filter p match dst with
                     | Some x => [session_transfer x (get_private w)]
                     | None => []
                     end.
Proof.
  unfold transfer_call. destruct dst; cbn [fst snd filter]; repeat split;
    intros; rewrite ?observed_emit, ?app_nil_r; reflexivity.
Qed.

Lemma rednibblebill_pause_frame g ts w ch d :
  channel w = Some (with_rednibble_data ch (Some d)) ->
  let w' := rednibblebill_pause g ts w in
  channel w'
  = Some (with_rednibble_data ch
            (Some (if pausets d =? 0 then with_pausets d ts else d)))
  /\ lock_depth w' = lock_depth w
  /\ forall p, ignores_plumbing p -> observed p w' = observed p w.
Proof.
  intros Hch. unfold rednibblebill_pause. rewrite Hch.
  cbn [rednibble_data with_rednibble_data].
  repeat split.
  - rewrite channel_unlock. cbn [log emit channel].
    destruct (pausets d =? 0).
    + unfold set_private. rewrite channel_lock, Hch. reflexivity.
    + now rewrite channel_lock.
  - rewrite depth_unlock. cbn [log emit lock_depth].
    destruct (pausets d =? 0); rewrite ?depth_set_private, depth_lock;
      now destruct (mutex g).
  - intros p Hp. destruct (pausets d =? 0); now still.
Qed.

Lemma bill_frame o rate inc acct d w ch :
  channel w = Some ch ->
  let r := bill o rate inc acct d w in
  fst r = billed o rate inc d
  /\ (exists ch1, channel (snd r) = Some ch1
                  /\ settings ch1 = settings ch
                  /\ rednibble_data ch1 = rednibble_data ch)
  /\ lock_depth (snd r) = lock_depth w
  /\ forall p, ignores_plumbing p ->
       observed p (snd r)
       = observed p w ++ filter p (bill_events o rate inc acct d).
Proof.
  intros Hch. unfold bill, billed, bill_events.
  destruct (0 <=? sub64 (micro_time_now o) (lastts d)).
  - destruct (charge (micro_time_now o) rate inc d) as [amt d1].
    cbn [fst].
    pose proof (bill_event_frame o amt acct
                  (log SWITCH_LOG_DEBUG
                     "Billing %f to %s (Call: %s / %f so far)" w)) as F.
    destruct (bill_event o amt acct _) as [st w1].
    cbn [fst snd] in F. destruct F as (Fs & Fc & Fd & Fo).
    cbn [log emit channel lock_depth] in Fc, Fd. subst st.
    destruct (bill_connect o && decrby_ok o); cbn [fst snd].
    + repeat split.
      * exists (with_total_billed ch (printf_f (fadd (total d1) amt))).
        unfold set_total_billed. rewrite Fc, Hch. now cbn.
      * now rewrite depth_set_total_billed.
      * intros p Hp. still. rewrite Fo by assumption. now still.
    + repeat split.
      * exists ch. cbn [log emit channel]. now rewrite Fc.
      * exact Fd.
      * intros p Hp. still. rewrite Fo by assumption. now still.
  - cbn [fst snd]. repeat split.
    + exists ch. destruct inc; cbn [log emit channel]; now rewrite Hch.
    + now destruct inc.
    + intros p Hp. destruct inc; cbn [filter].
      * now rewrite app_nil_r.
      * unfold log. now rewrite observed_emit.
Qed.

Lemma verify_balance_frame g o lowbal nobal acct d w ch :
  channel w = Some (with_rednibble_data ch (Some d)) ->
  let w' := verify_balance g o lowbal nobal acct d w in
  channel w'
  = Some (with_rednibble_data ch (Some (verified g o lowbal nobal d)))
  /\ lock_depth w' = lock_depth w
  /\ forall p, ignores_plumbing p ->
       observed p w'
       = observed p w ++ filter p (verify_events g o lowbal nobal d).
Proof.
  intros Hch. unfold verify_balance.
  pose proof (get_balance_frame o acct w) as F.
  destruct (get_balance o acct w) as [balance w1].
  cbn [fst snd] in F. destruct F as (Fb & Fc & Fd & Fo). subst balance.
  set (bal := fail_open_balance (balance_connect o) (balance_reply o)).
  (* the low balance action *)
  set (w2 :=
    if (lowbal_action_executed d =? 0) && Qle_bool bal lowbal
    then
      let w := log SWITCH_LOG_DEBUG
                 "Balance of %f fell below low balance amount of %f! (Account %s)"
                 w1 in
      match exec_app o (lowbal_action g) w with
      | (SWITCH_STATUS_SUCCESS, w) =>
        set_private (with_lowbal_action_executed d 1) w
      | (SWITCH_STATUS_FALSE, w) =>
        log SWITCH_LOG_ERROR "Low balance action didn't execute" w
      end
    else w1).
  set (d1 := if lowbal_fires g o lowbal d
             then with_lowbal_action_executed d 1 else d).
  assert (H2 : channel w2 = Some (with_rednibble_data ch (Some d1))
               /\ lock_depth w2 = lock_depth w
               /\ forall p, ignores_plumbing p ->
                    observed p w2
                    = observed p w
                      ++ filter p
                           (if (lowbal_action_executed d =? 0)
                               && Qle_bool bal lowbal
                            then match lowbal_action g with
                                 | Some app => [execute_application app]
                                 | None => []
                                 end
                            else [])).
  { subst w2 d1. unfold lowbal_fires. fold bal.
    destruct ((lowbal_action_executed d =? 0) && Qle_bool bal lowbal).
    - cbv zeta.
      pose proof (exec_app_frame o (lowbal_action g)
                    (log SWITCH_LOG_DEBUG
                       "Balance of %f fell below low balance amount of %f! (Account %s)"
                       w1)) as E.
      destruct (exec_app o (lowbal_action g) _) as [st w3].
      cbn [fst snd] in E. destruct E as (Es & Ec & Ed & Eo).
      cbn [log emit channel lock_depth] in Ec, Ed. subst st.
      cbn [andb].
      destruct (lowbal_action g) as [app|];
        [destruct (lowbal_app_status o)|]; repeat split;
        try (unfold set_private; rewrite Ec, Fc, Hch; reflexivity);
        try (cbn [log emit channel]; rewrite Ec, Fc, Hch; reflexivity);
        try (rewrite ?depth_set_private; cbn [log emit lock_depth];
             congruence);
        intros p Hp; still; rewrite Eo; still; now rewrite Fo.
    - cbn [andb]. repeat split; try congruence.
      intros p Hp. cbn [filter]. rewrite app_nil_r. now apply Fo. }
  clearbody w2. destruct H2 as (Hc2 & Hd2 & Ho2).
  unfold verify_events. unfold verified, out_of_credit. fold bal. fold d1.
  destruct (Qle_bool bal nobal); cbn [andb].
  - pose proof (rednibblebill_pause_frame g (micro_time_pause o)
                  (log SWITCH_LOG_CRIT
                     "Balance of %f fell below allowed amount of %f! (Account %s)"
                     w2) ch d1 Hc2) as P.
    cbv zeta in P. destruct P as (Pc & Pd & Po).
    pose proof (transfer_call_frame (nobal_action g)
                  (rednibblebill_pause g (micro_time_pause o)
                     (log SWITCH_LOG_CRIT
                        "Balance of %f fell below allowed amount of %f! (Account %s)"
                        w2))) as T.
    cbv zeta in T. destruct T as (Tc & Td & To).
    repeat split.
    + now rewrite Tc, Pc.
    + rewrite Td, Pd. exact Hd2.
    + intros p Hp. rewrite To, Po by assumption. still.
      rewrite Ho2 by assumption. rewrite filter_app, <- app_assoc.
      unfold get_private. rewrite Pc. reflexivity.
  - repeat split; try assumption.
    intros p Hp. rewrite Ho2 by assumption.
    rewrite filter_app. cbn [filter]. now rewrite app_nil_r.
Qed.

Lemma do_billing_idle g o w :
  match channel w with Some ch => bills ch = false | None => True end ->
  let w' := do_billing g o w in
  channel w' = channel w
  /\ lock_depth w' = lock_depth w
  /\ observed is_debit w' = observed is_debit w
  /\ observed is_warning w' = observed is_warning w.
Proof.
  unfold do_billing, bills, opening.
  destruct (channel w) as [ch|] eqn:Hch;
    [|intros _; repeat split; assumption].
  destruct (rednibble_rate ch) as [rate|];
    [|intros _; repeat split; assumption].
  destruct (rednibble_account ch) as [acct|];
    [|intros _; repeat split; assumption].
  destruct (answered ch) as [ans|];
    [|intros _; cbn [log emit channel lock_depth]; repeat split;
      [assumption | now still..]].
  destruct (ans <? 1) eqn:Hans; cbn [negb andb].
  - intros _.
    pose proof (get_balance_frame o acct
                  (log SWITCH_LOG_DEBUG
                     "Not billing %s - call is not in answered state"
                     (log SWITCH_LOG_DEBUG
                        "Attempting to bill at %s per minute to account %s"
                        w))) as F.
    destruct (get_balance o acct _) as [balance w1].
    cbn [fst snd log emit channel lock_depth] in F.
    destruct F as (_ & Fc & Fd & Fo).
    destruct (Qle_bool balance _).
    + pose proof (transfer_call_frame (nobal_action g)
                    (log SWITCH_LOG_DEBUG
                       "Balance of %f fell below allowed amount of %f! (Account %s)"
                       (log SWITCH_LOG_DEBUG
                          "Comparing %f to hangup balance of %f" w1))) as T.
      cbv zeta in T. cbn [log emit channel lock_depth] in T.
      destruct T as (Tc & Td & To).
      cbv zeta. rewrite Tc, Td, !To. repeat split; try congruence.
      * still. rewrite Fo by auto with frames. still.
        destruct (nobal_action g); apply app_nil_r.
      * still. rewrite Fo by auto with frames. still.
        destruct (nobal_action g); apply app_nil_r.
    + cbv zeta. cbn [log emit channel lock_depth].
      repeat split; try congruence;
        still; rewrite Fo by auto with frames; now still.
  - destruct (rednibble_data ch) as [d|]; cbn [pausets zeroed with_lastts].
    + destruct (pausets d >? 0); [|discriminate]. intros _.
      cbn [log emit channel lock_depth].
      rewrite channel_unlock, depth_unlock, channel_lock, depth_lock.
      repeat split.
      * cbn [log emit channel]. assumption.
      * cbn [log emit lock_depth]. now destruct (mutex g).
      * now still.
      * now still.
    + discriminate.
Qed.

Lemma do_billing_bills g o w ch :
  channel w = Some ch ->
  bills ch = true ->
  let w' := do_billing g o w in
  (exists ch1, settings ch1 = settings ch
               /\ channel w'
                  = Some (with_rednibble_data ch1 (Some (settled g o ch))))
  /\ lock_depth w' = lock_depth w
  /\ forall p, ignores_plumbing p ->
       exists rate acct,
         rednibble_rate ch = Some rate /\ rednibble_account ch = Some acct
         /\ observed p w'
            = observed p w
              ++ filter p (bill_events o rate (rednibble_increment ch) acct
                             (opening ch))
              ++ (if terminal ch then []
                  else filter p
                         (verify_events g o (lowbal_of g ch) (nobal_of g ch)
                            (billed o rate (rednibble_increment ch)
                               (opening ch)))).
Proof.
  intros Hch. unfold do_billing, bills, settled. rewrite Hch.
  destruct (rednibble_rate ch) as [rate|]; [|discriminate].
  destruct (rednibble_account ch) as [acct|]; [|discriminate].
  destruct (answered ch) as [ans|] eqn:Hans; [|discriminate].
  destruct (ans <? 1); [discriminate|]. cbn [negb andb].
  intros Hp.
  assert (Hpaused :
            match rednibble_data ch with
            | Some d => pausets d >? 0
            | None => false
            end = false).
  { unfold opening in Hp. destruct (rednibble_data ch); [|reflexivity].
    now destruct (pausets _ >? 0). }
  rewrite Hpaused. clear Hp Hpaused.
  set (w0 := switch_mutex_lock g
               (log SWITCH_LOG_DEBUG
                  "Attempting to bill at %s per minute to account %s" w)).
  set (start :=
         match rednibble_data ch with
         | Some d => (d, w0)
         | None =>
           (with_lastts zeroed ans,
            log SWITCH_LOG_INFO "Beginning new billing on %s" w0)
         end).
  assert (Hs : fst start = opening ch
               /\ channel (snd start) = Some ch
               /\ lock_depth (snd start)
                  = (if mutex g then S (lock_depth w) else lock_depth w)
               /\ forall p, ignores_plumbing p ->
                    observed p (snd start) = observed p w).
  { subst start w0. unfold opening. rewrite Hans.
    destruct (rednibble_data ch); cbn [fst snd log emit channel lock_depth];
      rewrite channel_lock, depth_lock; cbn [log emit channel lock_depth];
      repeat split; try assumption; intros p Hp; now still. }
  destruct start as [d0 w1]. cbn [fst snd] in Hs.
  destruct Hs as (-> & Hc1 & Hd1 & Ho1).
  pose proof (bill_frame o rate (rednibble_increment ch) acct (opening ch)
                (log SWITCH_LOG_DEBUG
                   "%d seconds passed since last bill time of %s" w1) ch Hc1)
    as B.
  destruct (bill o rate (rednibble_increment ch) acct (opening ch) _)
    as [d1 w2].
  cbn [fst snd log emit lock_depth] in B.
  destruct B as (-> & (ch1 & Hc2 & Hset & Hdat) & Hd2 & Ho2).
  set (d1 := billed o rate (rednibble_increment ch) (opening ch)).
  assert (Hc3 : channel (set_private d1 w2)
                = Some (with_rednibble_data ch1 (Some d1)))
    by (unfold set_private; now rewrite Hc2).
  unfold terminal.
  replace (negb (is_reporting (channel_state ch))
           && negb (is_hangup (channel_state ch)))
    with (negb (is_reporting (channel_state ch)
                || is_hangup (channel_state ch)))
    by apply negb_orb.
  destruct (is_reporting (channel_state ch) || is_hangup (channel_state ch));
    cbn [negb].
  - rewrite channel_unlock, depth_unlock, depth_set_private, Hd2, Hd1.
    repeat split.
    + now exists ch1.
    + now destruct (mutex g).
    + intros p Hp. exists rate, acct. repeat split. still.
      rewrite Ho2 by assumption. still. rewrite Ho1 by assumption.
      now rewrite app_nil_r.
  - pose proof (verify_balance_frame g o (lowbal_of g ch) (nobal_of g ch)
                  acct d1 (set_private d1 w2) ch1 Hc3) as V.
    cbv zeta in V. destruct V as (Vc & Vd & Vo).
    fold (lowbal_of g ch) (nobal_of g ch).
    rewrite channel_unlock, depth_unlock, Vd, depth_set_private, Hd2, Hd1.
    repeat split.
    + now exists ch1.
    + now destruct (mutex g).
    + intros p Hp. exists rate, acct. repeat split. still.
      rewrite Vo by assumption. still.
      rewrite Ho2 by assumption. still. rewrite Ho1 by assumption.
      now rewrite app_assoc.
Qed.

(** * What a billing leaves in the data *)

Lemma verified_keeps g o lowbal nobal d :
  let d' := verified g o lowbal nobal d in
  lastts d' = lastts d /\ total d' = total d
  /\ bill_adjustments d' = bill_adjustments d.
Proof.
  unfold verified.
  destruct (lowbal_fires g o lowbal d), (out_of_credit o nobal);
    cbn [andb pausets with_lowbal_action_executed];
    try destruct (pausets d =? 0); cbn; auto.
Qed.

Lemma settled_keeps g o ch rate :
  rednibble_rate ch = Some rate ->
  let b := billed o rate (rednibble_increment ch) (opening ch) in
  lastts (settled g o ch) = lastts b /\ total (settled g o ch) = total b
  /\ bill_adjustments (settled g o ch) = bill_adjustments b.
Proof.
  intros Hr. unfold settled. rewrite Hr. destruct (terminal ch); [auto|].
  apply verified_keeps.
Qed.

Lemma filter_verify_events p g o lowbal nobal d :
  (forall a, p (execute_application a) = false) ->
  (forall x s, p (session_transfer x s) = false) ->
  filter p (verify_events g o lowbal nobal d) = [].
Proof.
  intros Ha Ht. unfold verify_events. rewrite filter_app.
  destruct (_ && _), (lowbal_action g), (out_of_credit o nobal),
    (nobal_action g); cbn [filter app]; rewrite ?Ha, ?Ht; reflexivity.
Qed.

Lemma get_private_channel w ch d :
  channel w = Some (with_rednibble_data ch (Some d)) ->
  get_private w = Some d.
Proof. unfold get_private. now intros ->. Qed.

(** Every billing that reaches the charge with a non-negative elapsed time
    calls [bill_event] once, with the amount of [charge]. *)
Lemma do_billing_calls_bill_event g o w ch rate acct :
  channel w = Some ch -> bills ch = true ->
  rednibble_rate ch = Some rate -> rednibble_account ch = Some acct ->
  0 <= sub64 (micro_time_now o) (lastts (opening ch)) ->
  observed is_bill_event (do_billing g o w)
  = observed is_bill_event w
    ++ [call_bill_event
          (fst (charge (micro_time_now o) rate (rednibble_increment ch)
                  (opening ch)))
          acct].
Proof.
  intros Hch Hb Hr Ha He.
  destruct (do_billing_bills g o w ch Hch Hb) as (_ & _ & Ho).
  destruct (Ho is_bill_event ignores_plumbing_bill_event)
    as (rate' & acct' & Hr' & Ha' & ->).
  rewrite Hr in Hr'. rewrite Ha in Ha'.
  injection Hr' as <-. injection Ha' as <-.
  f_equal. unfold bill_events. apply Z.leb_le in He. rewrite He.
  replace (if terminal ch then [] else _) with (@nil event)
    by (destruct (terminal ch); [reflexivity|];
        symmetry; now apply filter_verify_events).
  destruct (bill_connect o); reflexivity.
Qed.

Lemma billed_elapsed o rate inc d :
  0 <= sub64 (micro_time_now o) (lastts d) ->
  let r := charge (micro_time_now o) rate inc d in
  lastts (billed o rate inc d) = lastts (snd r)
  /\ (if bill_connect o && decrby_ok o
      then total (billed o rate inc d) = fadd (total d) (fst r)
           /\ bill_adjustments (billed o rate inc d) = 0%Q
      else total (billed o rate inc d) = total d
           /\ bill_adjustments (billed o rate inc d) = bill_adjustments d).
Proof.
  intros He. apply Z.leb_le in He. unfold billed. rewrite He.
  unfold charge.
  destruct inc, (bill_connect o && decrby_ok o); cbn; auto.
Qed.

Lemma billed_backward o rate inc d :
  sub64 (micro_time_now o) (lastts d) < 0 -> billed o rate inc d = d.
Proof.
  intros He. apply Z.leb_gt in He. unfold billed. now rewrite He.
Qed.

(** * The data a command leaves *)

Lemma with_rednibble_data_same ch :
  with_rednibble_data ch (rednibble_data ch) = ch.
Proof. now destruct ch. Qed.

Lemma bill_event_channel o a acct w :
  channel (snd (bill_event o a acct w)) = channel w.
Proof. apply bill_event_frame. Qed.

Lemma step_data g c o w w' ch :
  channel w = Some ch ->
  rednibblebill_app_function g c o w = Some w' ->
  exists ch1, settings ch1 = settings ch
              /\ channel w' = Some (with_rednibble_data ch1 (after g c o ch)).
Proof.
  intros Hch. destruct c; cbn [rednibblebill_app_function after].
  - (* adjust *)
    intros [= <-]. exists ch. split; [reflexivity|].
    rewrite with_rednibble_data_same. unfold rednibblebill_adjust.
    rewrite Hch. destruct (rednibble_account ch) as [acct|]; [|assumption].
    pose proof (bill_event_channel o (- amount)%Q acct w) as B.
    destruct (bill_event o (- amount)%Q acct w) as [[] w1];
      cbn [snd log emit channel] in *; congruence.
  - (* flush *)
    intros [= <-]. destruct (bills ch) eqn:Hb.
    + destruct (do_billing_bills g o w ch Hch Hb) as (H & _). exact H.
    + exists ch. split; [reflexivity|]. rewrite with_rednibble_data_same.
      destruct (do_billing_idle g o w) as (H & _); [now rewrite Hch|].
      congruence.
  - (* pause *)
    intros [= <-]. exists ch. split; [reflexivity|].
    destruct (rednibble_data ch) as [d|] eqn:Hd; cbn [option_map].
    + apply (rednibblebill_pause_frame g (micro_time_now o) w ch d).
      rewrite <- Hd, with_rednibble_data_same. exact Hch.
    + rewrite <- Hd, with_rednibble_data_same.
      unfold rednibblebill_pause. rewrite Hch, Hd.
      cbn [log emit channel]. now rewrite channel_lock.
  - (* resume *)
    unfold rednibblebill_resume. rewrite Hch.
    destruct (rednibble_data ch) as [d|] eqn:Hd; cbn [option_map].
    + destruct (pausets d =? 0).
      * intros [= <-]. exists ch. split; [reflexivity|].
        rewrite <- Hd, with_rednibble_data_same. exact Hch.
      * destruct (rednibble_rate ch) as [rate|]; [|discriminate].
        intros [= <-]. exists ch. split; [reflexivity|].
        rewrite channel_unlock. cbn [log emit channel].
        unfold set_private. now rewrite channel_lock, Hch.
    + intros [= <-]. exists ch. split; [reflexivity|].
      rewrite <- Hd, with_rednibble_data_same. exact Hch.
  - (* check *)
    unfold rednibblebill_check. rewrite Hch. intros Hs.
    exists ch. split; [reflexivity|]. rewrite with_rednibble_data_same.
    destruct (rednibble_data ch); injection Hs as <-;
      cbn [log emit channel]; rewrite ?channel_unlock, ?channel_lock;
      assumption.
  - (* reset *)
    intros [= <-]. exists ch. split; [reflexivity|].
    unfold rednibblebill_reset. rewrite Hch.
    destruct (rednibble_data ch) as [d|] eqn:Hd; cbn [option_map].
    + rewrite channel_unlock. cbn [log emit channel].
      unfold set_private. now rewrite channel_lock, Hch.
    + rewrite <- Hd, with_rednibble_data_same. exact Hch.
Qed.

Lemma step_no_channel g c o w w' :
  channel w = None ->
  rednibblebill_app_function g c o w = Some w' ->
  channel w' = None.
Proof.
  intros Hch.
  destruct c; cbn [rednibblebill_app_function];
    unfold rednibblebill_adjust, do_billing, rednibblebill_pause,
      rednibblebill_resume, rednibblebill_check, rednibblebill_reset;
    rewrite Hch; intros [= <-]; assumption.
Qed.

Lemma bills_inv ch :
  bills ch = true ->
  exists rate acct ans,
    rednibble_rate ch = Some rate /\ rednibble_account ch = Some acct
    /\ answered ch = Some ans /\ 1 <= ans /\ pausets (opening ch) <= 0.
Proof.
  unfold bills.
  destruct (rednibble_rate ch) as [rate|]; [|discriminate].
  destruct (rednibble_account ch) as [acct|]; [|discriminate].
  destruct (answered ch) as [ans|]; [|discriminate].
  intros H. apply andb_true_iff in H. destruct H as [H1 H2].
  exists rate, acct, ans. repeat split.
  - destruct (Z.ltb_spec ans 1); [discriminate|lia].
  - destruct (Z.gtb_spec (pausets (opening ch)) 0); [discriminate|lia].
Qed.

Lemma opening_plausible ch :
  plausible_channel ch -> bills ch = true ->
  0 <= lastts (opening ch) <= 2 ^ 62.
Proof.
  intros (_ & Ha & Hd) Hb.
  destruct (bills_inv ch Hb) as (_ & _ & ans & _ & _ & Hans & H1 & _).
  unfold opening. rewrite Hans in *.
  destruct (rednibble_data ch); [assumption|]. cbn. lia.
Qed.

(** A billing never brings the timestamp back, and leaves it within
    bounds. *)
Lemma billed_lastts o rate inc d :
  plausible_time (micro_time_now o) ->
  match inc with Some i => plausible_increment i | None => True end ->
  0 <= lastts d <= 2 ^ 62 ->
  lastts d <= lastts (billed o rate inc d) <= 2 ^ 62.
Proof.
  intros [Hn0 Hn1] Hi Hl.
  assert (He : sub64 (micro_time_now o) (lastts d)
               = micro_time_now o - lastts d)
    by (apply wrap64_small; lia).
  destruct (Z.le_gt_cases 0 (sub64 (micro_time_now o) (lastts d)))
    as [H|H].
  - destruct (billed_elapsed o rate inc d H) as (-> & _).
    rewrite He in H. unfold charge.
    destruct inc as [i|]; cbn [snd lastts with_lastts]; [|lia].
    pose proof (chargedunits_bounds (micro_time_now o) (lastts d) i
                  ltac:(lia) Hi) as B.
    destruct Hi as [Hi0 Hi1].
    unfold add64. rewrite wrap64_small; lia.
  - rewrite billed_backward by assumption. lia.
Qed.

Lemma settled_lastts g o ch :
  plausible_channel ch -> plausible_time (micro_time_now o) ->
  bills ch = true ->
  lastts (opening ch) <= lastts (settled g o ch) <= 2 ^ 62.
Proof.
  intros Hp Hn Hb.
  destruct (bills_inv ch Hb) as (rate & _ & _ & Hr & _).
  destruct (settled_keeps g o ch rate Hr) as (-> & _).
  apply billed_lastts; [assumption|apply Hp|now apply opening_plausible].
Qed.

Lemma opening_data ch d : rednibble_data ch = Some d -> opening ch = d.
Proof. unfold opening. now intros ->. Qed.

Lemma after_lastts g c o ch d :
  plausible_channel ch -> plausible_time (micro_time_now o) ->
  is_reset c = false ->
  rednibble_data ch = Some d ->
  exists d', after g c o ch = Some d' /\ lastts d <= lastts d'.
Proof.
  intros Hp Hn Hc Hd.
  destruct c; try discriminate Hc; cbn [after]; rewrite ?Hd;
    cbn [option_map].
  - exists d. split; [reflexivity|lia].
  - destruct (bills ch) eqn:Hb.
    + exists (settled g o ch). split; [reflexivity|].
      rewrite <- (opening_data ch d Hd). now apply settled_lastts.
    + exists d. split; [reflexivity|lia].
  - eexists. split; [reflexivity|]. destruct (pausets d =? 0); cbn; lia.
  - eexists. split; [reflexivity|]. destruct (pausets d =? 0); cbn; lia.
  - exists d. split; [reflexivity|lia].
Qed.

Lemma plausible_with_data ch ch1 x :
  settings ch1 = settings ch ->
  plausible_channel ch ->
  match x with Some d => 0 <= lastts d <= 2 ^ 62 | None => True end ->
  plausible_channel (with_rednibble_data ch1 x).
Proof.
  unfold settings. intros [= Hr Hi Ha Hn Hl Hans Hst] (Pi & Pa & _) Hx.
  unfold plausible_channel. cbn. rewrite Hi, Hans. auto.
Qed.

Lemma after_plausible g c o ch :
  plausible_channel ch -> plausible_time (micro_time_now o) ->
  match after g c o ch with
  | Some d => 0 <= lastts d <= 2 ^ 62
  | None => True
  end.
Proof.
  intros Hp Hn. pose proof Hp as (_ & _ & Hd).
  destruct c; cbn [after]; try exact Hd.
  - destruct (bills ch) eqn:Hb; [|exact Hd].
    pose proof (settled_lastts g o ch Hp Hn Hb).
    pose proof (opening_plausible ch Hp Hb). lia.
  - destruct (rednibble_data ch) as [d|]; cbn [option_map]; [|exact I].
    now destruct (pausets d =? 0).
  - destruct (rednibble_data ch) as [d|]; cbn [option_map]; [|exact I].
    now destruct (pausets d =? 0).
  - destruct (rednibble_data ch) as [d|]; cbn [option_map]; [|exact I].
    cbn. destruct Hn. lia.
Qed.

Lemma step_plausible g c o w w' :
  plausible_world w -> plausible_time (micro_time_now o) ->
  rednibblebill_app_function g c o w = Some w' ->
  plausible_world w'.
Proof.
  unfold plausible_world. intros Hp Hn Hs.
  destruct (channel w) as [ch|] eqn:Hch.
  - destruct (step_data g c o w w' ch Hch Hs) as (ch1 & Hset & ->).
    apply (plausible_with_data ch); [assumption..|now apply after_plausible].
  - now rewrite (step_no_channel g c o w w' Hch Hs).
Qed.

Lemma get_private_step g c o w w' ch :
  channel w = Some ch ->
  rednibblebill_app_function g c o w = Some w' ->
  get_private w' = after g c o ch.
Proof.
  intros Hch Hs.
  destruct (step_data g c o w w' ch Hch Hs) as (ch1 & _ & H).
  unfold get_private. now rewrite H.
Qed.

(** Without a reset, the timestamp never comes back along a run. *)
Lemma run_lastts g cs :
  forall w w' d,
    plausible_world w -> plausible_run cs -> no_reset cs = true ->
    get_private w = Some d -> run g cs w = Some w' ->
    exists d', get_private w' = Some d' /\ lastts d <= lastts d'.
Proof.
  induction cs as [|[c o] cs IH]; intros w w' d Hp Hr Hn Hd Hrun.
  - injection Hrun as <-. exists d. split; [assumption|lia].
  - cbn [run] in Hrun.
    destruct (rednibblebill_app_function g c o w) as [w1|] eqn:Hs;
      [|discriminate].
    inversion Hr as [|? ? Ho Hr']; subst. cbn [snd] in Ho.
    cbn [no_reset forallb fst] in Hn. apply andb_true_iff in Hn.
    destruct Hn as [Hc Hn]. apply negb_true_iff in Hc.
    unfold get_private in Hd.
    destruct (channel w) as [ch|] eqn:Hch; [|discriminate].
    destruct (after_lastts g c o ch d) as (d1 & Ha & Hle);
      [now unfold plausible_world in Hp; rewrite Hch in Hp|assumption..|].
    destruct (IH w1 w' d1) as (d' & Hd' & Hle'); try assumption.
    + now apply (step_plausible g c o w).
    + now rewrite (get_private_step g c o w w1 ch).
    + exists d'. split; [assumption|lia].
Qed.

(** * The total *)

Lemma rate_per_usec_nonneg rate : (0 <= rate)%Q -> (0 <= rate_per_usec rate)%Q.
Proof.
  intros H. unfold rate_per_usec, fdiv.
  apply round_nonneg. apply Qle_shift_div_l; [reflexivity|].
  rewrite Qmult_0_l.
  apply round_nonneg. apply Qle_shift_div_l; [reflexivity|].
  now rewrite Qmult_0_l.
Qed.

Lemma charge_time_charge ts rate inc d :
  fst (charge ts rate inc d)
  = fsub (time_charge ts rate inc d) (bill_adjustments d).
Proof. unfold charge, time_charge. now destruct inc. Qed.

Lemma time_charge_nonneg ts rate inc d :
  (0 <= rate)%Q ->
  0 <= sub64 ts (lastts d) ->
  match inc with
  | Some i => 0 <= chargedunits ts (lastts d) i
  | None => True
  end ->
  (0 <= time_charge ts rate inc d)%Q.
Proof.
  intros Hr He Hi. unfold time_charge, fmul.
  destruct inc as [i|]; apply round_nonneg, Qmult_le_0_compat;
    auto using rate_per_usec_nonneg, to_double_nonneg.
Qed.

Lemma fadd_le_l (t x : double) :
  representable t -> (0 <= x)%Q -> (t <= fadd t x)%Q.
Proof.
  intros Ht Hx. unfold fadd, representable in *.
  apply Qle_trans with (round t); [rewrite Ht; apply Qle_refl|].
  apply round_le. lra.
Qed.

Lemma fadd_ge_l (t x : double) :
  representable t -> (x <= 0)%Q -> (fadd t x <= t)%Q.
Proof.
  intros Ht Hx. unfold fadd, representable in *.
  apply Qle_trans with (round t); [|rewrite Ht; apply Qle_refl].
  apply round_le. lra.
Qed.

Lemma fadd_representable (x y : double) : representable (fadd x y).
Proof. apply round_round. Qed.

Lemma fsub_sign (x y : double) :
  ((y <= x)%Q -> (0 <= fsub x y)%Q) /\ ((x <= y)%Q -> (fsub x y <= 0)%Q).
Proof.
  unfold fsub. split; intros H;
    [apply round_nonneg | apply round_nonpos]; lra.
Qed.

Lemma charge_nonneg ts rate inc d :
  (0 <= rate)%Q -> (bill_adjustments d == 0)%Q ->
  0 <= sub64 ts (lastts d) ->
  match inc with
  | Some i => 0 <= chargedunits ts (lastts d) i
  | None => True
  end ->
  (0 <= fst (charge ts rate inc d))%Q.
Proof.
  intros Hr Ha He Hi. rewrite charge_time_charge.
  apply fsub_sign. rewrite Ha. now apply time_charge_nonneg.
Qed.

Lemma chargedunits_nonneg o inc d :
  plausible_time (micro_time_now o) ->
  match inc with Some i => plausible_increment i | None => True end ->
  0 <= lastts d <= 2 ^ 62 ->
  0 <= sub64 (micro_time_now o) (lastts d) ->
  match inc with
  | Some i => 0 <= chargedunits (micro_time_now o) (lastts d) i
  | None => True
  end.
Proof.
  intros [Hn0 Hn1] Hi Hl H.
  assert (He : sub64 (micro_time_now o) (lastts d)
               = micro_time_now o - lastts d)
    by (apply wrap64_small; lia).
  destruct inc as [i|]; [|exact I].
  pose proof (chargedunits_bounds (micro_time_now o) (lastts d) i
                ltac:(lia) Hi).
  destruct Hi. lia.
Qed.

Lemma billed_total o rate inc d :
  plausible_time (micro_time_now o) ->
  match inc with Some i => plausible_increment i | None => True end ->
  0 <= lastts d <= 2 ^ 62 ->
  (0 <= rate)%Q -> (bill_adjustments d == 0)%Q ->
  representable (total d) ->
  (total d <= total (billed o rate inc d))%Q
  /\ (bill_adjustments (billed o rate inc d) == 0)%Q.
Proof.
  intros Hn Hi Hl Hr Ha Ht.
  destruct (Z.le_gt_cases 0 (sub64 (micro_time_now o) (lastts d)))
    as [H|H].
  - destruct (billed_elapsed o rate inc d H) as (_ & Hb).
    assert (Hc : (0 <= fst (charge (micro_time_now o) rate inc d))%Q).
    { apply charge_nonneg; try assumption.
      now apply chargedunits_nonneg. }
    destruct (bill_connect o && decrby_ok o); destruct Hb as [-> ->].
    + split; [|reflexivity]. now apply fadd_le_l.
    + split; [apply Qle_refl|assumption].
  - rewrite billed_backward by assumption. split; [apply Qle_refl|assumption].
Qed.

Lemma billed_representable o rate inc d :
  representable (total d) -> representable (total (billed o rate inc d)).
Proof.
  intros Ht. unfold billed.
  destruct (0 <=? sub64 (micro_time_now o) (lastts d)); [|assumption].
  destruct (charge (micro_time_now o) rate inc d) as [amt d1] eqn:E.
  assert (Hd1 : total d1 = total d).
  { unfold charge in E. destruct inc; injection E as _ <-; reflexivity. }
  destruct (bill_connect o && decrby_ok o); cbn [total].
  - apply fadd_representable.
  - now rewrite Hd1.
Qed.

Lemma representable_0 : representable 0.
Proof. unfold representable. now rewrite round_0. Qed.

Lemma after_representable g c o ch :
  match rednibble_data ch with
  | Some d => representable (total d)
  | None => True
  end ->
  match after g c o ch with
  | Some d => representable (total d)
  | None => True
  end.
Proof.
  intros Ht.
  destruct c; cbn [after]; try assumption.
  - destruct (bills ch) eqn:Hb; [|assumption].
    destruct (bills_inv ch Hb) as (rate & _ & _ & Hrate & _).
    destruct (settled_keeps g o ch rate Hrate) as (_ & -> & _).
    apply billed_representable. unfold opening.
    destruct (rednibble_data ch); [assumption|apply representable_0].
  - destruct (rednibble_data ch) as [d|]; cbn [option_map]; [|exact I].
    now destruct (pausets d =? 0).
  - destruct (rednibble_data ch) as [d|]; cbn [option_map]; [|exact I].
    now destruct (pausets d =? 0).
  - now destruct (rednibble_data ch) as [d|].
Qed.

Lemma after_total g c o ch :
  plausible_channel ch -> plausible_time (micro_time_now o) ->
  is_resume c = false ->
  match rednibble_rate ch with Some r => (0 <= r)%Q | None => True end ->
  match rednibble_data ch with
  | Some d => representable (total d)
  | None => True
  end ->
  match rednibble_data ch with
  | Some d => (bill_adjustments d == 0)%Q
  | None => True
  end ->
  (match rednibble_data ch with Some d => total d | None => 0%Q end
   <= match after g c o ch with Some d => total d | None => 0%Q end)%Q
  /\ match after g c o ch with
     | Some d => (bill_adjustments d == 0)%Q
     | None => True
     end.
Proof.
  intros Hp Hn Hc Hr Hd Ha.
  destruct c; try discriminate Hc; cbn [after];
    try (split; [apply Qle_refl|assumption]).
  - (* flush *)
    destruct (bills ch) eqn:Hb; [|split; [apply Qle_refl|assumption]].
    cbv beta iota.
    destruct (bills_inv ch Hb) as (rate & _ & _ & Hrate & _).
    destruct (settled_keeps g o ch rate Hrate) as (_ & -> & ->).
    rewrite Hrate in Hr.
    assert (Ho : (bill_adjustments (opening ch) == 0)%Q).
    { unfold opening. destruct (rednibble_data ch); [assumption|].
      reflexivity. }
    assert (Hod : representable (total (opening ch))).
    { unfold opening. destruct (rednibble_data ch); [assumption|].
      apply representable_0. }
    destruct (billed_total o rate (rednibble_increment ch) (opening ch))
      as [Ht Hadj]; try assumption; [apply Hp|now apply opening_plausible|].
    split; [|exact Hadj].
    eapply Qle_trans; [|exact Ht].
    unfold opening. destruct (rednibble_data ch); apply Qle_refl.
  - (* pause *)
    destruct (rednibble_data ch) as [d|]; cbn [option_map];
      [|split; [apply Qle_refl|exact I]].
    destruct (pausets d =? 0); cbn; split; (apply Qle_refl || assumption).
  - (* reset *)
    destruct (rednibble_data ch) as [d|]; cbn [option_map];
      [|split; [apply Qle_refl|exact I]].
    cbn. split; [apply Qle_refl|assumption].
Qed.

Lemma step_returns g c o w :
  is_resume c = false ->
  exists w', rednibblebill_app_function g c o w = Some w'.
Proof.
  destruct c; try discriminate; intros _;
    cbn [rednibblebill_app_function]; try (eexists; reflexivity).
  destruct (rednibblebill_check g w). eexists; reflexivity.
Qed.

(** What every command keeps: the bounds, the sign of the rate and a
    total that is a double. *)
Lemma step_kept g c o w w' :
  plausible_world w -> nonnegative_rate w -> total_is_double w ->
  plausible_time (micro_time_now o) ->
  rednibblebill_app_function g c o w = Some w' ->
  plausible_world w' /\ nonnegative_rate w' /\ total_is_double w'.
Proof.
  intros Hp Hr Hd Hn Hs.
  split; [now apply (step_plausible g c o w)|].
  unfold nonnegative_rate, total_is_double, get_private in *.
  destruct (channel w) as [ch|] eqn:Hch.
  - destruct (step_data g c o w w' ch Hch Hs) as (ch1 & Hset & ->).
    cbn [rednibble_data with_rednibble_data rednibble_rate].
    unfold settings in Hset. injection Hset as Hrate _ _ _ _ _ _.
    rewrite Hrate. split; [assumption|].
    now apply after_representable.
  - rewrite (step_no_channel g c o w w' Hch Hs). split; exact I.
Qed.

Lemma step_total g c o w w' :
  plausible_world w -> nonnegative_rate w -> total_is_double w ->
  no_credit w ->
  plausible_time (micro_time_now o) -> is_resume c = false ->
  rednibblebill_app_function g c o w = Some w' ->
  no_credit w' /\ (total_billed w <= total_billed w')%Q.
Proof.
  intros Hp Hr Hd Ha Hn Hc Hs.
  unfold nonnegative_rate, no_credit, total_billed, total_is_double,
    get_private, plausible_world in *.
  destruct (channel w) as [ch|] eqn:Hch.
  - destruct (step_data g c o w w' ch Hch Hs) as (ch1 & Hset & ->).
    cbn [rednibble_data with_rednibble_data rednibble_rate].
    destruct (after_total g c o ch Hp Hn Hc Hr Hd Ha) as [Ht Hadj].
    split; assumption.
  - rewrite (step_no_channel g c o w w' Hch Hs).
    split; [exact I|apply Qle_refl].
Qed.

Lemma step_returns_with_rate g c o w ch rate :
  channel w = Some ch -> rednibble_rate ch = Some rate ->
  exists w', rednibblebill_app_function g c o w = Some w'.
Proof.
  intros Hch Hr. destruct c; try (now apply step_returns).
  cbn [rednibblebill_app_function]. unfold rednibblebill_resume.
  rewrite Hch, Hr. destruct (rednibble_data ch) as [d|];
    [destruct (pausets d =? 0)|]; eexists; reflexivity.
Qed.

(** * The reroute *)

Lemma filter_transfer_bill_events o rate inc acct d :
  filter is_transfer (bill_events o rate inc acct d) = [].
Proof.
  unfold bill_events.
  destruct (0 <=? _), (bill_connect o), inc; reflexivity.
Qed.

Lemma filter_transfer_verify_events g o lowbal nobal d :
  filter is_transfer (verify_events g o lowbal nobal d)
  = if out_of_credit o nobal
    then match nobal_action g with
         | Some dst =>
           [session_transfer dst (Some (verified g o lowbal nobal d))]
         | None => []
         end
    else [].
Proof.
  unfold verify_events. rewrite filter_app.
  replace (filter is_transfer (if _ && _ then _ else _)) with (@nil event)
    by (destruct (_ && _), (lowbal_action g); reflexivity).
  destruct (out_of_credit o nobal), (nobal_action g); reflexivity.
Qed.

Lemma verified_pausets g o lowbal nobal d :
  pausets (verified g o lowbal nobal d)
  = if out_of_credit o nobal && (pausets d =? 0)
    then micro_time_pause o else pausets d.
Proof.
  unfold verified.
  destruct (lowbal_fires g o lowbal d); cbn [pausets with_lowbal_action_executed];
    destruct (out_of_credit o nobal && (pausets d =? 0)); reflexivity.
Qed.

Lemma billed_pausets o rate inc d : pausets (billed o rate inc d) = pausets d.
Proof.
  unfold billed, charge.
  destruct (0 <=? _), inc, (bill_connect o && decrby_ok o); reflexivity.
Qed.

(** * Commands that leave the store alone *)

Lemma channel_with_data w ch d :
  channel w = Some ch -> rednibble_data ch = Some d ->
  channel w = Some (with_rednibble_data ch (Some d)).
Proof. intros Hch Hd. now rewrite <- Hd, with_rednibble_data_same. Qed.

(** Pause, resume, check and reset add nothing but log lines to the
    trace. *)
Lemma quiet_step_observed g c o w w' p :
  ignores_plumbing p -> is_quiet c = true ->
  rednibblebill_app_function g c o w = Some w' ->
  observed p w' = observed p w.
Proof.
  intros Hp Hq.
  destruct c; try discriminate Hq; cbn [rednibblebill_app_function].
  - intros [= <-]. unfold rednibblebill_pause.
    destruct (channel w) as [ch|]; [|reflexivity].
    destruct (rednibble_data ch) as [d|]; [|now still].
    destruct (pausets d =? 0); now still.
  - unfold rednibblebill_resume.
    destruct (channel w) as [ch|]; [|now intros [= <-]].
    destruct (rednibble_data ch) as [d|]; [|intros [= <-]; now still].
    destruct (pausets d =? 0); [intros [= <-]; now still|].
    destruct (rednibble_rate ch); [|discriminate].
    intros [= <-]. now still.
  - unfold rednibblebill_check.
    destruct (channel w) as [ch|]; [|intros [= <-]; now still].
    destruct (rednibble_data ch) as [d|]; intros [= <-]; now still.
  - intros [= <-]. unfold rednibblebill_reset.
    destruct (channel w) as [ch|]; [|reflexivity].
    destruct (rednibble_data ch) as [d|]; now still.
Qed.

Lemma step_channel g c o w w' ch :
  channel w = Some ch -> is_flush c = false ->
  rednibblebill_app_function g c o w = Some w' ->
  channel w' = Some (with_rednibble_data ch (after g c o ch)).
Proof.
  intros Hch Hf.
  destruct c; try discriminate Hf;
    cbn [rednibblebill_app_function after].
  - intros [= <-]. rewrite with_rednibble_data_same.
    unfold rednibblebill_adjust. rewrite Hch.
    destruct (rednibble_account ch) as [acct|]; [|assumption].
    pose proof (bill_event_channel o (- amount)%Q acct w) as B.
    destruct (bill_event o (- amount)%Q acct w) as [[] w1];
      cbn [snd log emit channel] in *; congruence.
  - intros [= <-].
    destruct (rednibble_data ch) as [d|] eqn:Hd; cbn [option_map].
    + now apply (rednibblebill_pause_frame g (micro_time_now o) w ch d),
        channel_with_data.
    + rewrite <- Hd, with_rednibble_data_same.
      unfold rednibblebill_pause. rewrite Hch, Hd.
      cbn [log emit channel]. now rewrite channel_lock.
  - unfold rednibblebill_resume. rewrite Hch.
    destruct (rednibble_data ch) as [d|] eqn:Hd; cbn [option_map].
    + destruct (pausets d =? 0).
      * intros [= <-]. now rewrite <- Hd, with_rednibble_data_same.
      * destruct (rednibble_rate ch) as [rate|]; [|discriminate].
        intros [= <-]. rewrite channel_unlock. cbn [log emit channel].
        unfold set_private. now rewrite channel_lock, Hch.
    + intros [= <-]. now rewrite <- Hd, with_rednibble_data_same.
  - unfold rednibblebill_check. rewrite Hch. intros Hs.
    rewrite with_rednibble_data_same.
    destruct (rednibble_data ch); injection Hs as <-;
      cbn [log emit channel]; rewrite ?channel_unlock, ?channel_lock;
      assumption.
  - intros [= <-]. unfold rednibblebill_reset. rewrite Hch.
    destruct (rednibble_data ch) as [d|] eqn:Hd; cbn [option_map].
    + rewrite channel_unlock. cbn [log emit channel].
      unfold set_private. now rewrite channel_lock, Hch.
    + now rewrite <- Hd, with_rednibble_data_same.
Qed.


(** * The claims *)

(** C10 (counterexample): the delta is not always the ceiling of the
    scaled amount, and decoding it can give less than the amount.  A
    charge of 3000 units scales to 3000000000, which no 32-bit [int]
    holds.  The charge of 207 seconds at 0.10 per minute is the double just
    above 0.345; its product with 1000000 is rounded to 345000 before the
    ceiling is taken, so 345000 is sent where the ceiling of the scaled
    amount is 345001, and 345000 millionths are less than the amount. *)
Lemma under_debited_by_range_and_by_rounding :
  (dec_of 3000%Q = INT_MIN
   /\ Qceiling (3000 * 1000000)%Q = 3000000000
   /\ ~ never_under_debited 3000%Q)
  /\ let amount :=
       fst (charge 207000000 (Binary64.round (1 # 10)) None zeroed) in
     (345000 # 1000000 < amount)%Q
     /\ dec_of amount = 345000
     /\ Qceiling (amount * 1000000)%Q = 345001
     /\ (balance_of (inject_Z (dec_of amount)) < amount)%Q
     /\ ~ never_under_debited amount.
Proof.
  split.
  - repeat split; try reflexivity.
    intros [H _]. vm_compute in H. discriminate H.
  - cbv zeta. repeat split; try reflexivity.
    intros [H _]. vm_compute in H. discriminate H.
Qed.

(** C10 (amended): for every charge amount, the delta [bill_event] sends
    to the store with [credis_decrby] is the ceiling of the double product
    [billamount*1000000], when that ceiling fits a 32-bit [int].  The delta
    is at least the rounded product and less than one above it; the
    product being rounded to the nearest double, the debit can fall short
    of the amount, by no more than the amount times 2^-53. *)
Theorem delta_is_ceiling_of_rounded_product (o : oracle) (amount : double)
  (billaccount : string) (w : world) :
  bill_connect o = true ->
  INT_MIN <= Qceiling (fmul amount 1000000) <= INT_MAX ->
  representable amount ->
  In (credis_decrby (rediskey_of billaccount)
        (Qceiling (fmul amount 1000000)))
     (trace (snd (bill_event o amount billaccount w)))
  /\ dec_of amount = Qceiling (fmul amount 1000000)
  /\ (fmul amount 1000000 <= inject_Z (dec_of amount)
      < fmul amount 1000000 + 1)%Q
  /\ (amount - Qabs amount * unit_roundoff
      <= inject_Z (dec_of amount) / 1000000)%Q.
Proof.
  intros Hc Hr Hn.
  assert (Hd : dec_of amount = Qceiling (fmul amount 1000000))
    by (unfold dec_of; now apply int_of_double_ceil).
  split; [rewrite <- Hd; now apply bill_event_decrby|].
  split; [exact Hd|]. rewrite Hd.
  pose proof (Qle_ceiling (fmul amount 1000000)) as C0.
  pose proof (Qceiling_below (fmul amount 1000000)) as C1.
  split; [split; assumption|].
  apply Qle_shift_div_l; [reflexivity|].
  eapply Qle_trans; [|exact C0].
  pose proof (round_error_scaled amount 1000000 Hn ltac:(lia)) as E.
  change (inject_Z 1000000) with 1000000%Q in E.
  rewrite Qabs_Qmult in E. change (Qabs 1000000) with 1000000%Q in E.
  apply Qabs_Qle_condition in E. unfold fmul.
  pose proof unit_roundoff_value as U. rewrite U in *.
  pose proof (Qabs_nonneg amount). lra.
Qed.

(** The double nearest to 1.0000005, the amount of the example of the
    specification. *)
Lemma delta_is_ceiling_of_rounded_product_witness :
  let amount := Binary64.round (10000005 # 10000000) in
  In (credis_decrby "rn_alice" 1000001)
     (trace (snd (bill_event (store_up 0 0) amount "alice"
                    (session_of (call None None None None)))))
  /\ dec_of amount = 1000001
  /\ (fmul amount 1000000 <= inject_Z 1000001
      < fmul amount 1000000 + 1)%Q
  /\ (amount - Qabs amount * unit_roundoff
      <= inject_Z 1000001 / 1000000)%Q.
Proof.
  intros amount.
  apply (delta_is_ceiling_of_rounded_product (store_up 0 0) amount "alice"
           (session_of (call None None None None))).
  - reflexivity.
  - vm_compute. split; discriminate.
  - vm_compute. reflexivity.
Defined.


(** * The global mutex *)

(** C9 (the defect): every command gives the mutex back on every return
    path but one.  [rednibblebill_pause] takes the mutex before it looks
    for the billing data and returns without releasing it when the session
    has none: the calling thread then holds the mutex once more than on
    entry. *)
Theorem mutex_kept_by_pause_uninitialized (g : globals_t) (c : command)
  (o : oracle) (w w' : world) :
  rednibblebill_app_function g c o w = Some w' ->
  lock_depth w'
  = if mutex g && is_pause c && uninitialized w
    then S (lock_depth w) else lock_depth w.
Proof.
  unfold uninitialized.
  destruct c; cbn [rednibblebill_app_function is_pause andb];
    rewrite ?andb_false_r.
  - (* adjust *)
    intros [= <-]. unfold rednibblebill_adjust.
    destruct (channel w) as [ch|]; [|reflexivity].
    destruct (rednibble_account ch) as [acct|]; [|reflexivity].
    pose proof (bill_event_frame o (- amount)%Q acct w) as (_ & _ & B & _).
    destruct (bill_event o (- amount)%Q acct w) as [[] w1]; exact B.
  - (* flush *)
    intros [= <-].
    destruct (channel w) as [ch|] eqn:Hch.
    + destruct (bills ch) eqn:Hb.
      * now destruct (do_billing_bills g o w ch Hch Hb) as (_ & H & _).
      * destruct (do_billing_idle g o w) as (_ & H & _);
          [now rewrite Hch|exact H].
    + destruct (do_billing_idle g o w) as (_ & H & _);
        [now rewrite Hch|exact H].
  - (* pause *)
    intros [= <-]. rewrite andb_true_r. unfold rednibblebill_pause.
    destruct (channel w) as [ch|] eqn:Hch;
      [|now rewrite andb_false_r].
    destruct (rednibble_data ch) as [d|].
    + rewrite andb_false_r, depth_unlock. cbn [log emit lock_depth].
      destruct (pausets d =? 0); rewrite ?depth_set_private, depth_lock;
        now destruct (mutex g).
    + rewrite andb_true_r. cbn [log emit lock_depth]. apply depth_lock.
  - (* resume *)
    unfold rednibblebill_resume.
    destruct (channel w) as [ch|] eqn:Hch; [|now intros [= <-]].
    destruct (rednibble_data ch) as [d|]; [|now intros [= <-]].
    destruct (pausets d =? 0); [now intros [= <-]|].
    destruct (rednibble_rate ch); [|discriminate]. intros [= <-].
    rewrite depth_unlock. cbn [log emit lock_depth].
    rewrite depth_set_private, depth_lock. now destruct (mutex g).
  - (* check *)
    unfold rednibblebill_check.
    destruct (channel w) as [ch|] eqn:Hch; [|now intros [= <-]].
    destruct (rednibble_data ch) as [d|]; [|now intros [= <-]].
    intros [= <-]. cbn [log emit lock_depth].
    rewrite depth_unlock, depth_lock. now destruct (mutex g).
  - (* reset *)
    intros [= <-]. unfold rednibblebill_reset.
    destruct (channel w) as [ch|] eqn:Hch; [|reflexivity].
    destruct (rednibble_data ch) as [d|]; [|reflexivity].
    rewrite depth_unlock. cbn [log emit lock_depth].
    rewrite depth_set_private, depth_lock. now destruct (mutex g).
Qed.

Lemma mutex_kept_by_pause_uninitialized_witness :
  let w := session_of (call (Some 60%Q) None (Some "alice"%string) None) in
  lock_depth w = 0%nat
  /\ lock_depth (rednibblebill_pause globals0 5000000 w) = 1%nat.
Proof.
  intros w. split; [reflexivity|].
  apply (mutex_kept_by_pause_uninitialized globals0 pause
           (store_up 5000000 0) w).
  reflexivity.
Defined.

(** * The charge *)

(** C1 (counterexample): a call answered at second 1 and billed by
    increments of 60 seconds is first billed at second 61.5.  The elapsed
    time, 60.5 seconds, exceeds the increment, so the claim charges two
    increments; the module compares whole seconds, charges one and moves
    the timestamp by 60 seconds only.  And past 2^53 microseconds the
    conversion of the elapsed time to a double loses its last digits:
    with increments of one second, 2^40 seconds and one microsecond after
    the timestamp the module charges 2^40 seconds, less than the time
    elapsed, where the claim charges one second more. *)
Lemma increment_charge_not_as_claimed :
  (let ch := call (Some 60%Q) (Some 60) (Some "alice"%string) None in
   let o := store_up 61500000 1000000000 in
   let w' := do_billing globals0 o (session_of ch) in
   micro_time_now o - lastts (opening ch) = 60500000
   /\ charged_as_claimed 60500000 60 = 120000000
   /\ option_map lastts (get_private w')
      = Some (lastts (opening ch) + 60000000)
   /\ option_map lastts (get_private w')
      <> Some (lastts (opening ch) + charged_as_claimed 60500000 60)
   /\ match observed is_bill_event w' with
      | [call_bill_event billamount _] => (billamount == 60)%Q
      | _ => False
      end)
  /\ let elapsed := 2 ^ 40 * 1000000 + 1 in
     let ch := call (Some 60%Q) (Some 1) (Some "alice"%string)
                 (Some zeroed) in
     let w' := do_billing globals0 (store_up elapsed 1000000000)
                 (session_of ch) in
     2 ^ 53 <= elapsed <= 2 ^ 61
     /\ charged_as_claimed elapsed 1 = (2 ^ 40 + 1) * 1000000
     /\ charged_whole_seconds elapsed 1 = (2 ^ 40 + 1) * 1000000
     /\ option_map lastts (get_private w') = Some (2 ^ 40 * 1000000).
Proof.
  split.
  - vm_compute. repeat split; try discriminate; reflexivity.
  - vm_compute. repeat split; discriminate.
Qed.

(** C1 (amended): on an answered session that is not paused, with a
    non-negative elapsed time [now - lastts] below 2^53 microseconds: with
    an increment of [inc] seconds, the charged units are [inc] seconds when
    the whole seconds of the elapsed time do not exceed [inc], and
    [ceil(elapsed / inc) * inc] seconds otherwise, and [lastts] advances by
    exactly the charged units; with no increment, the charged duration is
    the elapsed time and [lastts] becomes [now]; in both modes [bill_event]
    is called once, with the double the code computes:
    [(rate / 1000000 / 60) * charged microseconds - bill_adjustments],
    each operation rounded to the nearest double; for a rate between 2^-64
    and 2^64 the product is [rate / 60] times the charged seconds to
    within a factor of 1 - 2^-50 and 1 + 2^-50. *)
Theorem charge_by_whole_seconds (g : globals_t) (o : oracle) (w : world)
  (ch : switch_channel_t) (rate : double) (acct : string) :
  channel w = Some ch ->
  rednibble_rate ch = Some rate ->
  rednibble_account ch = Some acct ->
  bills ch = true ->
  plausible_time (micro_time_now o) ->
  0 <= lastts (opening ch) <= micro_time_now o ->
  micro_time_now o - lastts (opening ch) < 2 ^ 53 ->
  match rednibble_increment ch with
  | Some inc => plausible_increment inc
  | None => True
  end ->
  let elapsed := micro_time_now o - lastts (opening ch) in
  let charged :=
    match rednibble_increment ch with
    | Some inc => charged_whole_seconds elapsed inc
    | None => elapsed
    end in
  exists d' billamount,
    get_private (do_billing g o w) = Some d'
    /\ lastts d' = lastts (opening ch) + charged
    /\ observed is_bill_event (do_billing g o w)
       = observed is_bill_event w ++ [call_bill_event billamount acct]
    /\ billamount
       = fsub (fmul (fdiv (fdiv rate 1000000) 60) (to_double charged))
           (bill_adjustments (opening ch))
    /\ ((2 ^ (-64) <= rate <= 2 ^ 64)%Q -> 0 < charged ->
        let ideal := (rate / 60 * (inject_Z charged / 1000000))%Q in
        (ideal * (1 - 2 ^ (-50))
         <= fmul (fdiv (fdiv rate 1000000) 60) (to_double charged)
         <= ideal * (1 + 2 ^ (-50)))%Q).
Proof.
  intros Hch Hr Ha Hb [Hn0 Hn1] [Hl0 Hl1] Hs Hi elapsed charged.
  assert (He : sub64 (micro_time_now o) (lastts (opening ch)) = elapsed).
  { unfold sub64. apply wrap64_small. subst elapsed. lia. }
  assert (He0 : 0 <= sub64 (micro_time_now o) (lastts (opening ch)))
    by (rewrite He; subst elapsed; lia).
  destruct (do_billing_bills g o w ch Hch Hb) as ((ch1 & _ & Hc) & _ & _).
  destruct (settled_keeps g o ch rate Hr) as (Hl & _ & _).
  destruct (billed_elapsed o rate (rednibble_increment ch) (opening ch) He0)
    as (Hbl & _).
  exists (settled g o ch),
    (fst (charge (micro_time_now o) rate (rednibble_increment ch)
            (opening ch))).
  split; [now apply get_private_channel with ch1|].
  split; [|split; [now apply do_billing_calls_bill_event|split]].
  - rewrite Hl, Hbl. unfold charge. subst charged.
    destruct (rednibble_increment ch) as [inc|]; cbn [snd lastts with_lastts].
    + rewrite chargedunits_exact by (subst elapsed; lia || assumption).
      fold elapsed. unfold add64. apply wrap64_small.
      pose proof (charged_whole_seconds_bounds elapsed inc
                    ltac:(subst elapsed; lia) ltac:(apply Hi)) as B.
      destruct Hi as [Hi0 Hi]. subst elapsed. lia.
    + subst elapsed. ring.
  - unfold charge. subst charged.
    destruct (rednibble_increment ch) as [inc|]; cbn [fst].
    + rewrite chargedunits_exact by (subst elapsed; lia || assumption).
      reflexivity.
    + now rewrite He.
  - intros [Hr0 _] Hpos.
    apply (time_charge_accuracy rate charged Hr0 Hpos).
Qed.

Lemma charge_by_whole_seconds_witness :
  exists d' billamount,
    get_private
      (do_billing globals0 (store_up 91000000 1000000000)
         (session_of (call (Some 60%Q) (Some 60) (Some "alice"%string) None)))
    = Some d'
    /\ lastts d' = 1000000 + 120000000
    /\ observed is_bill_event
         (do_billing globals0 (store_up 91000000 1000000000)
            (session_of
               (call (Some 60%Q) (Some 60) (Some "alice"%string) None)))
       = [call_bill_event billamount "alice"]
    /\ billamount
       = fsub (fmul (fdiv (fdiv 60%Q 1000000) 60) (to_double 120000000)) 0%Q
    /\ ((2 ^ (-64) <= 60 <= 2 ^ 64)%Q -> 0 < 120000000 ->
        let ideal := (60 / 60 * (inject_Z 120000000 / 1000000))%Q in
        (ideal * (1 - 2 ^ (-50))
         <= fmul (fdiv (fdiv 60%Q 1000000) 60) (to_double 120000000)
         <= ideal * (1 + 2 ^ (-50)))%Q).
Proof.
  apply (charge_by_whole_seconds globals0 (store_up 91000000 1000000000)
           (session_of (call (Some 60%Q) (Some 60) (Some "alice"%string) None))
           (call (Some 60%Q) (Some 60) (Some "alice"%string) None)
           60%Q "alice"%string);
    try reflexivity.
  - split; vm_compute; discriminate.
  - split; vm_compute; discriminate.
  - split; vm_compute; [reflexivity | discriminate].
Defined.

(** C2 (counterexample): a window consumed by a failed debit is billed
    again after a reset.  A call answered at second 1 and billed by
    increments of 60 seconds is billed at second 2 while the store is
    down: the debit fails and the timestamp moves to second 61.  A reset
    at second 3 brings the timestamp back to second 3, and the billing at
    second 4 debits 60 seconds more, from second 3 to second 63, inside
    the window the failed debit had consumed. *)
Lemma consumed_window_rebilled_after_reset :
  let ch := call (Some 60%Q) (Some 60) (Some "alice"%string) None in
  let w1 := do_billing globals0 (store_down 2000000) (session_of ch) in
  let w2 := rednibblebill_reset globals0 (store_up 3000000 1000000000) w1 in
  let w3 := do_billing globals0 (store_up 4000000 1000000000) w2 in
  debit_succeeds (store_down 2000000) = false
  /\ option_map lastts (get_private w1) = Some 61000000
  /\ option_map total (get_private w1) = Some 0%Q
  /\ option_map lastts (get_private w2) = Some 3000000
  /\ option_map lastts (get_private w3) = Some 63000000
  /\ observed is_bill_event w3
     = [call_bill_event 60%Q "alice"; call_bill_event 60%Q "alice"]
  /\ run globals0
       [(reset, store_up 3000000 1000000000);
        (flush, store_up 4000000 1000000000)] w1
     = Some w3.
Proof. vm_compute. repeat split. Qed.

(** C2 (amended): when the debit of [do_billing] fails nothing is rolled
    back.  The timestamp keeps the value [charge] gave it whatever the
    debit returns; [bill_event] is called exactly once, so the debit is
    not retried; [total] grows by the amount and [bill_adjustments] is
    cleared when the debit succeeds, and both are left as they were when
    it fails; and in every later run of commands that does not reset the
    timestamp, the timestamp stays at or after the advanced value, so no
    later billing charges the consumed window again. *)
Theorem failed_debit_is_not_rolled_back (g : globals_t) (o : oracle)
  (w : world) (ch : switch_channel_t) (rate : double) (acct : string) :
  channel w = Some ch ->
  rednibble_rate ch = Some rate ->
  rednibble_account ch = Some acct ->
  bills ch = true ->
  0 <= sub64 (micro_time_now o) (lastts (opening ch)) ->
  let charged :=
    charge (micro_time_now o) rate (rednibble_increment ch) (opening ch) in
  let w1 := do_billing g o w in
  exists d1,
    get_private w1 = Some d1
    /\ lastts d1 = lastts (snd charged)
    /\ observed is_bill_event w1
       = observed is_bill_event w ++ [call_bill_event (fst charged) acct]
    /\ (if debit_succeeds o
        then total d1 = fadd (total (opening ch)) (fst charged)
             /\ bill_adjustments d1 = 0%Q
        else total d1 = total (opening ch)
             /\ bill_adjustments d1 = bill_adjustments (opening ch))
    /\ forall cs w2,
         plausible_world w1 -> plausible_run cs -> no_reset cs = true ->
         run g cs w1 = Some w2 ->
         exists d2, get_private w2 = Some d2 /\ lastts d1 <= lastts d2.
Proof.
  intros Hch Hr Ha Hb He charged w1.
  destruct (do_billing_bills g o w ch Hch Hb) as ((ch1 & _ & Hc) & _ & _).
  destruct (settled_keeps g o ch rate Hr) as (Hl & Ht & Hadj).
  destruct (billed_elapsed o rate (rednibble_increment ch) (opening ch) He)
    as (Hbl & Hbt).
  assert (Hd1 : get_private w1 = Some (settled g o ch))
    by now apply get_private_channel with ch1.
  exists (settled g o ch). split; [exact Hd1|].
  split; [now rewrite Hl, Hbl|].
  split; [now apply do_billing_calls_bill_event|].
  split.
  - rewrite Ht, Hadj. exact Hbt.
  - intros cs w2 Hp Hrun Hn Hw2.
    now apply (run_lastts g cs w1 w2).
Qed.

(** A debit that fails on a session billed by increments and carrying a
    pause credit: the timestamp moves by one increment, the total and the
    credit stay. *)
Lemma failed_debit_is_not_rolled_back_witness :
  let d := {| lastts := 5000000; total := 3%Q; pausets := 0;
              bill_adjustments := (1 # 4)%Q;
              lowbal_action_executed := 0 |} in
  let ch := call (Some 60%Q) (Some 60) (Some "alice"%string) (Some d) in
  let w1 := do_billing globals0 (store_down 31000000) (session_of ch) in
  exists d1,
    get_private w1 = Some d1
    /\ lastts d1 = 65000000
    /\ observed is_bill_event w1
       = [call_bill_event
            (fst (charge 31000000 60%Q (Some 60) d)) "alice"]
    /\ (total d1 = 3%Q /\ bill_adjustments d1 = (1 # 4)%Q)
    /\ forall cs w2,
         plausible_world w1 -> plausible_run cs -> no_reset cs = true ->
         run globals0 cs w1 = Some w2 ->
         exists d2, get_private w2 = Some d2 /\ lastts d1 <= lastts d2.
Proof.
  intros d ch w1.
  apply (failed_debit_is_not_rolled_back globals0 (store_down 31000000)
           (session_of ch) ch 60%Q "alice"%string);
    try reflexivity.
  vm_compute. discriminate.
Defined.

(** * The total *)

(** C3 (counterexample): a call answered at second 1, billed 60 per
    minute by increments of 60 seconds.  It is billed at second 2 (60
    seconds charged, the total is 60), paused at second 3 and resumed at
    second 203: the session is not paused any more and carries a credit of
    200 seconds.  The billing at second 203 charges 180 seconds less the
    credit, the debit succeeds, and the total falls to 40. *)
Lemma total_falls_after_resume :
  let ch := call (Some 60%Q) (Some 60) (Some "alice"%string) None in
  let before :=
    run globals0
      [(flush, store_up 2000000 1000000000);
       (pause, store_up 3000000 1000000000);
       (resume, store_up 203000000 1000000000)]
      (session_of ch) in
  let o := store_up 203000000 1000000000 in
  match before with
  | Some w =>
    option_map pausets (get_private w) = Some 0
    /\ (total_billed w == 60)%Q
    /\ debit_succeeds o = true
    /\ (total_billed (do_billing globals0 o w) == 40)%Q
    /\ (total_billed (do_billing globals0 o w) < total_billed w)%Q
  | None => False
  end.
Proof. vm_compute. repeat split; discriminate. Qed.

(** C3 (amended): on a session whose rate is not negative, every run of
    commands keeps the rate, the bounds and a total that is a double, and
    runs to its end when it holds no resume.  If the session carries no
    pause credit and the run holds no resume, the only command that
    creates a credit, the total at the end is at least the total at the
    start and the session again has no credit: this holds in particular
    for every sequence of [do_billing] calls, whether their debits succeed
    or fail.  In the state any run leaves, a billing whose debit succeeds
    changes the total to the double sum of the total and of the time
    charge less the pending credit: the total does not fall when the
    credit is at most the time charge, and does not rise when the credit
    is at least the time charge. *)
Theorem total_never_falls_without_credit (g : globals_t)
  (cs : list (command * oracle)) (w : world) :
  plausible_world w -> nonnegative_rate w -> total_is_double w ->
  plausible_run cs ->
  (no_resume cs = true -> exists w', run g cs w = Some w')
  /\ forall w',
       run g cs w = Some w' ->
       plausible_world w' /\ nonnegative_rate w' /\ total_is_double w'
       /\ (no_credit w -> no_resume cs = true ->
           (total_billed w <= total_billed w')%Q /\ no_credit w')
       /\ forall o ch rate,
            channel w' = Some ch ->
            rednibble_rate ch = Some rate ->
            bills ch = true ->
            plausible_time (micro_time_now o) ->
            0 <= sub64 (micro_time_now o) (lastts (opening ch)) ->
            debit_succeeds o = true ->
            let credit := bill_adjustments (opening ch) in
            let due := time_charge (micro_time_now o) rate
                         (rednibble_increment ch) (opening ch) in
            let w'' := do_billing g o w' in
            (0 <= due)%Q
            /\ total_billed w'' = fadd (total_billed w') (fsub due credit)
            /\ ((credit <= due)%Q ->
                (total_billed w' <= total_billed w'')%Q)
            /\ ((due <= credit)%Q ->
                (total_billed w'' <= total_billed w')%Q).
Proof.
  revert w. induction cs as [|[c o] cs IH]; intros w Hp Hr Hd Hrun.
  - split; [intros _; now exists w|].
    intros w' [= <-].
    split; [assumption|]. split; [assumption|]. split; [assumption|].
    split; [intros Ha _; split; [apply Qle_refl|assumption]|].
    intros o ch rate Hch Hrate Hb Hn He Hok credit due w''.
    assert (Hdue : (0 <= due)%Q).
    { subst due. apply time_charge_nonneg; [|assumption|].
      - unfold nonnegative_rate in Hr. now rewrite Hch, Hrate in Hr.
      - apply chargedunits_nonneg; try assumption.
        + unfold plausible_world in Hp. rewrite Hch in Hp. apply Hp.
        + apply opening_plausible; [|assumption].
          unfold plausible_world in Hp. now rewrite Hch in Hp. }
    assert (Ht : total_billed w = total (opening ch)).
    { unfold total_billed, get_private, opening. rewrite Hch.
      now destruct (rednibble_data ch). }
    assert (Hrep : representable (total_billed w)).
    { unfold total_is_double in Hd. unfold total_billed.
      destruct (get_private w); [assumption|apply representable_0]. }
    assert (Ht'' : total_billed w''
                   = fadd (total_billed w) (fsub due credit)).
    { subst w''.
      destruct (do_billing_bills g o w ch Hch Hb) as ((ch1 & _ & Hc) & _).
      unfold total_billed at 1.
      rewrite (get_private_channel _ ch1 _ Hc).
      destruct (settled_keeps g o ch rate Hrate) as (_ & -> & _).
      destruct (billed_elapsed o rate (rednibble_increment ch) (opening ch)
                  He) as (_ & Hbt).
      unfold debit_succeeds in Hok. rewrite Hok in Hbt.
      destruct Hbt as [-> _]. now rewrite charge_time_charge, Ht. }
    split; [exact Hdue|]. split; [exact Ht''|].
    rewrite Ht''. split; intros Hc.
    + apply fadd_le_l; [assumption|]. now apply fsub_sign.
    + apply fadd_ge_l; [assumption|]. now apply fsub_sign.
  - inversion Hrun as [|? ? Ho Hrun']; subst. cbn [snd] in Ho.
    split.
    + intros Hn. cbn [no_resume forallb fst] in Hn.
      apply andb_true_iff in Hn. destruct Hn as [Hc Hn].
      apply negb_true_iff in Hc.
      destruct (step_returns g c o w Hc) as (w1 & Hs).
      destruct (step_kept g c o w w1 Hp Hr Hd Ho Hs) as (Hp1 & Hr1 & Hd1).
      destruct (IH w1 Hp1 Hr1 Hd1 Hrun') as [E _].
      destruct (E Hn) as (w' & Hw'). exists w'. cbn [run]. now rewrite Hs.
    + intros w' Hw'. cbn [run] in Hw'.
      destruct (rednibblebill_app_function g c o w) as [w1|] eqn:Hs;
        [|discriminate].
      destruct (step_kept g c o w w1 Hp Hr Hd Ho Hs) as (Hp1 & Hr1 & Hd1).
      destruct (IH w1 Hp1 Hr1 Hd1 Hrun') as [_ A].
      destruct (A w' Hw') as (Hp' & Hr' & Hd' & Hmono & Hstep).
      split; [assumption|]. split; [assumption|]. split; [assumption|].
      split; [|exact Hstep].
      intros Ha Hn. cbn [no_resume forallb fst] in Hn.
      apply andb_true_iff in Hn. destruct Hn as [Hc Hn].
      apply negb_true_iff in Hc.
      destruct (step_total g c o w w1 Hp Hr Hd Ha Ho Hc Hs) as [Ha1 Hle].
      destruct (Hmono Ha1 Hn) as [Hle' Ha'].
      split; [|assumption].
      now apply Qle_trans with (total_billed w1).
Qed.

Lemma total_never_falls_without_credit_witness :
  let w := session_of
             (call (Some 60%Q) (Some 60) (Some "alice"%string) None) in
  let cs := [(flush, store_up 2000000 1000000000);
             (flush, store_down 70000000);
             (pause, store_up 80000000 1000000000);
             (flush, store_up 90000000 1000000000)] in
  (no_resume cs = true -> exists w', run globals0 cs w = Some w')
  /\ forall w',
       run globals0 cs w = Some w' ->
       plausible_world w' /\ nonnegative_rate w' /\ total_is_double w'
       /\ (no_credit w -> no_resume cs = true ->
           (total_billed w <= total_billed w')%Q /\ no_credit w')
       /\ forall o ch rate,
            channel w' = Some ch ->
            rednibble_rate ch = Some rate ->
            bills ch = true ->
            plausible_time (micro_time_now o) ->
            0 <= sub64 (micro_time_now o) (lastts (opening ch)) ->
            debit_succeeds o = true ->
            let credit := bill_adjustments (opening ch) in
            let due := time_charge (micro_time_now o) rate
                         (rednibble_increment ch) (opening ch) in
            let w'' := do_billing globals0 o w' in
            (0 <= due)%Q
            /\ total_billed w'' = fadd (total_billed w') (fsub due credit)
            /\ ((credit <= due)%Q ->
                (total_billed w' <= total_billed w'')%Q)
            /\ ((due <= credit)%Q ->
                (total_billed w'' <= total_billed w')%Q).
Proof.
  intros w cs.
  apply (total_never_falls_without_credit globals0 cs w).
  - vm_compute. repeat split; discriminate.
  - vm_compute. discriminate.
  - exact I.
  - repeat constructor; vm_compute; discriminate.
Defined.

(** * The timestamp *)

(** C4 (counterexample): a call answered at second 1 and billed by
    increments of 60 seconds is billed at second 2, which pays up to second
    61; a reset at second 3 brings the timestamp back to second 3. *)
Lemma reset_moves_timestamp_back :
  let ch := call (Some 60%Q) (Some 60) (Some "alice"%string) None in
  let w := do_billing globals0 (store_up 2000000 1000000000)
             (session_of ch) in
  let w' := rednibblebill_reset globals0 (store_up 3000000 1000000000) w in
  rednibblebill_app_function globals0 reset
    (store_up 3000000 1000000000) w = Some w'
  /\ match get_private w, get_private w' with
     | Some d, Some d' =>
       lastts d = 61000000 /\ lastts d' = 3000000
       /\ ~ lastts d <= lastts d'
     | _, _ => False
     end.
Proof. vm_compute. repeat split. intros H. now apply H. Qed.

(** C4 (amended): [do_billing] in either charge mode, pause, resume, check
    and adjust leave the timestamp of an initialized session at or after
    its value before the operation; reset sets it to the clock reading,
    whatever it was, so it moves it backward exactly when the timestamp
    was ahead of the clock, as billing by increments leaves it.  Every
    command returns, a resume on a session without a rate excepted. *)
Theorem timestamp_moves_back_only_on_reset (g : globals_t) (c : command)
  (o : oracle) (w : world) (ch : switch_channel_t) (d : rednibble_data_t) :
  channel w = Some ch ->
  rednibble_data ch = Some d ->
  plausible_channel ch ->
  plausible_time (micro_time_now o) ->
  (is_resume c = false \/ rednibble_rate ch <> None ->
   exists w', rednibblebill_app_function g c o w = Some w')
  /\ forall w',
       rednibblebill_app_function g c o w = Some w' ->
       exists d',
         get_private w' = Some d'
         /\ if is_reset c then lastts d' = micro_time_now o
            else lastts d <= lastts d'.
Proof.
  intros Hch Hd Hp Hn. split.
  - intros [Hc|Hr]; [now apply step_returns|].
    destruct (rednibble_rate ch) as [rate|] eqn:Hrate; [|congruence].
    now apply (step_returns_with_rate g c o w ch rate).
  - intros w' Hs. rewrite (get_private_step g c o w w' ch Hch Hs).
    destruct (is_reset c) eqn:Hc.
    + destruct c; try discriminate Hc. cbn [after]. rewrite Hd.
      eexists. split; reflexivity.
    + now apply after_lastts.
Qed.

Lemma timestamp_moves_back_only_on_reset_witness :
  let ch := call (Some 60%Q) (Some 60) (Some "alice"%string)
              (Some (with_lastts zeroed 61000000)) in
  let o := store_up 62000000 1000000000 in
  (is_resume flush = false \/ rednibble_rate ch <> None ->
   exists w',
     rednibblebill_app_function globals0 flush o (session_of ch) = Some w')
  /\ forall w',
       rednibblebill_app_function globals0 flush o (session_of ch)
       = Some w' ->
       exists d', get_private w' = Some d' /\ 61000000 <= lastts d'.
Proof.
  intros ch o.
  apply (timestamp_moves_back_only_on_reset globals0 flush o
           (session_of ch) ch (with_lastts zeroed 61000000)).
  - reflexivity.
  - reflexivity.
  - vm_compute. repeat split; discriminate.
  - vm_compute. split; discriminate.
Defined.

(** * Sessions without billing variables *)




(** * A clock behind the timestamp *)

(** C7 (counterexample): a call billed by increments and paid up to
    second 61 is billed at second 30 while the account is empty.  The
    clock is behind the timestamp and nothing is debited, yet no warning
    is logged, and the balance check that follows runs the low balance
    action and pauses the billing: the billing state is not what it
    was. *)
Lemma backward_clock_changes_state :
  let d := with_lastts zeroed 61000000 in
  let ch := call (Some 60%Q) (Some 60) (Some "alice"%string) (Some d) in
  let o := store_up 30000000 0 in
  let w' := do_billing globals0 o (session_of ch) in
  micro_time_now o < lastts d
  /\ bills ch = true
  /\ observed is_warning w' = []
  /\ get_private w' <> Some d
  /\ option_map pausets (get_private w') = Some 30000000
  /\ option_map lowbal_action_executed (get_private w') = Some 1.
Proof. vm_compute. repeat split; discriminate. Qed.

(** C7 (amended): if the clock is behind the timestamp when [do_billing]
    runs on an answered session that is not paused, then nothing is
    debited (no call of [bill_event], no decrement), the charge is skipped,
    and the timestamp, the total and the pending adjustment are unchanged;
    a warning is logged when no increment is set, and none when one is;
    the balance check still runs unless the call is over, so the low
    balance flag and the pause timestamp are those [verify_balance]
    leaves. *)
Theorem backward_clock_skips_charge (g : globals_t) (o : oracle) (w : world)
  (ch : switch_channel_t) :
  channel w = Some ch ->
  bills ch = true ->
  plausible_time (micro_time_now o) ->
  0 <= lastts (opening ch) <= 2 ^ 62 ->
  micro_time_now o < lastts (opening ch) ->
  let w' := do_billing g o w in
  observed is_debit w' = observed is_debit w
  /\ observed is_warning w'
     = observed is_warning w
       ++ match rednibble_increment ch with
          | None =>
            [switch_log_printf SWITCH_LOG_WARNING
               "Just tried to bill %s negative minutes! That should be impossible."]
          | Some _ => []
          end
  /\ get_private w'
     = Some (if terminal ch then opening ch
             else verified g o (lowbal_of g ch) (nobal_of g ch) (opening ch))
  /\ exists d',
       get_private w' = Some d'
       /\ lastts d' = lastts (opening ch)
       /\ total d' = total (opening ch)
       /\ bill_adjustments d' = bill_adjustments (opening ch).
Proof.
  intros Hch Hb [Hn0 Hn1] Hl Hlt w'. subst w'.
  assert (He : sub64 (micro_time_now o) (lastts (opening ch)) < 0)
    by (unfold sub64; rewrite wrap64_small; lia).
  destruct (bills_inv ch Hb) as (rate & acct & _ & Hr & Ha & _).
  destruct (do_billing_bills g o w ch Hch Hb) as ((ch1 & _ & Hc) & _ & Ho).
  assert (Hbe : bill_events o rate (rednibble_increment ch) acct (opening ch)
                = match rednibble_increment ch with
                  | None =>
                    [switch_log_printf SWITCH_LOG_WARNING
                       "Just tried to bill %s negative minutes! That should be impossible."]
                  | Some _ => []
                  end).
  { unfold bill_events. apply Z.leb_gt in He. now rewrite He. }
  assert (Hs : settled g o ch
               = if terminal ch then opening ch
                 else verified g o (lowbal_of g ch) (nobal_of g ch)
                        (opening ch)).
  { unfold settled. rewrite Hr. now rewrite billed_backward. }
  assert (Hd : get_private (do_billing g o w) = Some (settled g o ch))
    by now apply get_private_channel with ch1.
  split; [|split; [|split]].
  - destruct (Ho is_debit ignores_plumbing_debit)
      as (rate' & acct' & Hr' & Ha' & ->).
    rewrite Hr in Hr'. rewrite Ha in Ha'.
    injection Hr' as <-. injection Ha' as <-. rewrite Hbe.
    replace (if terminal ch then [] else _) with (@nil event)
      by (destruct (terminal ch); [reflexivity|];
          symmetry; now apply filter_verify_events).
    destruct (rednibble_increment ch); cbn [filter is_debit app];
      now rewrite app_nil_r.
  - destruct (Ho is_warning ignores_plumbing_warning)
      as (rate' & acct' & Hr' & Ha' & ->).
    rewrite Hr in Hr'. rewrite Ha in Ha'.
    injection Hr' as <-. injection Ha' as <-. rewrite Hbe.
    replace (if terminal ch then [] else _) with (@nil event)
      by (destruct (terminal ch); [reflexivity|];
          symmetry; now apply filter_verify_events).
    destruct (rednibble_increment ch); cbn [filter is_warning app];
      now rewrite ?app_nil_r.
  - now rewrite Hd, Hs.
  - exists (settled g o ch). split; [exact Hd|].
    destruct (settled_keeps g o ch rate Hr) as (-> & -> & ->).
    now rewrite billed_backward.
Qed.

Lemma backward_clock_skips_charge_witness :
  let d := with_lastts zeroed 61000000 in
  let ch := call (Some 60%Q) None (Some "alice"%string) (Some d) in
  let o := store_up 30000000 1000000000 in
  let w' := do_billing globals0 o (session_of ch) in
  observed is_debit w' = []
  /\ observed is_warning w'
     = [switch_log_printf SWITCH_LOG_WARNING
          "Just tried to bill %s negative minutes! That should be impossible."]
  /\ get_private w'
     = Some (verified globals0 o (lowbal_of globals0 ch)
               (nobal_of globals0 ch) d)
  /\ exists d',
       get_private w' = Some d'
       /\ lastts d' = 61000000
       /\ total d' = 0%Q
       /\ bill_adjustments d' = 0%Q.
Proof.
  intros d ch o w'.
  apply (backward_clock_skips_charge globals0 o (session_of ch) ch).
  - reflexivity.
  - reflexivity.
  - vm_compute. split; discriminate.
  - vm_compute. split; discriminate.
  - reflexivity.
Defined.

(** * The reroute of a call out of credit *)

(** C8: in [do_billing], whenever the balance read after the charge is at
    or below the no-balance threshold and the channel is neither hung up
    nor reporting, the billing is paused before [transfer_call] is
    entered: the reroute finds a non-zero pause timestamp on the channel
    (the clock reading of the pause when billing was running), which is
    also what [do_billing] leaves. *)
Theorem pause_precedes_reroute (g : globals_t) (o : oracle) (w : world)
  (ch : switch_channel_t) (dst : string) :
  channel w = Some ch ->
  bills ch = true ->
  terminal ch = false ->
  out_of_credit o (nobal_of g ch) = true ->
  nobal_action g = Some dst ->
  0 < micro_time_pause o ->
  let w' := do_billing g o w in
  exists d,
    observed is_transfer w'
    = observed is_transfer w ++ [session_transfer dst (Some d)]
    /\ pausets d <> 0
    /\ (pausets (opening ch) = 0 -> pausets d = micro_time_pause o)
    /\ get_private w' = Some d.
Proof.
  intros Hch Hb Ht Hout Hdst Hclock w'. subst w'.
  destruct (bills_inv ch Hb) as (rate & acct & _ & Hr & Ha & _).
  destruct (do_billing_bills g o w ch Hch Hb) as ((ch1 & _ & Hc) & _ & Ho).
  destruct (Ho is_transfer ignores_plumbing_transfer)
    as (rate' & acct' & Hr' & Ha' & Htr).
  rewrite Hr in Hr'. rewrite Ha in Ha'.
  injection Hr' as <-. injection Ha' as <-.
  rewrite Ht, filter_transfer_bill_events, filter_transfer_verify_events,
    Hout, Hdst in Htr. cbn [app] in Htr.
  assert (Hs : settled g o ch
               = verified g o (lowbal_of g ch) (nobal_of g ch)
                   (billed o rate (rednibble_increment ch) (opening ch))).
  { unfold settled. now rewrite Hr, Ht. }
  exists (settled g o ch). rewrite Hs.
  assert (Hp : pausets
                 (verified g o (lowbal_of g ch) (nobal_of g ch)
                    (billed o rate (rednibble_increment ch) (opening ch)))
               = if pausets (opening ch) =? 0
                 then micro_time_pause o else pausets (opening ch)).
  { now rewrite verified_pausets, billed_pausets, Hout. }
  split; [exact Htr|]. rewrite Hp. split; [|split].
  - destruct (Z.eqb_spec (pausets (opening ch)) 0); lia.
  - now intros ->.
  - rewrite <- Hs. now apply get_private_channel with ch1.
Qed.

Lemma pause_precedes_reroute_witness :
  let ch := call (Some 60%Q) None (Some "alice"%string) None in
  let o := store_up 31000000 0 in
  let w' := do_billing globals0 o (session_of ch) in
  exists d,
    observed is_transfer w' = [session_transfer "hangup" (Some d)]
    /\ pausets d <> 0
    /\ (pausets (opening ch) = 0 -> pausets d = 31000000)
    /\ get_private w' = Some d.
Proof.
  intros ch o w'.
  apply (pause_precedes_reroute globals0 o (session_of ch) ch
           "hangup"%string); reflexivity.
Defined.

(** * Beyond the claims: the engine *)

Lemma ignores_plumbing_exec : ignores_plumbing is_exec.
Proof. intros [] H; try discriminate H; reflexivity. Qed.

#[local] Hint Resolve ignores_plumbing_exec : frames.

(** X1: a pause on a session that is already paused keeps the timestamp
    of the first pause, and a pause changes nothing in the billing data
    but the pause timestamp. *)
Theorem pause_keeps_first_timestamp (g : globals_t) (t1 t2 : Z) (w : world)
  (ch : switch_channel_t) (d : rednibble_data_t) :
  channel w = Some ch ->
  rednibble_data ch = Some d ->
  t1 <> 0 ->
  let w1 := rednibblebill_pause g t1 w in
  let w2 := rednibblebill_pause g t2 w1 in
  exists d1,
    get_private w1 = Some d1
    /\ get_private w2 = Some d1
    /\ pausets d1 = (if pausets d =? 0 then t1 else pausets d)
    /\ pausets d1 <> 0
    /\ lastts d1 = lastts d /\ total d1 = total d
    /\ bill_adjustments d1 = bill_adjustments d
    /\ lowbal_action_executed d1 = lowbal_action_executed d.
Proof.
  intros Hch Hd Ht w1 w2.
  pose proof (rednibblebill_pause_frame g t1 w ch d
                (channel_with_data w ch d Hch Hd)) as (Hc1 & _).
  fold w1 in Hc1.
  set (d1 := if pausets d =? 0 then with_pausets d t1 else d) in *.
  assert (Hp : pausets d1 = (if pausets d =? 0 then t1 else pausets d))
    by (subst d1; now destruct (pausets d =? 0)).
  assert (Hnz : pausets d1 <> 0).
  { rewrite Hp. destruct (Z.eqb_spec (pausets d) 0); assumption. }
  pose proof (rednibblebill_pause_frame g t2 w1 ch d1 Hc1) as (Hc2 & _).
  fold w2 in Hc2.
  apply Z.eqb_neq in Hnz. rewrite Hnz in Hc2. apply Z.eqb_neq in Hnz.
  exists d1. split; [now apply get_private_channel with ch|].
  split; [now apply get_private_channel with ch|].
  split; [exact Hp|]. split; [exact Hnz|].
  subst d1. now destruct (pausets d =? 0).
Qed.

Lemma pause_keeps_first_timestamp_witness :
  let d := with_lastts zeroed 5000000 in
  let w := session_of (call (Some 60%Q) None (Some "alice"%string) (Some d)) in
  let w1 := rednibblebill_pause globals0 7000000 w in
  let w2 := rednibblebill_pause globals0 9000000 w1 in
  exists d1,
    get_private w1 = Some d1
    /\ get_private w2 = Some d1
    /\ pausets d1 = 7000000
    /\ pausets d1 <> 0
    /\ lastts d1 = 5000000 /\ total d1 = 0%Q
    /\ bill_adjustments d1 = 0%Q
    /\ lowbal_action_executed d1 = 0.
Proof.
  intros d w w1 w2.
  apply (pause_keeps_first_timestamp globals0 7000000 9000000 w
           (call (Some 60%Q) None (Some "alice"%string) (Some d)) d);
    [reflexivity | reflexivity | discriminate].
Defined.

Lemma rednibblebill_resume_frame g o w ch d rate :
  channel w = Some (with_rednibble_data ch (Some d)) ->
  rednibble_rate ch = Some rate ->
  pausets d <> 0 ->
  exists w',
    rednibblebill_resume g o w = Some w'
    /\ channel w' = Some (with_rednibble_data ch (Some (resumed o rate d)))
    /\ lock_depth w' = lock_depth w
    /\ forall p, ignores_plumbing p -> observed p w' = observed p w.
Proof.
  intros Hch Hr Hp. unfold rednibblebill_resume. rewrite Hch.
  cbn [rednibble_data rednibble_rate with_rednibble_data].
  apply Z.eqb_neq in Hp. rewrite Hp, Hr.
  eexists. split; [reflexivity|]. repeat split.
  - rewrite channel_unlock. cbn [log emit channel]. unfold set_private.
    now rewrite channel_lock, Hch.
  - rewrite depth_unlock. cbn [log emit lock_depth].
    rewrite depth_set_private, depth_lock. now destruct (mutex g).
  - intros p Hq. now still.
Qed.

(** X2: a resume on a paused session adds to the pending adjustment the
    credit for the paused time, [(rate / 1000000 / 60) * (now - pausets)]
    as the code rounds it, clears the pause timestamp and leaves the rest
    of the billing data, the mutex and the store alone; with a rate that
    is not negative the credit is not negative, and a pending adjustment
    that is a double does not fall; for a rate between 2^-64 and 2^64 the
    credit is [rate / 60] times the paused seconds to within a factor of
    1 - 2^-50 and 1 + 2^-50; on a session that is not paused the resume
    leaves the channel as it was. *)
Theorem resume_credits_paused_time (g : globals_t) (o : oracle) (w : world)
  (ch : switch_channel_t) (d : rednibble_data_t) (rate : double) :
  channel w = Some ch ->
  rednibble_data ch = Some d ->
  rednibble_rate ch = Some rate ->
  plausible_time (micro_time_now o) ->
  0 <= pausets d <= micro_time_now o ->
  exists w',
    rednibblebill_resume g o w = Some w'
    /\ lock_depth w' = lock_depth w
    /\ observed is_debit w' = observed is_debit w
    /\ if pausets d =? 0 then channel w' = channel w
       else exists d',
           get_private w' = Some d'
           /\ pausets d' = 0
           /\ (let credit :=
                 fmul (fdiv (fdiv rate 1000000) 60)
                   (to_double (micro_time_now o - pausets d)) in
               bill_adjustments d' = fadd (bill_adjustments d) credit
               /\ ((0 <= rate)%Q ->
                   (0 <= credit)%Q
                   /\ (representable (bill_adjustments d) ->
                       (bill_adjustments d <= bill_adjustments d')%Q))
               /\ ((2 ^ (-64) <= rate <= 2 ^ 64)%Q ->
                   pausets d < micro_time_now o ->
                   let ideal :=
                     (rate / 60
                      * (inject_Z (micro_time_now o - pausets d) / 1000000))%Q
                   in
                   (ideal * (1 - 2 ^ (-50)) <= credit
                    <= ideal * (1 + 2 ^ (-50)))%Q))
           /\ lastts d' = lastts d /\ total d' = total d
           /\ lowbal_action_executed d' = lowbal_action_executed d.
Proof.
  intros Hch Hd Hr [Hn0 Hn1] Hp.
  destruct (Z.eqb_spec (pausets d) 0) as [Hz|Hnz].
  - unfold rednibblebill_resume. rewrite Hch, Hd.
    apply Z.eqb_eq in Hz. rewrite Hz.
    eexists. split; [reflexivity|]. repeat split; [now still|exact Hch].
  - destruct (rednibblebill_resume_frame g o w ch d rate
                (channel_with_data w ch d Hch Hd) Hr Hnz)
      as (w' & Hw' & Hc & Hl & Ho).
    exists w'. split; [exact Hw'|]. split; [exact Hl|].
    split; [now apply Ho; auto with frames|].
    exists (resumed o rate d).
    split; [now apply get_private_channel with ch|].
    cbn [resumed pausets bill_adjustments lastts total
           lowbal_action_executed].
    unfold sub64. rewrite wrap64_small by lia.
    fold (rate_per_usec rate).
    split; [reflexivity|]. split; [|repeat split].
    cbv zeta. split; [reflexivity|]. split.
    + intros Hrate.
      assert (Hcr : (0 <= fmul (rate_per_usec rate)
                            (to_double (micro_time_now o - pausets d)))%Q).
      { unfold fmul. apply round_nonneg, Qmult_le_0_compat.
        - now apply rate_per_usec_nonneg.
        - apply to_double_nonneg. lia. }
      split; [exact Hcr|]. intros Hrep. now apply fadd_le_l.
    + intros [Hr0 _] Hlt.
      apply (time_charge_accuracy rate (micro_time_now o - pausets d) Hr0).
      lia.
Qed.

Lemma resume_credits_paused_time_witness :
  let d := with_pausets (with_lastts zeroed 5000000) 7000000 in
  let ch := call (Some 60%Q) None (Some "alice"%string) (Some d) in
  let o := store_up 67000000 0 in
  exists w',
    rednibblebill_resume globals0 o (session_of ch) = Some w'
    /\ lock_depth w' = 0%nat
    /\ observed is_debit w' = []
    /\ exists d',
         get_private w' = Some d'
         /\ pausets d' = 0
         /\ (let credit :=
               fmul (fdiv (fdiv 60 1000000) 60)
                 (to_double (67000000 - 7000000)) in
             bill_adjustments d' = fadd 0 credit
             /\ ((0 <= 60)%Q ->
                 (0 <= credit)%Q
                 /\ (representable 0 -> (0 <= bill_adjustments d')%Q))
             /\ ((2 ^ (-64) <= 60 <= 2 ^ 64)%Q ->
                 7000000 < 67000000 ->
                 let ideal :=
                   (60 / 60 * (inject_Z (67000000 - 7000000) / 1000000))%Q
                 in
                 (ideal * (1 - 2 ^ (-50)) <= credit
                  <= ideal * (1 + 2 ^ (-50)))%Q))
         /\ lastts d' = 5000000 /\ total d' = 0%Q
         /\ lowbal_action_executed d' = 0.
Proof.
  intros d ch o.
  apply (resume_credits_paused_time globals0 o (session_of ch) ch d 60%Q);
    try reflexivity; vm_compute; split; discriminate.
Defined.

(** X3: paused time is not charged.  On a running session billed by
    elapsed time, a pause, a resume and then a billing call [bill_event]
    once, with the charge for all the time elapsed since the last billing
    less the credit of the resume, which is the charge for the time spent
    paused added to what adjustment was already pending; for a rate
    between 2^-64 and 2^64 the charge for a time is [rate / 60] times its
    seconds to within a factor of 1 - 2^-50 and 1 + 2^-50. *)
Theorem paused_time_is_not_charged (g : globals_t) (o1 o2 o3 : oracle)
  (w : world) (ch : switch_channel_t) (d : rednibble_data_t)
  (rate : double) (acct : string) :
  channel w = Some ch ->
  rednibble_data ch = Some d ->
  rednibble_rate ch = Some rate ->
  rednibble_account ch = Some acct ->
  rednibble_increment ch = None ->
  bills ch = true ->
  pausets d = 0 ->
  0 < micro_time_now o1 <= micro_time_now o2 ->
  plausible_time (micro_time_now o2) ->
  plausible_time (micro_time_now o3) ->
  0 <= lastts d <= micro_time_now o3 ->
  exists w' billamount,
    run g [(pause, o1); (resume, o2); (flush, o3)] w = Some w'
    /\ observed is_bill_event w'
       = observed is_bill_event w ++ [call_bill_event billamount acct]
    /\ (let due n := fmul (rate_per_usec rate) (to_double n) in
        billamount
        = fsub (due (micro_time_now o3 - lastts d))
            (fadd (bill_adjustments d)
               (due (micro_time_now o2 - micro_time_now o1)))
        /\ ((2 ^ (-64) <= rate <= 2 ^ 64)%Q ->
            forall n, 0 < n ->
              let ideal := (rate / 60 * (inject_Z n / 1000000))%Q in
              (ideal * (1 - 2 ^ (-50)) <= due n
               <= ideal * (1 + 2 ^ (-50)))%Q)).
Proof.
  intros Hch Hd Hr Ha Hi Hb Hp [H1 H12] [_ H2] [H30 H31] [Hl0 Hl1].
  cbn [run rednibblebill_app_function].
  (* the pause *)
  pose proof (rednibblebill_pause_frame g (micro_time_now o1) w ch d
                (channel_with_data w ch d Hch Hd)) as (Hc1 & _ & Ho1).
  rewrite Hp in Hc1. cbn [Z.eqb] in Hc1.
  set (w1 := rednibblebill_pause g (micro_time_now o1) w) in *.
  (* the resume *)
  destruct (rednibblebill_resume_frame g o2 w1 ch
              (with_pausets d (micro_time_now o1)) rate Hc1 Hr
              ltac:(cbn; lia))
    as (w2 & Hw2 & Hc2 & _ & Ho2).
  rewrite Hw2.
  set (d2 := resumed o2 rate (with_pausets d (micro_time_now o1))) in *.
  set (ch2 := with_rednibble_data ch (Some d2)) in *.
  (* the billing *)
  destruct (bills_inv ch Hb) as (_ & _ & ans & _ & _ & Hans & Hans1 & _).
  assert (Hb2 : bills ch2 = true).
  { unfold bills, opening. subst ch2. cbn. rewrite Hr, Ha, Hans.
    destruct (Z.ltb_spec ans 1); [lia|reflexivity]. }
  assert (He : sub64 (micro_time_now o3) (lastts (opening ch2))
               = micro_time_now o3 - lastts d)
    by (unfold sub64; cbn; apply wrap64_small; lia).
  pose proof (do_billing_calls_bill_event g o3 w2 ch2 rate acct Hc2 Hb2
                Hr Ha ltac:(rewrite He; lia)) as Hcall.
  eexists. eexists. split; [reflexivity|].
  split.
  - rewrite Hcall, (Ho2 _ ignores_plumbing_bill_event),
      (Ho1 _ ignores_plumbing_bill_event). reflexivity.
  - change (rednibble_increment ch2) with (rednibble_increment ch).
    rewrite Hi. unfold charge. cbn [fst]. rewrite He.
    unfold opening, ch2, d2.
    cbn [rednibble_data with_rednibble_data bill_adjustments resumed
           pausets with_pausets].
    unfold sub64. rewrite wrap64_small by lia.
    split; [reflexivity|].
    intros [Hr0 _] n Hn. now apply time_charge_accuracy.
Qed.

Lemma paused_time_is_not_charged_witness :
  let d := with_lastts zeroed 5000000 in
  let ch := call (Some 60%Q) None (Some "alice"%string) (Some d) in
  exists w' billamount,
    run globals0
      [(pause, store_up 7000000 1000000000);
       (resume, store_up 67000000 1000000000);
       (flush, store_up 75000000 1000000000)]
      (session_of ch)
    = Some w'
    /\ observed is_bill_event w' = [call_bill_event billamount "alice"]
    /\ (let due n := fmul (rate_per_usec 60%Q) (to_double n) in
        billamount
        = fsub (due (75000000 - 5000000))
            (fadd 0 (due (67000000 - 7000000)))
        /\ ((2 ^ (-64) <= 60 <= 2 ^ 64)%Q ->
            forall n, 0 < n ->
              let ideal := (60 / 60 * (inject_Z n / 1000000))%Q in
              (ideal * (1 - 2 ^ (-50)) <= due n
               <= ideal * (1 + 2 ^ (-50)))%Q)).
Proof.
  intros d ch.
  apply (paused_time_is_not_charged globals0
           (store_up 7000000 1000000000) (store_up 67000000 1000000000)
           (store_up 75000000 1000000000) (session_of ch) ch d 60%Q
           "alice"%string);
    try reflexivity; vm_compute; split; first [reflexivity | discriminate].
Defined.

(** * Beyond the claims: the paths of [do_billing] *)

Lemma do_billing_unanswered g o w ch :
  channel w = Some ch -> unanswered ch = true ->
  let w' := do_billing g o w in
  channel w' = channel w
  /\ lock_depth w' = lock_depth w
  /\ forall p, ignores_plumbing p ->
       observed p w'
       = observed p w
         ++ filter p (reroute g o (nobal_of g ch) (rednibble_data ch)).
Proof.
  intros Hch. unfold do_billing, unanswered, reroute, out_of_credit.
  rewrite Hch.
  destruct (rednibble_rate ch) as [rate|]; [|discriminate].
  destruct (rednibble_account ch) as [acct|]; [|discriminate].
  destruct (answered ch) as [ans|]; [|discriminate].
  intros ->. fold (nobal_of g ch).
  pose proof (get_balance_frame o acct
                (log SWITCH_LOG_DEBUG
                   "Not billing %s - call is not in answered state"
                   (log SWITCH_LOG_DEBUG
                      "Attempting to bill at %s per minute to account %s"
                      w))) as F.
  destruct (get_balance o acct _) as [balance w1].
  cbn [fst snd log emit channel lock_depth] in F.
  destruct F as (-> & Fc & Fd & Fo).
  destruct (Qle_bool _ (nobal_of g ch)).
  - pose proof (transfer_call_frame (nobal_action g)
                  (log SWITCH_LOG_DEBUG
                     "Balance of %f fell below allowed amount of %f! (Account %s)"
                     (log SWITCH_LOG_DEBUG
                        "Comparing %f to hangup balance of %f" w1))) as T.
    cbv zeta in T. cbn [log emit channel lock_depth] in T.
    destruct T as (Tc & Td & To).
    cbv zeta. rewrite Tc, Td. repeat split; try congruence.
    intros p Hp. rewrite To. still. rewrite Fo by assumption. still.
    unfold get_private. cbn [log emit channel]. now rewrite Fc, Hch.
  - cbv zeta. cbn [log emit channel lock_depth].
    repeat split; try congruence.
    intros p Hp. still. rewrite Fo by assumption. still.
    cbn [filter]. now rewrite app_nil_r.
Qed.

Lemma do_billing_quiet g o w :
  match channel w with
  | Some ch => bills ch = false /\ unanswered ch = false
  | None => True
  end ->
  let w' := do_billing g o w in
  channel w' = channel w
  /\ lock_depth w' = lock_depth w
  /\ forall p, ignores_plumbing p -> observed p w' = observed p w.
Proof.
  intros H.
  destruct (do_billing_idle g o w) as (Hc & Hl & _);
    [destruct (channel w); [apply H|exact I]|].
  cbv zeta. split; [exact Hc|]. split; [exact Hl|]. clear Hc Hl.
  intros p Hp. unfold do_billing.
  destruct (channel w) as [ch|]; [|reflexivity].
  destruct H as [Hb Hu]. unfold bills, unanswered, opening in Hb, Hu.
  destruct (rednibble_rate ch) as [rate|]; [|reflexivity].
  destruct (rednibble_account ch) as [acct|]; [|reflexivity].
  destruct (answered ch) as [ans|]; [|now still].
  rewrite Hu in *. cbn [negb andb] in Hb.
  destruct (rednibble_data ch) as [d|]; [|discriminate].
  apply negb_false_iff in Hb. rewrite Hb. now still.
Qed.

Lemma billed_flag o rate inc d :
  lowbal_action_executed (billed o rate inc d) = lowbal_action_executed d.
Proof.
  unfold billed, charge.
  destruct (0 <=? _), inc, (bill_connect o && decrby_ok o); reflexivity.
Qed.

Lemma filter_bill_events p o rate inc acct d :
  (forall a b, p (call_bill_event a b) = false) ->
  (forall k n, p (credis_decrby k n) = false) ->
  (forall f, p (switch_log_printf SWITCH_LOG_WARNING f) = false) ->
  filter p (bill_events o rate inc acct d) = [].
Proof.
  intros H1 H2 H3. unfold bill_events.
  destruct (0 <=? _), (bill_connect o), inc; cbn [filter];
    rewrite ?H1, ?H2, ?H3; reflexivity.
Qed.

(** What [do_billing] adds to the trace on each of its paths, the plumbing
    left out. *)
Lemma do_billing_observed g o w ch p :
  channel w = Some ch -> ignores_plumbing p ->
  observed p (do_billing g o w)
  = observed p w
    ++ if bills ch then
         filter p
           (bill_events o
              (match rednibble_rate ch with Some r => r | None => 0%Q end)
              (rednibble_increment ch)
              (match rednibble_account ch with
               | Some a => a
               | None => EmptyString
               end)
              (opening ch))
         ++ (if terminal ch then []
             else filter p
                    (verify_events g o (lowbal_of g ch) (nobal_of g ch)
                       (billed o
                          (match rednibble_rate ch with
                           | Some r => r
                           | None => 0%Q
                           end)
                          (rednibble_increment ch) (opening ch))))
       else if unanswered ch then
         filter p (reroute g o (nobal_of g ch) (rednibble_data ch))
       else [].
Proof.
  intros Hch Hp. destruct (bills ch) eqn:Hb.
  - destruct (do_billing_bills g o w ch Hch Hb) as (_ & _ & Ho).
    destruct (Ho p Hp) as (rate & acct & -> & -> & ->). reflexivity.
  - destruct (unanswered ch) eqn:Hu.
    + now apply do_billing_unanswered.
    + rewrite app_nil_r. apply do_billing_quiet; [|assumption].
      rewrite Hch. now split.
Qed.

Lemma filter_transfer_reroute g o nobal seen :
  filter is_transfer (reroute g o nobal seen) = reroute g o nobal seen.
Proof.
  unfold reroute. now destruct (out_of_credit o nobal), (nobal_action g).
Qed.

Lemma filter_reroute p g o nobal seen :
  (forall x s, p (session_transfer x s) = false) ->
  filter p (reroute g o nobal seen) = [].
Proof.
  intros H. unfold reroute.
  destruct (out_of_credit o nobal), (nobal_action g); cbn [filter];
    rewrite ?H; reflexivity.
Qed.

(** X4: before the call is answered [do_billing] charges nothing: it
    debits nothing, creates no billing data, leaves the mutex alone, and
    reroutes the call exactly when the balance read is at or below the
    no-balance threshold, whatever the channel state and without pausing
    first: the reroute finds the private data as they were. *)
Theorem unanswered_call_is_checked_not_charged (g : globals_t) (o : oracle)
  (w : world) (ch : switch_channel_t) :
  channel w = Some ch ->
  unanswered ch = true ->
  let w' := do_billing g o w in
  channel w' = Some ch
  /\ lock_depth w' = lock_depth w
  /\ observed is_debit w' = observed is_debit w
  /\ observed is_exec w' = observed is_exec w
  /\ observed is_transfer w'
     = observed is_transfer w
       ++ reroute g o (nobal_of g ch) (rednibble_data ch).
Proof.
  intros Hch Hu.
  destruct (do_billing_unanswered g o w ch Hch Hu) as (Hc & Hl & Ho).
  cbv zeta. split; [congruence|]. split; [exact Hl|].
  rewrite !Ho by auto with frames.
  rewrite filter_transfer_reroute, !filter_reroute by reflexivity.
  now rewrite !app_nil_r.
Qed.

Lemma unanswered_call_is_checked_not_charged_witness :
  let ch :=
    {| rednibble_rate := Some 60%Q; rednibble_increment := None;
       rednibble_account := Some "alice"%string;
       var_nobal_amt := None; var_lowbal_amt := None;
       rednibble_total_billed := None;
       answered := Some 0; channel_state := CS_ROUTING;
       rednibble_data := None |} in
  let w' := do_billing globals0 (store_up 5000000 0) (session_of ch) in
  channel w' = Some ch
  /\ lock_depth w' = 0%nat
  /\ observed is_debit w' = []
  /\ observed is_exec w' = []
  /\ observed is_transfer w' = [session_transfer "hangup" None].
Proof.
  intros ch w'.
  apply (unanswered_call_is_checked_not_charged globals0
           (store_up 5000000 0) (session_of ch) ch); reflexivity.
Defined.

(** X5: a store that cannot be read never cuts a call off.  When the
    connection or the read fails and the no-balance threshold is below 1,
    [do_billing] reroutes nothing and pauses nothing, answered or not. *)
Theorem unreadable_store_never_reroutes (g : globals_t) (o : oracle)
  (w : world) (ch : switch_channel_t) :
  channel w = Some ch ->
  balance_connect o = false \/ balance_reply o = None ->
  (nobal_of g ch < 1)%Q ->
  let w' := do_billing g o w in
  observed is_transfer w' = observed is_transfer w
  /\ forall d', get_private w' = Some d' -> pausets d' = pausets (opening ch).
Proof.
  intros Hch Hfail Hlt.
  assert (Hout : out_of_credit o (nobal_of g ch) = false).
  { unfold out_of_credit.
    replace (fail_open_balance (balance_connect o) (balance_reply o))
      with 1%Q
      by (unfold fail_open_balance; destruct Hfail as [-> | ->];
          [reflexivity | now destruct (balance_connect o)]).
    destruct (Qle_bool 1 (nobal_of g ch)) eqn:H; [|reflexivity].
    apply Qle_bool_iff in H. now apply Qle_not_lt in H. }
  cbv zeta. split.
  - rewrite (do_billing_observed g o w ch) by auto with frames.
    rewrite filter_transfer_bill_events, filter_transfer_verify_events,
      filter_transfer_reroute.
    unfold reroute. rewrite Hout.
    destruct (bills ch), (terminal ch), (unanswered ch);
      now rewrite ?app_nil_r.
  - intros d' Hd'.
    rewrite (get_private_step g flush o w (do_billing g o w) ch Hch eq_refl)
      in Hd'.
    cbn [after] in Hd'. destruct (bills ch) eqn:Hb.
    + injection Hd' as <-. unfold settled.
      destruct (terminal ch);
        rewrite ?verified_pausets, billed_pausets, ?Hout; reflexivity.
    + now rewrite (opening_data ch d' Hd').
Qed.

Lemma unreadable_store_never_reroutes_witness :
  let ch := call (Some 60%Q) None (Some "alice"%string) None in
  let w' := do_billing globals0 (store_down 31000000) (session_of ch) in
  observed is_transfer w' = []
  /\ forall d', get_private w' = Some d' -> pausets d' = 0.
Proof.
  intros ch w'.
  apply (unreadable_store_never_reroutes globals0 (store_down 31000000)
           (session_of ch) ch); [reflexivity | now left | reflexivity].
Defined.

(** X6: the billing of a call that is hung up or reporting charges like
    any other and skips the balance check: no low balance action, no
    reroute, and the data are those the charge leaves, with the pause
    timestamp and the low balance flag untouched. *)
Theorem final_billing_skips_balance_check (g : globals_t) (o : oracle)
  (w : world) (ch : switch_channel_t) (rate : double) :
  channel w = Some ch ->
  bills ch = true ->
  terminal ch = true ->
  rednibble_rate ch = Some rate ->
  let w' := do_billing g o w in
  get_private w'
  = Some (billed o rate (rednibble_increment ch) (opening ch))
  /\ observed is_exec w' = observed is_exec w
  /\ observed is_transfer w' = observed is_transfer w.
Proof.
  intros Hch Hb Ht Hr. cbv zeta. split.
  - rewrite (get_private_step g flush o w (do_billing g o w) ch Hch eq_refl).
    cbn [after]. unfold settled. now rewrite Hb, Ht, Hr.
  - rewrite !(do_billing_observed g o w ch) by auto with frames.
    rewrite Hb, Ht, filter_transfer_bill_events,
      filter_bill_events by reflexivity.
    now rewrite !app_nil_r.
Qed.

Lemma final_billing_skips_balance_check_witness :
  let ch :=
    {| rednibble_rate := Some 60%Q; rednibble_increment := None;
       rednibble_account := Some "alice"%string;
       var_nobal_amt := None; var_lowbal_amt := None;
       rednibble_total_billed := None;
       answered := Some 1000000; channel_state := CS_HANGUP;
       rednibble_data := None |} in
  let o := store_up 31000000 0 in
  let w' := do_billing globals0 o (session_of ch) in
  get_private w' = Some (billed o 60%Q None (opening ch))
  /\ observed is_exec w' = []
  /\ observed is_transfer w' = [].
Proof.
  intros ch o w'.
  apply (final_billing_skips_balance_check globals0 o (session_of ch) ch
           60%Q); reflexivity.
Defined.

(** * Beyond the claims: the low balance action *)

Lemma verified_flag g o lowbal nobal d :
  lowbal_action_executed (verified g o lowbal nobal d)
  = if lowbal_fires g o lowbal d then 1 else lowbal_action_executed d.
Proof.
  unfold verified.
  destruct (lowbal_fires g o lowbal d);
    cbn [pausets with_lowbal_action_executed];
    destruct (out_of_credit o nobal && _); reflexivity.
Qed.

Lemma filter_exec_verify_events g o lowbal nobal d :
  filter is_exec (verify_events g o lowbal nobal d)
  = if (lowbal_action_executed d =? 0)
       && Qle_bool (fail_open_balance (balance_connect o) (balance_reply o))
            lowbal
    then match lowbal_action g with
         | Some app => [execute_application app]
         | None => []
         end
    else [].
Proof.
  unfold verify_events. rewrite filter_app.
  replace (filter is_exec (if out_of_credit o nobal then _ else _))
    with (@nil event)
    by (destruct (out_of_credit o nobal), (nobal_action g); reflexivity).
  rewrite app_nil_r.
  destruct (_ && _), (lowbal_action g); reflexivity.
Qed.

Lemma after_flag g c o ch d :
  rednibble_data ch = Some d ->
  lowbal_action_executed d <> 0 ->
  exists d', after g c o ch = Some d' /\ lowbal_action_executed d' <> 0.
Proof.
  intros Hd Hf.
  destruct c; cbn [after]; rewrite ?Hd; cbn [option_map];
    try (eexists; split; [reflexivity|]; cbn; try assumption).
  - destruct (bills ch); [|now exists d].
    eexists. split; [reflexivity|]. unfold settled.
    assert (Hfl : lowbal_fires g o (lowbal_of g ch)
                    (billed o
                       match rednibble_rate ch with
                       | Some r => r
                       | None => 0%Q
                       end (rednibble_increment ch) (opening ch)) = false).
    { unfold lowbal_fires. rewrite billed_flag, (opening_data ch d Hd).
      apply Z.eqb_neq in Hf. now rewrite Hf. }
    destruct (terminal ch); rewrite ?verified_flag, ?Hfl, billed_flag,
      (opening_data ch d Hd); assumption.
  - now destruct (pausets d =? 0).
  - now destruct (pausets d =? 0).
Qed.

Lemma step_exec g c o w w' :
  lowbal_done w ->
  rednibblebill_app_function g c o w = Some w' ->
  lowbal_done w' /\ observed is_exec w' = observed is_exec w.
Proof.
  unfold lowbal_done at 1. unfold get_private. intros Hd Hs.
  destruct (channel w) as [ch|] eqn:Hch; [|contradiction].
  destruct (rednibble_data ch) as [d|] eqn:Hdat; [|contradiction].
  destruct (after_flag g c o ch d Hdat Hd) as (d' & Ha & Hf).
  split.
  - unfold lowbal_done.
    now rewrite (get_private_step g c o w w' ch Hch Hs), Ha.
  - destruct (is_quiet c) eqn:Hq.
    + now apply (quiet_step_observed g c o w w'); auto with frames.
    + destruct c; try discriminate Hq;
        cbn [rednibblebill_app_function] in Hs; injection Hs as <-.
      * (* adjust *)
        unfold rednibblebill_adjust. rewrite Hch.
        destruct (rednibble_account ch) as [acct|]; [|reflexivity].
        pose proof (bill_event_frame o (- amount)%Q acct w)
          as (_ & _ & _ & B).
        specialize (B is_exec ignores_plumbing_exec).
        destruct (bill_event o (- amount)%Q acct w) as [[] w1];
          cbn [snd] in B; still; rewrite B;
          destruct (bill_connect o); cbn [filter is_exec];
          now rewrite app_nil_r.
      * (* flush *)
        rewrite (do_billing_observed g o w ch) by auto with frames.
        rewrite filter_bill_events, filter_exec_verify_events,
          filter_reroute by reflexivity.
        rewrite billed_flag, (opening_data ch d Hdat).
        apply Z.eqb_neq in Hd. rewrite Hd. cbn [andb app].
        destruct (bills ch), (terminal ch), (unanswered ch);
          now rewrite ?app_nil_r.
Qed.

(** X7: once the low balance action has run with success, which sets
    [lowbal_action_executed], no command runs it again: along every run of
    commands from a session whose flag is set, no application is executed
    and the flag stays set. *)
Theorem low_balance_action_runs_once (g : globals_t)
  (cs : list (command * oracle)) (w w' : world) :
  lowbal_done w ->
  run g cs w = Some w' ->
  lowbal_done w' /\ observed is_exec w' = observed is_exec w.
Proof.
  revert w. induction cs as [|[c o] cs IH]; intros w Hd Hrun.
  - injection Hrun as <-. now split.
  - cbn [run] in Hrun.
    destruct (rednibblebill_app_function g c o w) as [w1|] eqn:Hs;
      [|discriminate].
    destruct (step_exec g c o w w1 Hd Hs) as [Hd1 Ho1].
    destruct (IH w1 Hd1 Hrun) as [Hd' Ho']. split; congruence.
Qed.

Lemma low_balance_action_runs_once_witness :
  let d := with_lowbal_action_executed (with_lastts zeroed 1000000) 1 in
  let w := session_of (call (Some 60%Q) None (Some "alice"%string) (Some d)) in
  let w' :=
    do_billing globals0 (store_up 90000000 3000000)
      (do_billing globals0 (store_up 31000000 4000000) w) in
  lowbal_done w' /\ observed is_exec w' = observed is_exec w.
Proof.
  intros d w w'.
  apply (low_balance_action_runs_once globals0
           [(flush, store_up 31000000 4000000);
            (flush, store_up 90000000 3000000)] w w').
  - vm_compute. discriminate.
  - reflexivity.
Defined.

(** X8: on an answered, running call that is neither hung up nor
    reporting, with the flag clear, a balance at or below the low balance
    threshold runs the low balance action once in the billing; the flag is
    set when the action succeeds and stays clear when it fails, so that
    the next billing tries again. *)
Theorem low_balance_action_fires (g : globals_t) (o : oracle) (w : world)
  (ch : switch_channel_t) (app : string) :
  channel w = Some ch ->
  bills ch = true ->
  terminal ch = false ->
  lowbal_action_executed (opening ch) = 0 ->
  Qle_bool (fail_open_balance (balance_connect o) (balance_reply o))
    (lowbal_of g ch) = true ->
  lowbal_action g = Some app ->
  let w' := do_billing g o w in
  observed is_exec w' = observed is_exec w ++ [execute_application app]
  /\ exists d',
       get_private w' = Some d'
       /\ lowbal_action_executed d'
          = match lowbal_app_status o with
            | SWITCH_STATUS_SUCCESS => 1
            | SWITCH_STATUS_FALSE => 0
            end.
Proof.
  intros Hch Hb Ht Hf Hlow Happ. cbv zeta. split.
  - rewrite (do_billing_observed g o w ch) by auto with frames.
    rewrite Hb, Ht, filter_bill_events, filter_exec_verify_events
      by reflexivity.
    now rewrite billed_flag, Hf, Hlow, Happ.
  - eexists. split.
    + rewrite (get_private_step g flush o w (do_billing g o w) ch Hch
                 eq_refl).
      cbn [after]. rewrite Hb. reflexivity.
    + unfold settled. rewrite Ht, verified_flag. unfold lowbal_fires.
      rewrite billed_flag, Hf, Hlow, Happ. cbn [Z.eqb andb].
      now destruct (lowbal_app_status o).
Qed.

Lemma low_balance_action_fires_witness :
  let ch := call (Some 60%Q) None (Some "alice"%string) None in
  let w' := do_billing globals0 (store_up 31000000 4000000)
              (session_of ch) in
  observed is_exec w' = [execute_application "play ding"]
  /\ exists d', get_private w' = Some d' /\ lowbal_action_executed d' = 1.
Proof.
  intros ch w'.
  apply (low_balance_action_fires globals0 (store_up 31000000 4000000)
           (session_of ch) ch "play ding"%string); reflexivity.
Defined.

(** * Beyond the claims: adjust and reset *)

Lemma dec_of_opp (a : double) :
  INT_MIN <= - Qfloor (fmul a 1000000) <= INT_MAX ->
  dec_of (- a)%Q = - Qfloor (fmul a 1000000).
Proof.
  intros H. unfold dec_of.
  assert (E : Qceiling (fmul (- a) 1000000) = - Qfloor (fmul a 1000000)).
  { unfold Qceiling. f_equal. apply Qfloor_comp. unfold fmul.
    rewrite <- round_opp. apply round_comp. ring. }
  rewrite int_of_double_ceil; rewrite E; [reflexivity|assumption].
Qed.

(** X9: an adjustment goes to the store and nowhere else.  With an account
    set and the store reachable, adjust calls [bill_event] once with the
    opposite of the amount and sends one decrement of minus the floor of
    the double product [amount*1000000] (when that fits an [int]): the
    credit is rounded down from the rounded product, and exceeds the
    amount by no more than the amount times 2^-53.  The channel, with the
    billing data and the total of the session, and the mutex are left as
    they were. *)
Theorem adjust_credits_rounded_down (o : oracle) (amount : double)
  (w : world) (ch : switch_channel_t) (acct : string) :
  channel w = Some ch ->
  rednibble_account ch = Some acct ->
  bill_connect o = true ->
  INT_MIN <= - Qfloor (fmul amount 1000000) <= INT_MAX ->
  representable amount ->
  let w' := rednibblebill_adjust o amount w in
  let credited := Qfloor (fmul amount 1000000) in
  channel w' = Some ch
  /\ lock_depth w' = lock_depth w
  /\ observed is_debit w'
     = observed is_debit w
       ++ [call_bill_event (- amount)%Q acct;
           credis_decrby (rediskey_of acct) (- credited)]
  /\ (inject_Z credited <= fmul amount 1000000)%Q
  /\ (inject_Z credited / 1000000
      <= amount + Qabs amount * unit_roundoff)%Q.
Proof.
  intros Hch Ha Hc Hr Hn. cbv zeta. unfold rednibblebill_adjust.
  rewrite Hch, Ha.
  pose proof (bill_event_frame o (- amount)%Q acct w) as (_ & Bc & Bd & Bo).
  specialize (Bo is_debit ignores_plumbing_debit).
  rewrite Hc, (dec_of_opp amount Hr) in Bo. cbn [filter is_debit] in Bo.
  pose proof (Qfloor_le (fmul amount 1000000)) as F.
  assert (Hle : (inject_Z (Qfloor (fmul amount 1000000)) / 1000000
                 <= amount + Qabs amount * unit_roundoff)%Q).
  { apply Qle_shift_div_r; [reflexivity|].
    eapply Qle_trans; [exact F|].
    pose proof (round_error_scaled amount 1000000 Hn ltac:(lia)) as E.
    change (inject_Z 1000000) with 1000000%Q in E.
    rewrite Qabs_Qmult in E. change (Qabs 1000000) with 1000000%Q in E.
    apply Qabs_Qle_condition in E. unfold fmul.
    pose proof unit_roundoff_value as U. rewrite U in *.
    pose proof (Qabs_nonneg amount). lra. }
  destruct (bill_event o (- amount)%Q acct w) as [[] w1];
    cbn [snd] in Bc, Bd, Bo; cbn [log emit channel lock_depth];
    repeat split; try congruence; try assumption; now still.
Qed.

Lemma adjust_credits_rounded_down_witness :
  let ch := call None None (Some "alice"%string) None in
  let amount := Binary64.round (3 # 10) in
  let w' := rednibblebill_adjust (store_up 0 0) amount (session_of ch) in
  channel w' = Some ch
  /\ lock_depth w' = 0%nat
  /\ observed is_debit w'
     = [call_bill_event (- amount)%Q "alice";
        credis_decrby "rn_alice" (- 300000)]
  /\ (inject_Z 300000 <= fmul amount 1000000)%Q
  /\ (inject_Z 300000 / 1000000
      <= amount + Qabs amount * unit_roundoff)%Q.
Proof.
  intros ch amount w'.
  apply (adjust_credits_rounded_down (store_up 0 0) amount
           (session_of ch) ch "alice"%string);
    try reflexivity.
  vm_compute. split; discriminate.
Defined.

Lemma rednibblebill_reset_frame g o w ch d :
  channel w = Some (with_rednibble_data ch (Some d)) ->
  let w' := rednibblebill_reset g o w in
  channel w'
  = Some (with_rednibble_data ch (Some (with_lastts d (micro_time_now o))))
  /\ forall p, ignores_plumbing p -> observed p w' = observed p w.
Proof.
  intros Hch. unfold rednibblebill_reset. rewrite Hch.
  cbn [rednibble_data with_rednibble_data]. split.
  - rewrite channel_unlock. cbn [log emit channel]. unfold set_private.
    now rewrite channel_lock, Hch.
  - intros p Hp. now still.
Qed.

(** X10: a reset forgives the time elapsed before it.  On a running
    session billed by elapsed time, a reset followed by a billing calls
    [bill_event] once, with the charge for the time elapsed since the
    reset alone, less the pending adjustment, wherever the timestamp was
    before the reset; for a rate between 2^-64 and 2^64 that charge is
    [rate / 60] times the seconds since the reset to within a factor of
    1 - 2^-50 and 1 + 2^-50. *)
Theorem reset_forgives_elapsed_time (g : globals_t) (o1 o2 : oracle)
  (w : world) (ch : switch_channel_t) (d : rednibble_data_t)
  (rate : double) (acct : string) :
  channel w = Some ch ->
  rednibble_data ch = Some d ->
  rednibble_rate ch = Some rate ->
  rednibble_account ch = Some acct ->
  rednibble_increment ch = None ->
  bills ch = true ->
  0 <= micro_time_now o1 <= micro_time_now o2 ->
  plausible_time (micro_time_now o2) ->
  exists w' billamount d',
    run g [(reset, o1); (flush, o2)] w = Some w'
    /\ observed is_bill_event w'
       = observed is_bill_event w ++ [call_bill_event billamount acct]
    /\ billamount
       = fsub
           (fmul (rate_per_usec rate)
              (to_double (micro_time_now o2 - micro_time_now o1)))
           (bill_adjustments d)
    /\ ((2 ^ (-64) <= rate <= 2 ^ 64)%Q ->
        micro_time_now o1 < micro_time_now o2 ->
        let ideal :=
          (rate / 60
           * (inject_Z (micro_time_now o2 - micro_time_now o1) / 1000000))%Q
        in
        (ideal * (1 - 2 ^ (-50))
         <= fmul (rate_per_usec rate)
              (to_double (micro_time_now o2 - micro_time_now o1))
         <= ideal * (1 + 2 ^ (-50)))%Q)
    /\ get_private w' = Some d'
    /\ lastts d' = micro_time_now o2.
Proof.
  intros Hch Hd Hr Ha Hi Hb [H10 H12] [_ H2].
  cbn [run rednibblebill_app_function].
  pose proof (rednibblebill_reset_frame g o1 w ch d
                (channel_with_data w ch d Hch Hd)) as (Hc1 & Ho1).
  set (w1 := rednibblebill_reset g o1 w) in *.
  set (d1 := with_lastts d (micro_time_now o1)) in *.
  set (ch1 := with_rednibble_data ch (Some d1)) in *.
  destruct (bills_inv ch Hb) as (_ & _ & ans & _ & _ & Hans & Hans1 & Hp).
  rewrite (opening_data ch d Hd) in Hp.
  assert (Hb1 : bills ch1 = true).
  { unfold bills, opening. subst ch1 d1. cbn. rewrite Hr, Ha, Hans.
    destruct (Z.ltb_spec ans 1); [lia|].
    destruct (Z.gtb_spec (pausets d) 0); [lia|reflexivity]. }
  assert (He : sub64 (micro_time_now o2) (lastts (opening ch1))
               = micro_time_now o2 - micro_time_now o1)
    by (unfold sub64; cbn; apply wrap64_small; lia).
  pose proof (do_billing_calls_bill_event g o2 w1 ch1 rate acct Hc1 Hb1
                Hr Ha ltac:(rewrite He; lia)) as Hcall.
  destruct (do_billing_bills g o2 w1 ch1 Hc1 Hb1) as ((ch2 & _ & Hc2) & _).
  destruct (settled_keeps g o2 ch1 rate Hr) as (Hl & _).
  destruct (billed_elapsed o2 rate (rednibble_increment ch1) (opening ch1)
              ltac:(rewrite He; lia)) as (Hbl & _).
  eexists. eexists. exists (settled g o2 ch1).
  split; [reflexivity|]. split; [|split; [|split; [|split]]].
  - rewrite Hcall, (Ho1 _ ignores_plumbing_bill_event). reflexivity.
  - change (rednibble_increment ch1) with (rednibble_increment ch).
    rewrite Hi. unfold charge. cbn [fst]. rewrite He.
    unfold opening, ch1, d1.
    cbn [rednibble_data with_rednibble_data bill_adjustments with_lastts].
    reflexivity.
  - intros [Hr0 _] Hlt.
    apply (time_charge_accuracy rate
             (micro_time_now o2 - micro_time_now o1) Hr0).
    lia.
  - now apply get_private_channel with ch2.
  - rewrite Hl, Hbl.
    change (rednibble_increment ch1) with (rednibble_increment ch).
    rewrite Hi. reflexivity.
Qed.

Lemma reset_forgives_elapsed_time_witness :
  let d := with_lastts zeroed 5000000 in
  let ch := call (Some 60%Q) None (Some "alice"%string) (Some d) in
  exists w' billamount d',
    run globals0
      [(reset, store_up 65000000 1000000000);
       (flush, store_up 75000000 1000000000)]
      (session_of ch)
    = Some w'
    /\ observed is_bill_event w' = [call_bill_event billamount "alice"]
    /\ billamount
       = fsub (fmul (rate_per_usec 60%Q) (to_double (75000000 - 65000000))) 0
    /\ ((2 ^ (-64) <= 60 <= 2 ^ 64)%Q ->
        65000000 < 75000000 ->
        let ideal :=
          (60 / 60 * (inject_Z (75000000 - 65000000) / 1000000))%Q in
        (ideal * (1 - 2 ^ (-50))
         <= fmul (rate_per_usec 60%Q) (to_double (75000000 - 65000000))
         <= ideal * (1 + 2 ^ (-50)))%Q)
    /\ get_private w' = Some d'
    /\ lastts d' = 75000000.
Proof.
  intros d ch.
  apply (reset_forgives_elapsed_time globals0
           (store_up 65000000 1000000000) (store_up 75000000 1000000000)
           (session_of ch) ch d 60%Q "alice"%string);
    try reflexivity; vm_compute; split; first [reflexivity | discriminate].
Defined.

(** * Beyond the claims: the published total *)

Lemma bill_channel o rate inc acct d w ch :
  channel w = Some ch ->
  channel (snd (bill o rate inc acct d w))
  = Some (if (0 <=? sub64 (micro_time_now o) (lastts d)) && debit_succeeds o
          then with_total_billed ch (printf_f (total (billed o rate inc d)))
          else ch).
Proof.
  intros Hch. unfold bill, billed, debit_succeeds.
  destruct (0 <=? sub64 (micro_time_now o) (lastts d)); cbn [andb].
  - destruct (charge (micro_time_now o) rate inc d) as [amt d1].
    pose proof (bill_event_frame o amt acct
                  (log SWITCH_LOG_DEBUG
                     "Billing %f to %s (Call: %s / %f so far)" w)) as F.
    destruct (bill_event o amt acct _) as [st w1].
    cbn [fst snd log emit channel] in F. destruct F as (-> & Fc & _).
    destruct (bill_connect o && decrby_ok o); cbn [snd].
    + unfold set_total_billed. now rewrite Fc, Hch.
    + cbn [log emit channel]. now rewrite Fc.
  - destruct inc; cbn [snd log emit channel]; assumption.
Qed.

Lemma do_billing_channel g o w ch :
  channel w = Some ch -> bills ch = true ->
  channel (do_billing g o w)
  = Some (with_rednibble_data (published o ch) (Some (settled g o ch))).
Proof.
  intros Hch Hb.
  destruct (bills_inv ch Hb) as (rate & acct & ans & Hr & Ha & Hans & H1 & Hp).
  unfold do_billing, settled, published. rewrite Hch, Hr, Ha, Hans.
  destruct (Z.ltb_spec ans 1); [lia|].
  assert (Hpaused :
            match rednibble_data ch with
            | Some d => pausets d >? 0
            | None => false
            end = false).
  { unfold opening in Hp. destruct (rednibble_data ch); [|reflexivity].
    destruct (Z.gtb_spec (pausets r) 0); [lia|reflexivity]. }
  rewrite Hpaused.
  set (w0 := switch_mutex_lock g
               (log SWITCH_LOG_DEBUG
                  "Attempting to bill at %s per minute to account %s" w)).
  set (start :=
         match rednibble_data ch with
         | Some d => (d, w0)
         | None =>
           (with_lastts zeroed ans,
            log SWITCH_LOG_INFO "Beginning new billing on %s" w0)
         end).
  assert (Hs : fst start = opening ch /\ channel (snd start) = Some ch).
  { subst start w0. unfold opening. rewrite Hans.
    destruct (rednibble_data ch); cbn [fst snd log emit channel];
      now rewrite channel_lock. }
  destruct start as [d0 w1]. cbn [fst snd] in Hs. destruct Hs as (-> & Hc1).
  pose proof (bill_channel o rate (rednibble_increment ch) acct (opening ch)
                (log SWITCH_LOG_DEBUG
                   "%d seconds passed since last bill time of %s" w1) ch Hc1)
    as Bc.
  pose proof (bill_frame o rate (rednibble_increment ch) acct (opening ch)
                (log SWITCH_LOG_DEBUG
                   "%d seconds passed since last bill time of %s" w1) ch Hc1)
    as (Bd & _).
  destruct (bill o rate (rednibble_increment ch) acct (opening ch) _)
    as [d1 w2].
  cbn [fst snd] in Bc, Bd. subst d1.
  set (chv := if _ && _ then _ else ch) in *.
  assert (Hc3 : channel
                  (set_private
                     (billed o rate (rednibble_increment ch) (opening ch)) w2)
                = Some (with_rednibble_data chv
                          (Some (billed o rate (rednibble_increment ch)
                                   (opening ch)))))
    by (unfold set_private; now rewrite Bc).
  unfold terminal.
  replace (negb (is_reporting (channel_state ch))
           && negb (is_hangup (channel_state ch)))
    with (negb (is_reporting (channel_state ch)
                || is_hangup (channel_state ch)))
    by apply negb_orb.
  destruct (is_reporting (channel_state ch) || is_hangup (channel_state ch));
    cbn [negb]; rewrite channel_unlock.
  - exact Hc3.
  - fold (lowbal_of g ch) (nobal_of g ch).
    now apply verify_balance_frame.
Qed.

Lemma after_total_same g c o ch d :
  is_flush c = false -> rednibble_data ch = Some d ->
  exists d', after g c o ch = Some d' /\ total d' = total d.
Proof.
  intros Hf Hd.
  destruct c; try discriminate Hf; cbn [after]; rewrite Hd;
    cbn [option_map]; eexists; (split; [reflexivity|]);
    try destruct (pausets d =? 0); reflexivity.
Qed.

Lemma step_in_sync g c o w w' :
  total_in_sync w ->
  rednibblebill_app_function g c o w = Some w' ->
  total_in_sync w'.
Proof.
  unfold total_in_sync. intros Hs Hstep.
  destruct (channel w) as [ch|] eqn:Hch;
    [|now rewrite (step_no_channel g c o w w' Hch Hstep)].
  destruct (is_flush c) eqn:Hf.
  - destruct c; try discriminate Hf.
    cbn [rednibblebill_app_function] in Hstep. injection Hstep as <-.
    destruct (bills ch) eqn:Hb.
    + rewrite (do_billing_channel g o w ch Hch Hb).
      cbn [rednibble_total_billed rednibble_data with_rednibble_data].
      destruct (bills_inv ch Hb) as (rate & _ & _ & Hr & _).
      destruct (settled_keeps g o ch rate Hr) as (_ & Ht & _).
      unfold published. rewrite Hr.
      destruct (Z.leb_spec 0 (sub64 (micro_time_now o) (lastts (opening ch))))
        as [He|He]; cbn [andb].
      * destruct (billed_elapsed o rate (rednibble_increment ch)
                    (opening ch) He) as (_ & Hbt).
        unfold debit_succeeds.
        destruct (bill_connect o && decrby_ok o).
        -- cbn [rednibble_total_billed with_total_billed].
           exists (settled g o ch). split; [reflexivity|]. now rewrite Ht.
        -- destruct (rednibble_total_billed ch) as [v|]; [|exact I].
           destruct Hs as (d & Hd & ->).
           exists (settled g o ch). split; [reflexivity|].
           rewrite Ht. destruct Hbt as [-> _].
           now rewrite (opening_data ch d Hd).
      * destruct (rednibble_total_billed ch) as [v|]; [|exact I].
        destruct Hs as (d & Hd & ->).
        exists (settled g o ch). split; [reflexivity|].
        rewrite Ht, billed_backward by assumption.
        now rewrite (opening_data ch d Hd).
    + destruct (do_billing_idle g o w) as (-> & _); [now rewrite Hch|].
      now rewrite Hch.
  - rewrite (step_channel g c o w w' ch Hch Hf Hstep).
    cbn [rednibble_total_billed rednibble_data with_rednibble_data].
    destruct (rednibble_total_billed ch) as [v|]; [|exact I].
    destruct Hs as (d & Hd & ->).
    destruct (after_total_same g c o ch d Hf Hd) as (d' & -> & Ht).
    exists d'. split; [reflexivity|now rewrite Ht].
Qed.

(** X11: the variable [rednibble_total_billed] never drifts from the
    total.  On a session where the variable is unset, as on every new
    session, or holds the text [%f] gives for the total of the billing
    data, every run of commands leaves it unset or holding that text for
    the total the run leaves: six decimals of it, not the double. *)
Theorem published_total_stays_in_sync (g : globals_t)
  (cs : list (command * oracle)) (w w' : world) :
  total_in_sync w ->
  run g cs w = Some w' ->
  total_in_sync w'.
Proof.
  revert w. induction cs as [|[c o] cs IH]; intros w Hs Hrun.
  - now injection Hrun as <-.
  - cbn [run] in Hrun.
    destruct (rednibblebill_app_function g c o w) as [w1|] eqn:Hstep;
      [|discriminate].
    apply (IH w1); [|assumption]. now apply (step_in_sync g c o w).
Qed.

Lemma published_total_stays_in_sync_witness :
  let w := session_of (call (Some 60%Q) None (Some "alice"%string) None) in
  let w' :=
    do_billing globals0 (store_down 90000000)
      (do_billing globals0 (store_up 31000000 1000000000) w) in
  total_in_sync w'.
Proof.
  intros w w'.
  apply (published_total_stays_in_sync globals0
           [(flush, store_up 31000000 1000000000);
            (flush, store_down 90000000)] w w').
  - exact I.
  - reflexivity.
Defined.

(** * Beyond the claims: the connections to the store *)

Lemma open_emit e w :
  open_connections (emit e w) = open_connections w + connection_delta e.
Proof.
  unfold open_connections, emit. cbn [trace].
  induction (trace w) as [|x t IH]; cbn [app fold_right]; lia.
Qed.

Lemma open_log l f w : open_connections (log l f w) = open_connections w.
Proof. unfold log. rewrite open_emit. cbn. lia. Qed.

Lemma open_same w w' :
  trace w' = trace w -> open_connections w' = open_connections w.
Proof. unfold open_connections. now intros ->. Qed.

Ltac conn :=
  repeat first
    [ rewrite open_log
    | rewrite (open_same _ _ (trace_lock _ _))
    | rewrite (open_same _ _ (trace_unlock _ _))
    | rewrite (open_same _ _ (trace_set_private _ _))
    | rewrite (open_same _ _ (trace_set_total_billed _ _))
    | rewrite open_emit; cbn [connection_delta] ].

Lemma open_bill_event o a acct w st w1 :
  bill_event o a acct w = (st, w1) ->
  open_connections w1 = open_connections w.
Proof.
  unfold bill_event, redis_factory.
  destruct (bill_connect o), (decrby_ok o); intros [= <- <-]; conn; lia.
Qed.

Lemma open_get_balance o acct w b w1 :
  get_balance o acct w = (b, w1) ->
  open_connections w1 = open_connections w.
Proof.
  unfold get_balance, redis_factory.
  destruct (balance_connect o); [destruct (balance_reply o)|];
    intros [= <- <-]; conn; lia.
Qed.

Lemma open_exec_app o app w st w1 :
  exec_app o app w = (st, w1) ->
  open_connections w1 = open_connections w.
Proof.
  unfold exec_app. destruct app; intros [= <- <-]; conn; lia.
Qed.

Lemma open_transfer_call dst w :
  open_connections (transfer_call dst w) = open_connections w.
Proof. unfold transfer_call. destruct dst; conn; lia. Qed.

Lemma open_pause g ts w :
  open_connections (rednibblebill_pause g ts w) = open_connections w.
Proof.
  unfold rednibblebill_pause.
  destruct (channel w) as [ch|]; [|reflexivity].
  destruct (rednibble_data ch) as [d|]; [destruct (pausets d =? 0)|];
    conn; reflexivity.
Qed.

Lemma open_bill o rate inc acct d w d1 w1 :
  bill o rate inc acct d w = (d1, w1) ->
  open_connections w1 = open_connections w.
Proof.
  unfold bill.
  destruct (0 <=? _).
  - destruct (charge _ _ _ _) as [amt d0].
    destruct (bill_event o amt acct _) as [st w2] eqn:E.
    apply open_bill_event in E.
    destruct st; intros [= <- <-]; conn; rewrite E; conn; reflexivity.
  - destruct inc; intros [= <- <-]; conn; reflexivity.
Qed.

Lemma open_verify_balance g o lowbal nobal acct d w :
  open_connections (verify_balance g o lowbal nobal acct d w)
  = open_connections w.
Proof.
  unfold verify_balance.
  destruct (get_balance o acct w) as [balance w1] eqn:E.
  apply open_get_balance in E. rewrite <- E.
  set (w2 := if _ && _ then _ else w1).
  assert (H2 : open_connections w2 = open_connections w1).
  { subst w2. destruct (_ && _); [|reflexivity]. cbv zeta.
    destruct (exec_app o (lowbal_action g) _) as [st w3] eqn:X.
    apply open_exec_app in X.
    destruct st; conn; rewrite X; conn; reflexivity. }
  clearbody w2. rewrite <- H2.
  destruct (Qle_bool balance nobal); [|reflexivity].
  cbv zeta. rewrite open_transfer_call, open_pause. conn. reflexivity.
Qed.

Lemma open_do_billing g o w :
  open_connections (do_billing g o w) = open_connections w.
Proof.
  unfold do_billing.
  destruct (channel w) as [ch|]; [|reflexivity].
  destruct (rednibble_rate ch) as [rate|]; [|reflexivity].
  destruct (rednibble_account ch) as [acct|]; [|reflexivity].
  destruct (answered ch) as [ans|]; [|conn; reflexivity].
  destruct (ans <? 1).
  - destruct (get_balance o acct _) as [balance w1] eqn:E.
    apply open_get_balance in E.
    destruct (Qle_bool balance _); rewrite ?open_transfer_call; conn;
      rewrite E; conn; reflexivity.
  - destruct (match rednibble_data ch with
              | Some d => pausets d >? 0
              | None => false
              end); [conn; reflexivity|].
    set (start := match rednibble_data ch with
                  | Some d => (d, _)
                  | None => _
                  end).
    assert (Hs : open_connections (snd start) = open_connections w)
      by (subst start; destruct (rednibble_data ch); cbn [snd]; conn;
          reflexivity).
    destruct start as [d0 w1]. cbn [snd] in Hs.
    destruct (bill o rate (rednibble_increment ch) acct d0 _)
      as [d1 w2] eqn:B.
    apply open_bill in B.
    destruct (negb _ && negb _); conn; rewrite ?open_verify_balance; conn;
      rewrite B; conn; exact Hs.
Qed.

Lemma open_step g c o w w' :
  rednibblebill_app_function g c o w = Some w' ->
  open_connections w' = open_connections w.
Proof.
  destruct c; cbn [rednibblebill_app_function].
  - intros [= <-]. unfold rednibblebill_adjust.
    destruct (channel w) as [ch|]; [|reflexivity].
    destruct (rednibble_account ch) as [acct|]; [|reflexivity].
    destruct (bill_event o (- amount)%Q acct w) as [st w1] eqn:E.
    apply open_bill_event in E. destruct st; conn; exact E.
  - intros [= <-]. apply open_do_billing.
  - intros [= <-]. apply open_pause.
  - unfold rednibblebill_resume.
    destruct (channel w) as [ch|]; [|now intros [= <-]].
    destruct (rednibble_data ch) as [d|];
      [|intros [= <-]; conn; reflexivity].
    destruct (pausets d =? 0); [intros [= <-]; conn; reflexivity|].
    destruct (rednibble_rate ch); [|discriminate].
    intros [= <-]. conn. reflexivity.
  - unfold rednibblebill_check.
    destruct (channel w) as [ch|]; [|intros [= <-]; conn; reflexivity].
    destruct (rednibble_data ch); intros [= <-]; conn; reflexivity.
  - intros [= <-]. unfold rednibblebill_reset.
    destruct (channel w) as [ch|]; [|reflexivity].
    destruct (rednibble_data ch); conn; reflexivity.
Qed.

(** X12: no command leaks a connection to the store.  Along every run of
    commands, whatever the store answers, each connection that
    [credis_connect] opened is closed by the time the command returns: the
    successful connections and the closes of the trace balance. *)
Theorem commands_close_their_connections (g : globals_t)
  (cs : list (command * oracle)) (w w' : world) :
  run g cs w = Some w' ->
  open_connections w' = open_connections w.
Proof.
  revert w. induction cs as [|[c o] cs IH]; intros w Hrun.
  - now injection Hrun as <-.
  - cbn [run] in Hrun.
    destruct (rednibblebill_app_function g c o w) as [w1|] eqn:Hs;
      [|discriminate].
    rewrite (IH w1 Hrun). now apply (open_step g c o w).
Qed.

Lemma commands_close_their_connections_witness :
  let w := session_of (call (Some 60%Q) None (Some "alice"%string) None) in
  let w' :=
    rednibblebill_adjust (store_up 0 0) 5%Q
      (do_billing globals0 (store_up 31000000 0) w) in
  open_connections w' = open_connections w.
Proof.
  intros w w'.
  apply (commands_close_their_connections globals0
           [(flush, store_up 31000000 0); (adjust 5%Q, store_up 0 0)] w w').
  reflexivity.
Defined.

(** * Beyond the claims: the configuration and the load of the module *)

Lemma default_actions_set g :
  zstr (percall_action (default_actions g)) = false
  /\ zstr (lowbal_action (default_actions g)) = false
  /\ zstr (nobal_action (default_actions g)) = false
  /\ mutex (default_actions g) = mutex g.
Proof.
  unfold default_actions.
  destruct (zstr (percall_action g)) eqn:H1; cbn;
    destruct (zstr (lowbal_action g)) eqn:H2; cbn;
    destruct (zstr (nobal_action g)) eqn:H3; cbn; auto.
Qed.

Lemma zstr_false s : zstr s = false -> exists c t, s = Some (String c t).
Proof. destruct s as [[|c t]|]; try discriminate. now exists c, t. Qed.

(** X13: whatever the configuration file holds, and whether or not it
    could be opened, [load_config] succeeds and leaves the three actions
    set and not empty. *)
Theorem loaded_actions_are_never_empty (atoi : string -> Z)
  (atof : string -> double) (cfg : config_file)
  (gs : globals_t * redis_settings) :
  let r := load_config atoi atof cfg gs in
  fst (fst r) = SWITCH_STATUS_SUCCESS
  /\ zstr (percall_action (fst (snd r))) = false
  /\ zstr (lowbal_action (fst (snd r))) = false
  /\ zstr (nobal_action (fst (snd r))) = false.
Proof.
  unfold load_config. cbn [fst snd]. split; [reflexivity|].
  destruct (default_actions_set
              (fst match cfg with
                   | cfg_settings params =>
                     fold_left (load_param atoi atof) params gs
                   | _ => gs
                   end)) as (H1 & H2 & H3 & _).
  auto.
Qed.

Lemma load_param_mutex atoi atof gs p :
  mutex (fst (load_param atoi atof gs p)) = mutex (fst gs).
Proof.
  unfold load_param. destruct gs as [g r].
  repeat match goal with
         | |- context [if ?b then _ else _] => destruct b
         end; reflexivity.
Qed.

Lemma load_params_mutex atoi atof ps :
  forall gs,
    mutex (fst (fold_left (load_param atoi atof) ps gs)) = mutex (fst gs).
Proof.
  induction ps as [|p ps IH]; intros gs; [reflexivity|].
  cbn [fold_left]. now rewrite IH, load_param_mutex.
Qed.

Lemma loaded_globals atoi atof cfg bound connected :
  let g := globals (snd (mod_rednibblebill_load atoi atof cfg bound
                           connected)) in
  mutex g = true
  /\ zstr (lowbal_action g) = false
  /\ zstr (nobal_action g) = false.
Proof.
  unfold mod_rednibblebill_load, zeroed_globals, load_config.
  cbn [fst snd].
  set (gs := match cfg with
             | cfg_settings params => fold_left _ params _
             | _ => _
             end).
  assert (Hm : mutex (fst gs) = true).
  { subst gs. destruct cfg; try reflexivity.
    now rewrite load_params_mutex. }
  destruct (default_actions_set (fst gs)) as (_ & H2 & H3 & H4).
  destruct bound; cbn [negb].
  - destruct (redis_factory connected _) as [st j]. cbn [snd globals].
    rewrite H4. auto.
  - cbn [snd globals]. rewrite H4. auto.
Qed.

(** X14: with the globals the module load produces, whatever the
    configuration, a call out of credit is always rerouted: on an
    answered, running call that is neither hung up nor reporting, a
    balance at or below the no-balance threshold makes [do_billing]
    transfer the call to a destination that is not empty, with the billing
    paused when the transfer is made. *)
Theorem loaded_module_always_reroutes (atoi : string -> Z)
  (atof : string -> double) (cfg : config_file) (bound connected : bool)
  (o : oracle) (w : world) (ch : switch_channel_t) :
  let g := globals (snd (mod_rednibblebill_load atoi atof cfg bound
                           connected)) in
  channel w = Some ch ->
  bills ch = true ->
  terminal ch = false ->
  out_of_credit o (nobal_of g ch) = true ->
  0 < micro_time_pause o ->
  exists dst d,
    dst <> EmptyString
    /\ observed is_transfer (do_billing g o w)
       = observed is_transfer w ++ [session_transfer dst (Some d)]
    /\ pausets d <> 0.
Proof.
  intros g Hch Hb Ht Hout Hclock.
  destruct (loaded_globals atoi atof cfg bound connected) as (_ & _ & Hn).
  fold g in Hn. destruct (zstr_false _ Hn) as (c & t & Hdst).
  exists (String c t).
  exists (verified g o (lowbal_of g ch) (nobal_of g ch)
            (billed o
               match rednibble_rate ch with Some r => r | None => 0%Q end
               (rednibble_increment ch) (opening ch))).
  split; [discriminate|]. split.
  - rewrite (do_billing_observed g o w ch) by auto with frames.
    rewrite Hb, Ht, filter_transfer_bill_events,
      filter_transfer_verify_events, Hout, Hdst.
    reflexivity.
  - rewrite verified_pausets, billed_pausets, Hout. cbn [andb].
    destruct (Z.eqb_spec (pausets (opening ch)) 0) as [_|Hp]; [lia|].
    exact Hp.
Qed.

Lemma loaded_module_always_reroutes_witness :
  let g := globals (snd (mod_rednibblebill_load (fun _ => 0) (fun _ => 0%Q)
                           cfg_unopened true true)) in
  let ch := call (Some 60%Q) None (Some "alice"%string) None in
  exists dst d,
    dst <> EmptyString
    /\ observed is_transfer
         (do_billing g (store_up 31000000 0) (session_of ch))
       = [session_transfer dst (Some d)]
    /\ pausets d <> 0.
Proof.
  intros g ch.
  apply (loaded_module_always_reroutes (fun _ => 0) (fun _ => 0%Q)
           cfg_unopened true true (store_up 31000000 0) (session_of ch) ch);
    reflexivity.
Defined.

Lemma strcaseeq_lower a b :
  strcaseeq a b = true -> lower a = lower b.
Proof. unfold strcaseeq. apply String.eqb_eq. Qed.

Lemma load_param_other atoi atof gs p :
  strcaseeq (param_name p) "nobal_action" = false ->
  nobal_action (fst (load_param atoi atof gs p)) = nobal_action (fst gs).
Proof.
  intros H. unfold load_param. destruct gs as [g r]. rewrite H.
  repeat match goal with
         | |- context [if ?b then _ else _] => destruct b
         end; reflexivity.
Qed.

Lemma load_params_other atoi atof ps :
  Forall (fun q => strcaseeq (param_name q) "nobal_action" = false) ps ->
  forall gs,
    nobal_action (fst (fold_left (load_param atoi atof) ps gs))
    = nobal_action (fst gs).
Proof.
  induction 1 as [|p ps Hp _ IH]; intros gs; [reflexivity|].
  cbn [fold_left]. now rewrite IH, load_param_other.
Qed.

Lemma load_param_nobal_action atoi atof gs p :
  strcaseeq (param_name p) "nobal_action" = true ->
  nobal_action (fst (load_param atoi atof gs p)) = Some (param_value p).
Proof.
  intros H. unfold load_param. destruct gs as [g r].
  unfold strcaseeq in *. apply String.eqb_eq in H. rewrite H.
  reflexivity.
Qed.

Lemma nobal_action_default g :
  nobal_action (default_actions g)
  = if zstr (nobal_action g) then Some "hangup"%string else nobal_action g.
Proof.
  unfold default_actions.
  destruct (zstr (percall_action g)); cbn;
    destruct (zstr (lowbal_action g)); cbn;
    destruct (zstr (nobal_action g)); reflexivity.
Qed.

(** X15: the no-balance action that [load_config] leaves is the value of
    the last [nobal_action] parameter of the settings, its name compared
    without case, when that value is not empty, and [hangup] when it is
    empty, whatever the parameters before it and the globals before the
    load. *)
Theorem last_nobal_action_wins (atoi : string -> Z) (atof : string -> double)
  (before after : list param) (p : param)
  (gs : globals_t * redis_settings) :
  strcaseeq (param_name p) "nobal_action" = true ->
  Forall (fun q => strcaseeq (param_name q) "nobal_action" = false) after ->
  nobal_action
    (fst (snd (load_config atoi atof (cfg_settings (before ++ p :: after))
                 gs)))
  = Some match param_value p with
         | EmptyString => "hangup"%string
         | String _ _ => param_value p
         end.
Proof.
  intros Hp Hafter. unfold load_config. cbn [fst snd].
  rewrite nobal_action_default, fold_left_app. cbn [fold_left].
  rewrite load_params_other by assumption.
  rewrite load_param_nobal_action by assumption.
  now destruct (param_value p).
Qed.

Lemma last_nobal_action_wins_witness :
  nobal_action
    (fst (snd (load_config (fun _ => 0) (fun _ => 0%Q)
                 (cfg_settings
                    ([{| param_name := "nobal_action";
                         param_value := "transfer 1000" |}]
                     ++ {| param_name := "NoBal_Action";
                           param_value := "playback credit.wav" |}
                     :: [{| param_name := "nobal_amt";
                            param_value := "0.5" |}]))
                 zeroed_globals)))
  = Some "playback credit.wav"%string.
Proof.
  apply (last_nobal_action_wins (fun _ => 0) (fun _ => 0%Q)
           [{| param_name := "nobal_action";
               param_value := "transfer 1000" |}]
           [{| param_name := "nobal_amt"; param_value := "0.5" |}]
           {| param_name := "NoBal_Action";
              param_value := "playback credit.wav" |}
           zeroed_globals).
  - reflexivity.
  - repeat constructor.
Defined.

(** X16: the load leaves a connection to the store open.  Whatever the
    configuration, the state handler stays registered even when the load
    fails; the load succeeds exactly when the heartbeat could be bound and
    the store reached, and then the connection it opened to try the store
    is closed neither by the load nor by the shutdown. *)
Theorem load_leaves_a_connection_open (atoi : string -> Z)
  (atof : string -> double) (cfg : config_file) (bound connected : bool) :
  let r := mod_rednibblebill_load atoi atof cfg bound connected in
  fst r = (if bound
           then returned (if connected then SWITCH_STATUS_SUCCESS
                          else SWITCH_STATUS_FALSE)
           else SWITCH_STATUS_GENERR)
  /\ state_handler_added (snd r) = true
  /\ heartbeat_bound (snd r) = bound
  /\ open_connections (journal (snd r))
     = (if bound && connected then 1 else 0)
  /\ open_connections (journal (snd (mod_rednibblebill_shutdown (snd r))))
     = (if bound && connected then 1 else 0).
Proof.
  unfold mod_rednibblebill_load, zeroed_globals, load_config.
  cbn [fst snd].
  assert (Hj : open_connections
                 (fold_left (fun w e => emit e w)
                    match cfg with
                    | cfg_unopened =>
                      [switch_log_printf SWITCH_LOG_ERROR "open of %s failed"]
                    | _ => []
                    end nothing_logged) = 0)
    by (destruct cfg; reflexivity).
  destruct bound; cbn [negb andb].
  - unfold redis_factory.
    destruct connected; cbn [fst snd journal state_handler_added
                               heartbeat_bound mod_rednibblebill_shutdown];
      repeat split; conn; rewrite Hj; reflexivity.
  - cbn [fst snd journal state_handler_added heartbeat_bound
           mod_rednibblebill_shutdown].
    repeat split; conn; exact Hj.
Qed.

(** * Beyond the claims: the command surface and the hooks *)

(** X17: the command word is read without regard to case: two command
    lines whose first words differ only by case, with the same words
    after, ask for the same thing. *)
Theorem command_words_ignore_case (atoi : string -> Z)
  (atof : string -> double) (word word' : string) (rest : list string) :
  strcaseeq word word' = true ->
  app_directive atoi atof (word :: rest)
  = app_directive atoi atof (word' :: rest).
Proof.
  intros H. apply strcaseeq_lower in H.
  unfold app_directive, strcaseeq. cbn [List.length nth]. now rewrite H.
Qed.

Lemma command_words_ignore_case_witness :
  app_directive (fun _ => 0) (fun _ => 0%Q) ["PAUSE"%string]
  = app_directive (fun _ => 0) (fun _ => 0%Q) ["pause"%string].
Proof.
  apply (command_words_ignore_case (fun _ => 0) (fun _ => 0%Q)
           "PAUSE" "pause" []).
  reflexivity.
Defined.

Lemma api_directive_app atoi atof uuid rest :
  api_directive atoi atof (uuid :: rest) = app_directive atoi atof rest
  \/ rest = [].
Proof.
  destruct rest as [|word rest]; [now right|left].
  unfold api_directive, app_directive. cbn [List.length nth].
  replace (Z.of_nat (S (S (List.length rest))) =? 3)
    with (Z.of_nat (S (List.length rest)) =? 2)
    by (destruct (Z.eqb_spec (Z.of_nat (S (List.length rest))) 2),
          (Z.eqb_spec (Z.of_nat (S (S (List.length rest)))) 3); lia).
  reflexivity.
Qed.

(** X18: the API command does to the session it names what the dialplan
    application does with the same words.  With two or three words, the
    first a uuid that is not empty, it writes nothing and acts on the
    located session as the application acts with the words after the
    uuid; it writes [-ERR No Such Channel!] when the session cannot be
    located and the usage line for any other count of words or an empty
    uuid, and then touches no session. *)
Theorem api_acts_as_app (atoi : string -> Z) (atof : string -> double)
  (g : globals_t) (o : oracle) (locate : string -> option session_t)
  (uuid : string) (rest : list string) :
  rednibblebill_api_function atoi atof g o locate (Some (uuid :: rest))
  = if ((List.length rest =? 1)%nat || (List.length rest =? 2)%nat)
       && negb (String.eqb uuid EmptyString)
    then
      match locate uuid with
      | Some s =>
        option_map (fun s' => ([], Some s'))
          (rednibblebill_app atoi atof g o rest s)
      | None => Some (["-ERR No Such Channel!"%string], None)
      end
    else Some ([String.append "-USAGE: " API_SYNTAX], None).
Proof.
  unfold rednibblebill_api_function. cbn [List.length nth].
  replace (Z.of_nat (S (List.length rest)) =? 2)
    with (List.length rest =? 1)%nat
    by (destruct (Nat.eqb_spec (List.length rest) 1),
          (Z.eqb_spec (Z.of_nat (S (List.length rest))) 2); lia).
  replace (Z.of_nat (S (List.length rest)) =? 3)
    with (List.length rest =? 2)%nat
    by (destruct (Nat.eqb_spec (List.length rest) 2),
          (Z.eqb_spec (Z.of_nat (S (List.length rest))) 3); lia).
  replace (zstr (Some uuid)) with (String.eqb uuid EmptyString)
    by now destruct uuid.
  destruct ((List.length rest =? 1)%nat || (List.length rest =? 2)%nat)
    eqn:Hlen; [|reflexivity].
  destruct (negb (String.eqb uuid EmptyString)); [|reflexivity].
  cbn [andb]. destruct (locate uuid) as [s|]; [|reflexivity].
  unfold rednibblebill_app.
  destruct (api_directive_app atoi atof uuid rest) as [-> | ->];
    [|discriminate Hlen].
  destruct (app_directive atoi atof rest); reflexivity.
Qed.

Lemma with_billing_same s : with_billing s (billing s) = s.
Proof. now destruct s. Qed.

(** X19: a call that is hung up while its billing is paused is not
    charged for the time since its last billing.  [process_hangup] does
    not resume it: it debits nothing, leaves the channel and its billing
    data as they were, and publishes in [rednibble_current_balance] the
    text [%f] gives for the balance it reads, which is 1 when the store
    cannot be read. *)
Theorem paused_call_is_not_charged_at_hangup (g : globals_t)
  (o o' : oracle) (s : session_t) (ch : switch_channel_t)
  (d : rednibble_data_t) (acct : string) :
  channel (billing s) = Some ch ->
  rednibble_data ch = Some d ->
  0 < pausets d ->
  rednibble_account ch = Some acct ->
  exists s',
    process_hangup g o o' s = Some s'
    /\ channel (billing s') = Some ch
    /\ observed is_debit (billing s') = observed is_debit (billing s)
    /\ rednibble_current_balance s'
       = Some (printf_f
                 (fail_open_balance (balance_connect o') (balance_reply o')))
    /\ heartbeat_seconds s' = heartbeat_seconds s.
Proof.
  intros Hch Hd Hp Ha.
  assert (Hb : bills ch = false).
  { unfold bills. rewrite (opening_data ch d Hd).
    destruct (rednibble_rate ch); [|reflexivity]. rewrite Ha.
    destruct (answered ch); [|reflexivity].
    destruct (Z.gtb_spec (pausets d) 0); [|lia].
    apply andb_false_r. }
  destruct (do_billing_idle g o (billing s)) as (Hc & _ & Ho & _);
    [now rewrite Hch|].
  unfold process_hangup. rewrite Hc, Hch, Ha.
  pose proof (get_balance_frame o' acct (do_billing g o (billing s)))
    as (Fb & Fc & _ & Fo).
  destruct (get_balance o' acct _) as [balance w1]. cbn [fst snd] in *.
  eexists. split; [reflexivity|].
  cbn [billing rednibble_current_balance heartbeat_seconds].
  repeat split; try congruence.
  now rewrite (Fo _ ignores_plumbing_debit).
Qed.

Lemma paused_call_is_not_charged_at_hangup_witness :
  let d := with_pausets (with_lastts zeroed 5000000) 7000000 in
  let ch := call (Some 60%Q) None (Some "alice"%string) (Some d) in
  let s := {| billing := session_of ch; heartbeat_seconds := None;
              rednibble_current_balance := None |} in
  exists s',
    process_hangup globals0 (store_up 90000000 250000)
      (store_up 90000000 250000) s = Some s'
    /\ channel (billing s') = Some ch
    /\ observed is_debit (billing s') = []
    /\ rednibble_current_balance s' = Some "0.250000"%string
    /\ heartbeat_seconds s' = None.
Proof.
  intros d ch s.
  apply (paused_call_is_not_charged_at_hangup globals0
           (store_up 90000000 250000) (store_up 90000000 250000) s ch d
           "alice"%string); reflexivity.
Defined.

(** X20: a session without a billing account is left alone by every state
    handler of the module: in every slot of the table the session comes
    back as it was, with nothing billed, nothing read from the store,
    nothing logged, no heartbeat asked for and no variable written. *)
Theorem handlers_leave_session_without_account (slot : state_handler_slot)
  (g : globals_t) (o o' : oracle) (s : session_t) (ch : switch_channel_t) :
  channel (billing s) = Some ch ->
  rednibble_account ch = None ->
  rednibble_state_handler slot g o o' s = Some s.
Proof.
  intros Hch Ha.
  assert (Hd : do_billing g o (billing s) = billing s).
  { unfold do_billing. rewrite Hch, Ha.
    now destruct (rednibble_rate ch). }
  assert (Hh : process_hangup g o o' s = Some s).
  { unfold process_hangup. rewrite Hd, Hch, Ha.
    now rewrite with_billing_same. }
  assert (Hs : sched_billing g s = s).
  { unfold sched_billing. rewrite Hch, Ha.
    now destruct (rednibble_rate ch). }
  destruct slot; cbn [rednibble_state_handler]; unfold process_and_sched;
    rewrite ?Hh, ?Hs; cbn [option_map]; rewrite ?Hs; reflexivity.
Qed.

Lemma handlers_leave_session_without_account_witness :
  let ch := call (Some 60%Q) None None None in
  let s := {| billing := session_of ch; heartbeat_seconds := None;
              rednibble_current_balance := None |} in
  rednibble_state_handler on_hangup globals0 (store_up 90000000 0)
    (store_up 90000000 0) s
  = Some s.
Proof.
  intros ch s.
  apply (handlers_leave_session_without_account on_hangup globals0
           (store_up 90000000 0) (store_up 90000000 0) s ch); reflexivity.
Defined.

(** X21: a heartbeat does to its session what the API command
    [<uuid> flush] does.  For an event whose [Unique-ID] is not empty, the
    session [event_handler] bills, if it locates one, is the session the
    API command leaves, and the API command writes nothing but
    [-ERR No Such Channel!] when there is none. *)
Theorem heartbeat_bills_like_api_flush (atoi : string -> Z)
  (atof : string -> double) (g : globals_t) (o : oracle)
  (locate : string -> option session_t) (ev : switch_event_t)
  (uuid : string) :
  event_unique_id ev = Some uuid ->
  uuid <> EmptyString ->
  rednibblebill_api_function atoi atof g o locate
    (Some [uuid; "flush"%string])
  = Some (match locate uuid with
          | Some _ => []
          | None => ["-ERR No Such Channel!"%string]
          end,
          snd (event_handler g o locate (Some ev))).
Proof.
  intros He Hu. unfold event_handler. rewrite He.
  unfold rednibblebill_api_function. cbn [List.length nth].
  destruct uuid as [|c t]; [contradiction|]. cbn [zstr negb andb].
  change (Z.of_nat 2 =? 2) with true. cbn [orb andb].
  destruct (locate (String c t)) as [s|]; reflexivity.
Qed.

Lemma heartbeat_bills_like_api_flush_witness :
  let s := {| billing :=
                session_of (call (Some 60%Q) None (Some "alice"%string) None);
              heartbeat_seconds := None;
              rednibble_current_balance := None |} in
  let locate := fun uuid : string =>
                  if String.eqb uuid "a1" then Some s else None in
  let ev := {| event_unique_id := Some "a1"%string; event_debug := false;
               event_headers := [] |} in
  rednibblebill_api_function (fun _ => 0) (fun _ => 0%Q) globals0
    (store_up 31000000 1000000000) locate (Some ["a1"; "flush"]%string)
  = Some ([], snd (event_handler globals0 (store_up 31000000 1000000000)
                     locate (Some ev))).
Proof.
  intros s locate ev.
  apply (heartbeat_bills_like_api_flush (fun _ => 0) (fun _ => 0%Q) globals0
           (store_up 31000000 1000000000) locate ev "a1"%string).
  - reflexivity.
  - discriminate.
Defined.

(** X22: a call out of credit is rerouted once.  After the billing that
    found an answered, running call at or below the no-balance threshold
    and rerouted it, the billing is paused: every later billing, as long
    as none resumes it, leaves the channel as it is, debits nothing and
    reroutes nothing. *)
Theorem reroute_happens_once (g : globals_t) (o : oracle) (os : list oracle)
  (w : world) (ch : switch_channel_t) :
  channel w = Some ch ->
  bills ch = true ->
  terminal ch = false ->
  pausets (opening ch) = 0 ->
  out_of_credit o (nobal_of g ch) = true ->
  0 < micro_time_pause o ->
  let w1 := do_billing g o w in
  exists w',
    run g (billings os) w1 = Some w'
    /\ channel w' = channel w1
    /\ observed is_transfer w' = observed is_transfer w1
    /\ observed is_debit w' = observed is_debit w1.
Proof.
  intros Hch Hb Ht Hp Hout Hclock w1.
  destruct (bills_inv ch Hb) as (rate & acct & ans & Hr & Ha & Hans & H1 & _).
  pose proof (do_billing_channel g o w ch Hch Hb) as Hc1. fold w1 in Hc1.
  set (ch1 := with_rednibble_data (published o ch) (Some (settled g o ch)))
    in *.
  assert (Hpaused : pausets (settled g o ch) = micro_time_pause o).
  { unfold settled. rewrite Ht, verified_pausets, billed_pausets, Hout, Hp.
    reflexivity. }
  assert (Hidle : bills ch1 = false /\ unanswered ch1 = false).
  { unfold bills, unanswered, opening, ch1, published.
    destruct (_ && debit_succeeds o);
      cbn [rednibble_rate rednibble_account answered rednibble_data
             with_rednibble_data with_total_billed];
      rewrite Hr, Ha, Hans, Hpaused;
      destruct (Z.ltb_spec ans 1); try lia;
      destruct (Z.gtb_spec (micro_time_pause o) 0); try lia; now split. }
  clearbody w1 ch1. clear - Hc1 Hidle.
  revert w1 Hc1. induction os as [|o1 os IH]; intros w1 Hc1.
  - exists w1. repeat split.
  - cbn [billings map run rednibblebill_app_function].
    destruct (do_billing_quiet g o1 w1) as (Hc & _ & Ho);
      [now rewrite Hc1|].
    destruct (IH (do_billing g o1 w1)) as (w' & Hrun & Hc' & Ht' & Hd');
      [congruence|].
    exists w'. split; [exact Hrun|].
    rewrite Hc', Ht', Hd', Hc, !Ho by auto with frames. now repeat split.
Qed.

Lemma reroute_happens_once_witness :
  let ch := call (Some 60%Q) None (Some "alice"%string) None in
  let w1 := do_billing globals0 (store_up 31000000 0) (session_of ch) in
  exists w',
    run globals0
      (billings [store_up 60000000 0; store_up 90000000 0]) w1 = Some w'
    /\ channel w' = channel w1
    /\ observed is_transfer w' = observed is_transfer w1
    /\ observed is_debit w' = observed is_debit w1.
Proof.
  intros ch w1.
  apply (reroute_happens_once globals0 (store_up 31000000 0)
           [store_up 60000000 0; store_up 90000000 0] (session_of ch) ch);
    reflexivity.
Defined.
